(** * Voice generation tool: a shallow embedding of the synthesis pipeline

    The development follows the TypeScript sources module by module:

    - [JS]: the fragment of the JavaScript runtime the sources rely on
      (numbers, strings, regular expressions, [Buffer]);
    - [VoiceInterface], [ConversationInterface]: the interface types;
    - [PromptParser]: [parseVoicePrompt] ([utils/prompt-parser]);
    - [EmotionCurves]: the class [EmotionCurves] ([utils/emotion-curves]);
    - [EmotionTransitionEngine]: the class of that name
      ([core/emotion-transition-engine]);
    - [ConversationManager]: the class of that name
      ([core/conversation-manager]);
    - [AudioMixer]: the class [AudioMixer] ([utils/audio-mixer]);
    - [SubtitleReader]: the class [SubtitleReader]
      ([video/format-readers/subtitle-reader]).

    Conventions.  A JavaScript [number] that holds a duration, an intensity
    or a gain is an exact rational ([Q]): the rounding of IEEE doubles, [NaN]
    and the infinities are not modelled, except in
    [AudioMixer.normalizeAudio_binary64], which scales the samples in
    binary64 arithmetic as the code does (the module [Binary64] at the end
    re-evaluates two of the examples in binary64 arithmetic).  A [number]
    that the code only uses as an integer (sample values, byte offsets,
    indices) is a [Z].  Strings are ASCII strings.  An optional property
    [p?: T] is an [option T]; JavaScript truthiness is written out where the
    code relies on it.  An exception is a [Throw] in the [Result] type.
    The regular expressions the code writes out are embedded ([JS.regex]);
    the one the emotion engine builds from a marker at run time is the
    runtime's, and the engine is parametrized by it. *)

From Stdlib Require Import ZArith QArith Qround Qabs Qminmax Lia Lqa Bool List.
From Stdlib Require Import Ascii String Sorting.Sorted Sorting.Permutation.
From Stdlib Require Import Init.Byte DecimalString.
From Stdlib Require Import Floats.PrimFloat Floats.FloatOps Floats.SpecFloat.
Import ListNotations.

Set Implicit Arguments.

(* ===================================================================== *)
(** * The JavaScript runtime fragment *)
(* ===================================================================== *)

Module JS.

(** ** Numbers *)

Local Open Scope Q_scope.

(** [Math.floor], [Math.ceil] and [Math.round] (halves go up). *)
Definition Math_floor (x : Q) : Z := Qfloor x.
Definition Math_ceil (x : Q) : Z := Qceiling x.
Definition Math_round (x : Q) : Z := Qfloor (x + (1 # 2)).

(** [Math.trunc], and the remainder operator [%], whose result takes the
    sign of the dividend. *)
Definition Math_trunc (x : Q) : Z :=
  if Qle_bool 0 x then Qfloor x else Qceiling x.

Definition rem (x m : Q) : Q := x - m * inject_Z (Math_trunc (x / m)).

(** Truthiness of a number ([0] is falsy) and of an optional number. *)
Definition truthy (x : Q) : bool := negb (Qeq_bool x 0).

Definition truthy_opt (o : option Q) : bool :=
  match o with Some x => truthy x | None => false end.

(** [o || d] on an optional number. *)
Definition or_default (o : option Q) (d : Q) : Q :=
  match o with Some x => if truthy x then x else d | None => d end.

Definition Qltb (x y : Q) : bool := negb (Qle_bool y x).

(** ** Doubles

    Where the rounding of binary64 arithmetic decides a result, numbers
    are primitive floats.  An integer below [2^53] in absolute value is a
    double, and every finite double is a rational number. *)
Fixpoint float_of_pos (p : positive) : float :=
  match p with
  | xH => 1
  | xO p' => 2 * float_of_pos p'
  | xI p' => 2 * float_of_pos p' + 1
  end%float.

Definition float_of_Z (z : Z) : float :=
  match z with
  | Z0 => 0
  | Zpos p => float_of_pos p
  | Zneg p => - float_of_pos p
  end%float.

Definition Q_of_float (x : float) : Q :=
  match Prim2SF x with
  | S754_finite negative m e =>
      let magnitude := inject_Z (Zpos m) * 2 ^ e in
      if negative then - magnitude else magnitude
  | _ => 0
  end.

(** [Math.round] on a finite double: the nearest integer, halves going
    up. *)
Definition Math_round_float (x : float) : Z := Math_round (Q_of_float x).

(** ** Strings *)

Local Open Scope string_scope.

Definition nl : ascii := "010"%char.
Definition is_upper (a : ascii) : bool :=
  let n := nat_of_ascii a in (65 <=? n)%nat && (n <=? 90)%nat.
Definition is_lower (a : ascii) : bool :=
  let n := nat_of_ascii a in (97 <=? n)%nat && (n <=? 122)%nat.
Definition is_digit (a : ascii) : bool :=
  let n := nat_of_ascii a in (48 <=? n)%nat && (n <=? 57)%nat.
(** White space: TAB, LF, VT, FF, CR and SPACE. *)
Definition is_space (a : ascii) : bool :=
  let n := nat_of_ascii a in ((9 <=? n)%nat && (n <=? 13)%nat) || (n =? 32)%nat.

Definition lower_char (a : ascii) : ascii :=
  if is_upper a then ascii_of_nat (nat_of_ascii a + 32) else a.
Definition upper_char (a : ascii) : ascii :=
  if is_lower a then ascii_of_nat (nat_of_ascii a - 32) else a.

Fixpoint toLowerCase (s : string) : string :=
  match s with
  | EmptyString => EmptyString
  | String a s' => String (lower_char a) (toLowerCase s')
  end.

(** [s.startsWith(p)]. *)
Fixpoint startsWith (p s : string) : bool :=
  match p, s with
  | EmptyString, _ => true
  | String a p', String b s' => Ascii.eqb a b && startsWith p' s'
  | String _ _, EmptyString => false
  end.

(** [s.indexOf(p)]: the first position at which [p] occurs, [None] for -1. *)
Fixpoint indexOf (s p : string) : option nat :=
  if startsWith p s then Some 0%nat
  else match s with
       | EmptyString => None
       | String _ s' => option_map S (indexOf s' p)
       end.

Definition includes (s p : string) : bool :=
  match indexOf s p with Some _ => true | None => false end.

Fixpoint drop (n : nat) (s : string) : string :=
  match n, s with
  | O, _ => s
  | S n', String _ s' => drop n' s'
  | S _, EmptyString => EmptyString
  end.

(** [s.substring(i, j)] for [i <= j]. *)
Definition slice (i j : nat) (s : string) : string := substring i (j - i) s.

Fixpoint trimStart (s : string) : string :=
  match s with
  | String a s' => if is_space a then trimStart s' else s
  | EmptyString => EmptyString
  end.

Fixpoint rev_string (s acc : string) : string :=
  match s with
  | EmptyString => acc
  | String a s' => rev_string s' (String a acc)
  end.

Definition trimEnd (s : string) : string :=
  rev_string (trimStart (rev_string s EmptyString)) EmptyString.

Definition trim (s : string) : string := trimEnd (trimStart s).

(** [s.split(c)] for a one-character separator. *)
Fixpoint split_char (c : ascii) (s : string) : list string :=
  match s with
  | EmptyString => [EmptyString]
  | String a s' =>
      if Ascii.eqb a c then EmptyString :: split_char c s'
      else match split_char c s' with
           | w :: ws => String a w :: ws
           | [] => [String a EmptyString]
           end
  end.

(** [xs.join(sep)]. *)
Fixpoint join (sep : string) (xs : list string) : string :=
  match xs with
  | [] => EmptyString
  | [x] => x
  | x :: xs' => x ++ sep ++ join sep xs'
  end.

(** [n.toString()] for an integer, and [padStart(w, "0")]. *)
Definition toString (z : Z) : string :=
  DecimalString.NilZero.string_of_int (Z.to_int z).

Fixpoint zeros (n : nat) : string :=
  match n with O => EmptyString | S n' => String "0" (zeros n') end.

Definition padStart0 (w : nat) (s : string) : string :=
  zeros (w - String.length s) ++ s.

(** A non-empty optional string (a truthy [string | undefined]). *)
Definition truthy_string (o : option string) : option string :=
  match o with
  | Some EmptyString => None
  | other => other
  end.

(** [parseInt(s, 10)]: leading white space, an optional sign, then the
    longest run of digits; [None] stands for [NaN]. *)
Fixpoint digits_value (s : string) (acc : Z) : Z :=
  match s with
  | String a s' =>
      if is_digit a
      then digits_value s' (10 * acc + Z.of_nat (nat_of_ascii a - 48))%Z
      else acc
  | EmptyString => acc
  end.

Definition starts_with_digit (s : string) : bool :=
  match s with String a _ => is_digit a | EmptyString => false end.

Definition parseInt (s : string) : option Z :=
  match trimStart s with
  | String "-" s' =>
      if starts_with_digit s' then Some (- digits_value s' 0)%Z else None
  | String "+" s' =>
      if starts_with_digit s' then Some (digits_value s' 0) else None
  | s' => if starts_with_digit s' then Some (digits_value s' 0) else None
  end.

(** ** Regular expressions

    A backtracking matcher for the constructs the sources use: character
    classes, sequencing, alternation, greedy and lazy repetition, capturing
    groups and the [^] assertion.  The matcher follows the ECMAScript
    semantics: alternatives and repetitions are tried in priority order, and
    an iteration of a repetition that consumes nothing is rejected. *)

Inductive regex : Type :=
| Eps
| Chr (p : ascii -> bool)
| Seq (r1 r2 : regex)
| Alt (r1 r2 : regex)
| Star (greedy : bool) (r : regex)
| Group (n : nat) (r : regex)
| Bol.

Definition captures := list (nat * string).

Fixpoint capture (n : nat) (c : captures) : option string :=
  match c with
  | [] => None
  | (m, s) :: c' => if (m =? n)%nat then Some s else capture n c'
  end.

(** [run r i s c k]: match [r] at position [i], where [s] is the input from
    [i] on, then continue with [k] on the position reached. *)
Fixpoint run (A : Type) (r : regex)
  : nat -> string -> captures -> (nat -> string -> captures -> option A) -> option A :=
  match r with
  | Eps => fun i s c k => k i s c
  | Chr p => fun i s c k =>
      match s with
      | String a s' => if p a then k (S i) s' c else None
      | EmptyString => None
      end
  | Seq r1 r2 => fun i s c k =>
      run r1 i s c (fun i' s' c' => run r2 i' s' c' k)
  | Alt r1 r2 => fun i s c k =>
      match run r1 i s c k with
      | Some x => Some x
      | None => run r2 i s c k
      end
  | Star greedy r1 => fun i s c k =>
      (fix iter (fuel : nat) (i : nat) (s : string) (c : captures) : option A :=
         match fuel with
         | O => k i s c
         | S fuel' =>
             let again :=
               run r1 i s c
                 (fun i' s' c' => if (i <? i')%nat then iter fuel' i' s' c' else None) in
             if greedy
             then match again with Some x => Some x | None => k i s c end
             else match k i s c with Some x => Some x | None => again end
         end) (S (String.length s)) i s c
  | Group n r1 => fun i s c k =>
      run r1 i s c (fun i' s' c' => k i' s' ((n, substring 0 (i' - i) s) :: c'))
  | Bol => fun i s c k => if (i =? 0)%nat then k i s c else None
  end.

(** Derived forms: [r+], [r{2}], [r{3}], a literal character and a literal
    string, and the [i] flag on a class. *)
Definition Plus (r : regex) : regex := Seq r (Star true r).
Definition Rep2 (r : regex) : regex := Seq r r.
Definition Rep3 (r : regex) : regex := Seq r (Seq r r).
Definition Lit (a : ascii) : regex := Chr (Ascii.eqb a).
Fixpoint Lits (s : string) : regex :=
  match s with
  | EmptyString => Eps
  | String a s' => Seq (Lit a) (Lits s')
  end.
Definition icase (p : ascii -> bool) : ascii -> bool :=
  fun a => p (lower_char a) || p (upper_char a).
Fixpoint Lits_icase (s : string) : regex :=
  match s with
  | EmptyString => Eps
  | String a s' => Seq (Chr (icase (Ascii.eqb a))) (Lits_icase s')
  end.
Definition any_char : ascii -> bool := fun _ => true.
Definition not_char (a : ascii) : ascii -> bool := fun b => negb (Ascii.eqb a b).

(** A match: where it starts, where it ends, what the groups captured. *)
Record match_result : Type := {
  m_index : nat;
  m_end : nat;
  m_groups : captures
}.

(** The match of [r] that starts exactly at position [q] of [s]. *)
Definition match_at (r : regex) (s : string) (q : nat) : option match_result :=
  run r q (drop q s) []
    (fun e _ c => Some {| m_index := q; m_end := e; m_groups := c |}).

(** [r.exec(s)] from position [q]: the leftmost match at or after [q]. *)
Fixpoint exec_from (r : regex) (s : string) (fuel q : nat) : option match_result :=
  match match_at r s q with
  | Some m => Some m
  | None =>
      match fuel with
      | O => None
      | S fuel' => exec_from r s fuel' (S q)
      end
  end.

Definition search (r : regex) (s : string) (q : nat) : option match_result :=
  if (String.length s <? q)%nat then None
  else exec_from r s (String.length s - q) q.

(** [s.match(r)] for a regular expression without the [g] flag. *)
Definition match_ (s : string) (r : regex) : option match_result := search r s 0.

(** [s.split(r)] for a regular expression without groups. *)
Fixpoint split_loop (r : regex) (s : string) (fuel p q : nat) : list string :=
  match fuel with
  | O => [slice p (String.length s) s]
  | S fuel' =>
      if (q <? String.length s)%nat then
        match match_at r s q with
        | Some m =>
            if (m_end m =? p)%nat then split_loop r s fuel' p (S q)
            else slice p q s :: split_loop r s fuel' (m_end m) (m_end m)
        | None => split_loop r s fuel' p (S q)
        end
      else [slice p (String.length s) s]
  end.

Definition split (s : string) (r : regex) : list string :=
  match s with
  | EmptyString =>
      match match_at r s 0 with Some _ => [] | None => [s] end
  | _ => split_loop r s (2 * String.length s + 2) 0 0
  end.

(** [s.replace(r, "")] for a regular expression with the [g] flag. *)
Fixpoint remove_loop (r : regex) (s : string) (fuel p : nat) : string :=
  match fuel with
  | O => drop p s
  | S fuel' =>
      match search r s p with
      | None => drop p s
      | Some m =>
          if (m_end m =? m_index m)%nat
          then slice p (S (m_index m)) s ++ remove_loop r s fuel' (S (m_index m))
          else slice p (m_index m) s ++ remove_loop r s fuel' (m_end m)
      end
  end.

Definition removeAll (s : string) (r : regex) : string :=
  remove_loop r s (S (String.length s)) 0.

(** The regular expression [/\s+/]. *)
Definition re_spaces : regex := Plus (Chr is_space).

(** ** Arrays

    [xs.sort((a, b) => key(a) - key(b))].  [Array.prototype.sort] is stable,
    and the stable sorted arrangement of an array is unique, so any stable
    sort computes it; this one inserts from the right. *)
Section Sort.
Variable A : Type.
Variable key : A -> Q.

Fixpoint insert_by (x : A) (l : list A) : list A :=
  match l with
  | [] => [x]
  | y :: l' => if Qle_bool (key x) (key y) then x :: l else y :: insert_by x l'
  end.

Fixpoint sort_by (l : list A) : list A :=
  match l with
  | [] => []
  | x :: l' => insert_by x (sort_by l')
  end.

End Sort.

(** [xs[i] = x] for an index within the array. *)
Fixpoint replace_nth (A : Type) (i : nat) (x : A) (l : list A) : list A :=
  match l, i with
  | [], _ => []
  | _ :: l', O => x :: l'
  | y :: l', S i' => y :: replace_nth i' x l'
  end.

(** ** Exceptions

    A computation that may throw returns a [Result]. *)
Inductive Exception : Type :=
| Error (message : string)
| ERR_OUT_OF_RANGE_value
| ERR_OUT_OF_RANGE_offset
| ERR_OUT_OF_RANGE_size
| TypeError
| SyntaxError.

Inductive Result (A : Type) : Type :=
| Ok (a : A)
| Throw (e : Exception).
Arguments Ok {A} a.
Arguments Throw {A} e.

Definition bind (A B : Type) (m : Result A) (f : A -> Result B) : Result B :=
  match m with
  | Ok a => f a
  | Throw e => Throw e
  end.

Notation "x <- m ;; k" := (bind m (fun x => k))
  (at level 61, m at next level, right associativity).

(** [for (let i = 0; i < n; i++) s = body(i, s)], the body possibly
    throwing. *)
Fixpoint for_from (S : Type) (n i : nat) (body : nat -> S -> Result S) (s : S)
  : Result S :=
  match n with
  | O => Ok s
  | Datatypes.S n' => s' <- body i s ;; for_from n' (Datatypes.S i) body s'
  end.

Definition for_range (S : Type) (n : nat) (body : nat -> S -> Result S) (s : S)
  : Result S := for_from n 0 body s.

(** [for (const x of xs) s = body(x, s)]. *)
Fixpoint for_each (A S : Type) (xs : list A) (body : A -> S -> Result S) (s : S)
  : Result S :=
  match xs with
  | [] => Ok s
  | x :: xs' => s' <- body x s ;; for_each xs' body s'
  end.

(** ** [new RegExp(source, 'i')] on plain sources

    A source is plain when each of its characters is a pattern character
    or a syntax character behind a backslash.  The pattern of a plain
    source is the text the source spells, letter case ignored. *)
Definition backslash : ascii := "092"%char.

Definition is_syntax_char (a : ascii) : bool :=
  existsb (Ascii.eqb a) (backslash :: list_ascii_of_string "^$.*+?()[]{}|").

Fixpoint plain_pattern (source : string) : option regex :=
  match source with
  | EmptyString => Some Eps
  | String "092"%char (String a source') =>
      if is_syntax_char a then
        match plain_pattern source' with
        | Some r => Some (Seq (Lit a) r)
        | None => None
        end
      else None
  | String a source' =>
      if is_syntax_char a then None
      else
        match plain_pattern source' with
        | Some r => Some (Seq (Chr (icase (Ascii.eqb a))) r)
        | None => None
        end
  end.

(** [text.match(new RegExp(source, 'i'))] reduced to the index of the
    match, for a plain [source].  This is the runtime of the examples of
    this development, which construct no other regular expression; a
    source that is not plain it rejects, as the constructor rejects a
    source that is no pattern. *)
Definition RegExp_plain (source text : string) : Result (option nat) :=
  match plain_pattern source with
  | Some r => Ok (option_map m_index (match_ text r))
  | None => Throw SyntaxError
  end.

(** ** [Buffer]

    A [Buffer] is its sequence of bytes; 16-bit samples are read and written
    in little-endian two's complement. *)
Definition Buffer : Type := list byte.

Definition byte_to_Z (b : byte) : Z := Z.of_N (Byte.to_N b).

Definition byte_of_Z (z : Z) : byte :=
  match Byte.of_N (Z.to_N (z mod 256)) with
  | Some b => b
  | None => x00
  end.

Definition Buffer_length (buf : Buffer) : Z := Z.of_nat (List.length buf).

(** [Buffer.alloc(size)]. *)
Definition Buffer_alloc (size : Z) : Result Buffer :=
  if (size <? 0)%Z then Throw ERR_OUT_OF_RANGE_size
  else Ok (repeat x00 (Z.to_nat size)).

(** [buf[offset]], [None] for [undefined]. *)
Definition byte_at (buf : Buffer) (offset : Z) : option byte :=
  if (offset <? 0)%Z then None else nth_error buf (Z.to_nat offset).

Definition readInt16LE (buf : Buffer) (offset : Z) : Result Z :=
  match byte_at buf offset, byte_at buf (offset + 1) with
  | Some first, Some last =>
      let val := (byte_to_Z first + byte_to_Z last * 256)%Z in
      Ok (if (32768 <=? val)%Z then val - 65536 else val)%Z
  | _, _ => Throw ERR_OUT_OF_RANGE_offset
  end.

Definition writeInt16LE (buf : Buffer) (value offset : Z) : Result Buffer :=
  if ((32767 <? value) || (value <? -32768))%Z then Throw ERR_OUT_OF_RANGE_value
  else
    match byte_at buf offset, byte_at buf (offset + 1) with
    | Some _, Some _ =>
        Ok (replace_nth (Z.to_nat (offset + 1)) (byte_of_Z (value / 256))
              (replace_nth (Z.to_nat offset) (byte_of_Z value) buf))
    | _, _ => Throw ERR_OUT_OF_RANGE_offset
    end.

(** [source.copy(target)]. *)
Definition Buffer_copy (source target : Buffer) : Buffer :=
  (firstn (List.length target) source ++ skipn (List.length source) target)%list.

(** [Math.max(-32768, Math.min(32767, x))] on an integer. *)
Definition clamp16 (x : Z) : Z := Z.max (-32768) (Z.min 32767 x).

End JS.

(* ===================================================================== *)
(** * Facts about the runtime fragment *)
(* ===================================================================== *)

Module JSFacts.
Import JS.
Local Open Scope Q_scope.

Lemma Qltb_iff (x y : Q) : Qltb x y = true <-> x < y.
Proof.
  unfold Qltb. destruct (Qle_bool y x) eqn:E; simpl.
  - apply Qle_bool_iff in E. split; [discriminate |].
    intros H. exfalso. apply (Qlt_not_le _ _ H E).
  - split; [| reflexivity]. intros _. apply Qnot_le_lt.
    intros H. apply Qle_bool_iff in H. congruence.
Qed.

Lemma Qltb_false_iff (x y : Q) : Qltb x y = false <-> y <= x.
Proof.
  unfold Qltb. destruct (Qle_bool y x) eqn:E; simpl.
  - apply Qle_bool_iff in E. split; [intros _; exact E | reflexivity].
  - split; [discriminate |]. intros H. apply Qle_bool_iff in H. congruence.
Qed.

Lemma square_nonneg (x : Q) : 0 <= x * x.
Proof. destruct (Qlt_le_dec x 0); nra. Qed.

(** ** Strings *)

Lemma startsWith_iff (p s : string) :
  startsWith p s = true <-> exists post, s = (p ++ post)%string.
Proof.
  revert s. induction p as [| a p IH]; intros s; simpl.
  - split; [intros _; exists s; reflexivity | reflexivity].
  - destruct s as [| b s].
    + split; [discriminate | intros [post H]; discriminate].
    + rewrite andb_true_iff, Ascii.eqb_eq, IH. split.
      * intros [-> [post ->]]. exists post. reflexivity.
      * intros [post H]. inversion H; subst. split; [reflexivity | eauto].
Qed.

(** [includes] finds [p] exactly when [p] occurs somewhere in [s]. *)
Lemma includes_iff (s p : string) :
  includes s p = true <-> exists pre post, s = (pre ++ p ++ post)%string.
Proof.
  unfold includes. induction s as [| a s IH]; simpl.
  - destruct (startsWith p EmptyString) eqn:E.
    + apply startsWith_iff in E. destruct E as [post E].
      split; [intros _; exists EmptyString, post; exact E | reflexivity].
    + split; [discriminate |]. intros [pre [post H]].
      destruct pre; [| discriminate]. simpl in H.
      assert (startsWith p EmptyString = true)
        by (apply startsWith_iff; eauto).
      congruence.
  - destruct (startsWith p (String a s)) eqn:E.
    + apply startsWith_iff in E. destruct E as [post E].
      split; [intros _; exists EmptyString, post; exact E | reflexivity].
    + destruct (indexOf s p) as [n |]; simpl.
      * split; [intros _ | reflexivity].
        destruct (proj1 IH eq_refl) as [pre [post ->]].
        exists (String a pre), post. reflexivity.
      * split; [discriminate |]. intros [pre [post H]].
        destruct pre as [| b pre]; simpl in H.
        -- assert (startsWith p (String a s) = true)
             by (apply startsWith_iff; eauto).
           congruence.
        -- inversion H; subst.
           assert (None = Some 0%nat -> False) by discriminate.
           destruct (proj2 IH) as []; eauto.
Qed.

(** The runtime functions on inputs whose results in JavaScript are known. *)
Example split_spaces_inner :
  split "hello  world foo" re_spaces = ["hello"; "world"; "foo"]%string.
Proof. reflexivity. Qed.

Example split_spaces_outer :
  split " a b " re_spaces = [""; "a"; "b"; ""]%string.
Proof. reflexivity. Qed.

Example split_spaces_empty : split "" re_spaces = [""%string].
Proof. reflexivity. Qed.

Example match_lazy_group :
  option_map (fun m => (m_index m, capture 1 (m_groups m)))
    (match_ "a:b:c" (Seq (Group 1 (Star false (Chr any_char))) (Lit ":")))
  = Some (0%nat, Some "a"%string).
Proof. reflexivity. Qed.

Example match_greedy_group :
  option_map (fun m => (m_index m, capture 1 (m_groups m)))
    (match_ "a:b:c" (Seq (Group 1 (Star true (Chr any_char))) (Lit ":")))
  = Some (0%nat, Some "a:b"%string).
Proof. reflexivity. Qed.

Example removeAll_brackets :
  removeAll "x [a] y [B] z"
    (Seq (Lit "[") (Seq (Plus (Chr (icase is_lower))) (Lit "]")))
  = "x  y  z"%string.
Proof. reflexivity. Qed.

Example parseInt_examples :
  parseInt " 12a" = Some 12%Z /\ parseInt "-7" = Some (-7)%Z /\ parseInt "x1" = None.
Proof. repeat split. Qed.

Example trim_example : trim "  a b  " = "a b"%string.
Proof. reflexivity. Qed.

Section SortFacts.
Variable A : Type.
Variable key : A -> Q.

Definition key_le (x y : A) : Prop := key x <= key y.

(** [same_key t x]: the key of [x] is [t]. *)
Definition same_key (t : Q) (x : A) : bool := Qeq_bool (key x) t.

Lemma insert_by_perm x l : Permutation (insert_by key x l) (x :: l).
Proof.
  induction l as [| y l IH]; simpl.
  - apply Permutation_refl.
  - destruct (Qle_bool (key x) (key y)).
    + apply Permutation_refl.
    + eapply perm_trans; [apply perm_skip, IH | apply perm_swap].
Qed.

Lemma sort_by_perm l : Permutation (sort_by key l) l.
Proof.
  induction l as [| x l IH]; simpl.
  - apply perm_nil.
  - eapply perm_trans; [apply insert_by_perm | apply perm_skip, IH].
Qed.

Lemma sort_by_length l : List.length (sort_by key l) = List.length l.
Proof. apply Permutation_length, sort_by_perm. Qed.

Lemma insert_by_sorted x l :
  StronglySorted key_le l -> StronglySorted key_le (insert_by key x l).
Proof.
  induction 1 as [| y l Hs IH Hall]; simpl.
  - constructor; constructor.
  - destruct (Qle_bool (key x) (key y)) eqn:E.
    + apply Qle_bool_iff in E.
      constructor; [constructor; assumption |].
      constructor; [exact E |].
      eapply Forall_impl; [| exact Hall].
      intros z Hz; unfold key_le in *; eapply Qle_trans; eassumption.
    + constructor; [exact IH |].
      assert (Hyx : key y <= key x).
      { apply Qlt_le_weak, Qnot_le_lt. intro H.
        apply Qle_bool_iff in H. congruence. }
      eapply Permutation_Forall;
        [apply Permutation_sym, insert_by_perm |].
      constructor; assumption.
Qed.

Lemma sort_by_sorted l : StronglySorted key_le (sort_by key l).
Proof.
  induction l as [| x l IH]; simpl.
  - constructor.
  - apply insert_by_sorted, IH.
Qed.

(** Inserting [x] moves it only past elements with a strictly smaller key,
    so the elements of any one key stay in their order. *)
Lemma filter_insert_by t x l :
  filter (same_key t) (insert_by key x l) =
  if same_key t x then x :: filter (same_key t) l else filter (same_key t) l.
Proof.
  induction l as [| y l IH]; simpl.
  - reflexivity.
  - destruct (Qle_bool (key x) (key y)) eqn:E; simpl.
    + reflexivity.
    + rewrite IH.
      destruct (same_key t x) eqn:Ex; [| reflexivity].
      assert (Ey : same_key t y = false).
      { unfold same_key in *. apply Qeq_bool_iff in Ex.
        destruct (Qeq_bool (key y) t) eqn:Ey; [| reflexivity].
        apply Qeq_bool_iff in Ey.
        assert (H : Qle_bool (key x) (key y) = true).
        { apply Qle_bool_iff. rewrite Ex, Ey. apply Qle_refl. }
        congruence. }
      rewrite Ey. reflexivity.
Qed.

Lemma sort_by_stable t l :
  filter (same_key t) (sort_by key l) = filter (same_key t) l.
Proof.
  induction l as [| x l IH]; simpl.
  - reflexivity.
  - rewrite filter_insert_by, IH. reflexivity.
Qed.


End SortFacts.

(** ** Arrays and loops *)

Lemma replace_nth_length (A : Type) i (x : A) l :
  List.length (replace_nth i x l) = List.length l.
Proof.
  revert i; induction l as [| y l IH]; intros [| i]; simpl; auto.
Qed.

Lemma nth_error_replace_nth_eq (A : Type) i (x : A) l :
  (i < List.length l)%nat -> nth_error (replace_nth i x l) i = Some x.
Proof.
  revert i; induction l as [| y l IH]; intros [| i] H; simpl in *;
    try lia; auto.
  apply IH; lia.
Qed.

Lemma nth_error_replace_nth_neq (A : Type) i j (x : A) l :
  i <> j -> nth_error (replace_nth i x l) j = nth_error l j.
Proof.
  revert i j; induction l as [| y l IH]; intros [| i] [| j] H; simpl;
    try congruence; auto.
Qed.

Lemma replace_nth_app (A : Type) (done : list A) x y rest :
  replace_nth (List.length done) y (done ++ x :: rest) = done ++ y :: rest.
Proof. induction done as [| d done IH]; simpl; [| rewrite IH]; reflexivity. Qed.

Lemma nth_error_middle (A : Type) (done : list A) x rest :
  nth_error (done ++ x :: rest) (List.length done) = Some x.
Proof. induction done as [| d done IH]; simpl; auto. Qed.

Lemma for_from_seq (S : Type) n i (body : nat -> S -> Result S) s :
  for_from n i body s = for_each (seq i n) body s.
Proof.
  revert i s; induction n as [| n IH]; intros i s; simpl; [reflexivity |].
  destruct (body i s); simpl; [apply IH | reflexivity].
Qed.

Lemma for_each_app (A S : Type) (xs ys : list A) (body : A -> S -> Result S) s :
  for_each (xs ++ ys) body s = (s' <- for_each xs body s ;; for_each ys body s').
Proof.
  revert s; induction xs as [| x xs IH]; intros s; simpl; [reflexivity |].
  destruct (body x s); simpl; [apply IH | reflexivity].
Qed.

Lemma for_each_ext (A S : Type) (xs : list A) (f g : A -> S -> Result S) s :
  (forall x s', In x xs -> f x s' = g x s') ->
  for_each xs f s = for_each xs g s.
Proof.
  revert s; induction xs as [| x xs IH]; intros s H; simpl; [reflexivity |].
  rewrite (H x s (or_introl eq_refl)).
  destruct (g x s); simpl; [| reflexivity].
  apply IH. intros y s' Hy. apply H. right; exact Hy.
Qed.

(** A loop whose body runs an inner loop over a list is one loop over the
    concatenated lists. *)
Lemma for_each_flat_map (A B S : Type) (xs : list A) (inner : A -> list B)
  (body : B -> S -> Result S) s :
  for_each xs (fun x s' => for_each (inner x) body s') s
  = for_each (flat_map inner xs) body s.
Proof.
  revert s; induction xs as [| x xs IH]; intros s; simpl; [reflexivity |].
  rewrite for_each_app.
  destruct (for_each (inner x) body s); simpl; [apply IH | reflexivity].
Qed.

(** A loop whose body keeps an invariant and returns under it returns. *)
Lemma for_each_inv (A S : Type) (P : S -> Prop) (xs : list A)
  (body : A -> S -> Result S) s :
  P s ->
  (forall x s', In x xs -> P s' -> exists s'', body x s' = Ok s'' /\ P s'') ->
  exists s'', for_each xs body s = Ok s'' /\ P s''.
Proof.
  revert s. induction xs as [| x xs IH]; intros s Hs Hbody; simpl.
  - exists s. split; [reflexivity | exact Hs].
  - destruct (Hbody x s (or_introl eq_refl) Hs) as [s1 [-> Hs1]]. simpl.
    apply IH; [exact Hs1 |].
    intros y s' Hy. apply Hbody. right; exact Hy.
Qed.

(** ** Exceptions: which ones a computation can raise *)

(** [no_value_error r]: [r] is not the exception [writeInt16LE] raises for a
    value outside the 16-bit range. *)
Definition no_value_error (A : Type) (r : Result A) : Prop :=
  r <> Throw ERR_OUT_OF_RANGE_value.

Lemma nve_ok (A : Type) (a : A) : no_value_error (Ok a).
Proof. discriminate. Qed.

Lemma nve_bind (A B : Type) (m : Result A) (f : A -> Result B) :
  no_value_error m -> (forall a, no_value_error (f a)) ->
  no_value_error (bind m f).
Proof.
  intros Hm Hf. destruct m as [a | e]; simpl; [apply Hf |].
  intros H. apply Hm. inversion H. reflexivity.
Qed.

Lemma nve_for_each (A S : Type) (xs : list A) (body : A -> S -> Result S) s :
  (forall x s', no_value_error (body x s')) ->
  no_value_error (for_each xs body s).
Proof.
  intros Hb. revert s; induction xs as [| x xs IH]; intros s; simpl.
  - apply nve_ok.
  - apply nve_bind; [apply Hb | exact IH].
Qed.

Lemma nve_for_range (S : Type) n (body : nat -> S -> Result S) s :
  (forall i s', no_value_error (body i s')) ->
  no_value_error (for_range n body s).
Proof.
  intros Hb. unfold for_range. rewrite for_from_seq. apply nve_for_each, Hb.
Qed.

(** ** Buffers *)

Local Open Scope Z_scope.

Lemma byte_to_Z_range b : 0 <= byte_to_Z b < 256.
Proof.
  unfold byte_to_Z. pose proof (Byte.to_N_bounded b). lia.
Qed.

Lemma byte_to_of_Z z : byte_to_Z (byte_of_Z z) = z mod 256.
Proof.
  unfold byte_to_Z, byte_of_Z.
  pose proof (Z.mod_pos_bound z 256 eq_refl) as Hm.
  destruct (Byte.of_N (Z.to_N (z mod 256))) as [b |] eqn:E.
  - apply Byte.to_of_N in E. rewrite E. lia.
  - apply Byte.of_N_None_iff in E. lia.
Qed.

Lemma clamp16_range x : -32768 <= clamp16 x <= 32767.
Proof. unfold clamp16. lia. Qed.

Lemma clamp16_id x : -32768 <= x <= 32767 -> clamp16 x = x.
Proof. unfold clamp16. lia. Qed.

Lemma readInt16LE_range buf o v :
  readInt16LE buf o = Ok v -> -32768 <= v <= 32767.
Proof.
  unfold readInt16LE.
  destruct (byte_at buf o) as [first |]; [| discriminate].
  destruct (byte_at buf (o + 1)) as [last |]; [| discriminate].
  pose proof (byte_to_Z_range first) as Hf.
  pose proof (byte_to_Z_range last) as Hl.
  intros Hv; inversion Hv; subst; clear Hv.
  destruct (32768 <=? byte_to_Z first + byte_to_Z last * 256) eqn:E; lia.
Qed.

Lemma nve_readInt16LE buf o : no_value_error (readInt16LE buf o).
Proof.
  unfold readInt16LE, no_value_error.
  destruct (byte_at buf o); [| discriminate].
  destruct (byte_at buf (o + 1)); discriminate.
Qed.

Lemma nve_Buffer_alloc n : no_value_error (Buffer_alloc n).
Proof. unfold Buffer_alloc, no_value_error. destruct (n <? 0); discriminate. Qed.

(** A clamped value is always accepted by [writeInt16LE]. *)
Lemma nve_write_clamped buf x o : no_value_error (writeInt16LE buf (clamp16 x) o).
Proof.
  unfold writeInt16LE, no_value_error.
  pose proof (clamp16_range x) as H.
  replace ((32767 <? clamp16 x) || (clamp16 x <? -32768))%bool with false
    by (symmetry; apply orb_false_iff; split; lia).
  destruct (byte_at buf o); [| discriminate].
  destruct (byte_at buf (o + 1)); discriminate.
Qed.

Create HintDb nve.
#[export] Hint Resolve nve_ok nve_readInt16LE nve_Buffer_alloc nve_write_clamped
  : nve.

(** Goes through binds and loops, and closes the leaves with the facts
    above. *)
Ltac nve_steps :=
  repeat first
    [ solve [auto with nve]
    | apply nve_bind | apply nve_for_each | apply nve_for_range
    | match goal with
      | |- forall _, _ => intro
      | |- no_value_error (if ?b then _ else _) => destruct b
      end
    | progress cbv zeta ].

Lemma byte_at_Some buf o :
  0 <= o < Buffer_length buf -> exists b, byte_at buf o = Some b.
Proof.
  unfold byte_at, Buffer_length. intros H.
  replace (o <? 0) with false by lia.
  destruct (nth_error buf (Z.to_nat o)) eqn:E; [eauto |].
  apply nth_error_None in E. lia.
Qed.

Lemma byte_at_replace_eq buf o b :
  0 <= o < Buffer_length buf ->
  byte_at (replace_nth (Z.to_nat o) b buf) o = Some b.
Proof.
  unfold byte_at, Buffer_length. intros H.
  replace (o <? 0) with false by lia.
  apply nth_error_replace_nth_eq. lia.
Qed.

Lemma byte_at_replace_neq buf o o' b :
  0 <= o -> o <> o' ->
  byte_at (replace_nth (Z.to_nat o) b buf) o' = byte_at buf o'.
Proof.
  unfold byte_at. intros H Hne.
  destruct (o' <? 0) eqn:E; [reflexivity |].
  apply nth_error_replace_nth_neq. lia.
Qed.

Lemma Buffer_length_replace buf i b :
  Buffer_length (replace_nth i b buf) = Buffer_length buf.
Proof. unfold Buffer_length. rewrite replace_nth_length. reflexivity. Qed.

Lemma int16_bytes v :
  -32768 <= v <= 32767 ->
  let val := v mod 256 + ((v / 256) mod 256) * 256 in
  (if 32768 <=? val then val - 65536 else val) = v.
Proof.
  intros Hv val. subst val.
  pose proof (Z.div_mod v 256 ltac:(lia)) as Hdm.
  pose proof (Z.mod_pos_bound v 256 eq_refl) as Hlo.
  assert (Hq : -128 <= v / 256 <= 127).
  { split.
    - apply Z.div_le_lower_bound; lia.
    - apply Z.lt_succ_r. apply Z.div_lt_upper_bound; lia. }
  destruct (Z.le_gt_cases 0 (v / 256)) as [Hpos | Hneg].
  - rewrite (Z.mod_small (v / 256) 256) by lia.
    destruct (32768 <=? _) eqn:E; lia.
  - replace ((v / 256) mod 256) with (v / 256 + 256).
    + destruct (32768 <=? _) eqn:E; lia.
    + apply (Z.mod_unique _ _ (-1)); lia.
Qed.

(** Writing a 16-bit value succeeds within the buffer, stores the value,
    keeps the length, and leaves the samples at other slots alone. *)
Lemma writeInt16LE_ok buf v o :
  -32768 <= v <= 32767 -> 0 <= o -> o + 1 < Buffer_length buf ->
  exists buf',
    writeInt16LE buf v o = Ok buf' /\
    Buffer_length buf' = Buffer_length buf /\
    readInt16LE buf' o = Ok v /\
    (forall o', o' + 1 < o \/ o + 1 < o' -> readInt16LE buf' o' = readInt16LE buf o').
Proof.
  intros Hv Ho Hlen. unfold writeInt16LE.
  replace ((32767 <? v) || (v <? -32768))%bool with false
    by (symmetry; apply orb_false_iff; split; lia).
  destruct (@byte_at_Some buf o ltac:(lia)) as [b0 ->].
  destruct (@byte_at_Some buf (o + 1) ltac:(lia)) as [b1 ->].
  eexists. split; [reflexivity |].
  split; [rewrite !Buffer_length_replace; reflexivity |].
  split.
  - unfold readInt16LE.
    rewrite byte_at_replace_neq by lia.
    rewrite byte_at_replace_eq by lia.
    rewrite byte_at_replace_eq by (rewrite Buffer_length_replace; lia).
    rewrite !byte_to_of_Z. f_equal. apply int16_bytes, Hv.
  - intros o' Ho'. unfold readInt16LE.
    rewrite !(@byte_at_replace_neq _ (o + 1)) by lia.
    rewrite !(@byte_at_replace_neq _ o) by lia.
    reflexivity.
Qed.

Lemma readInt16LE_ok buf o :
  0 <= o -> o + 1 < Buffer_length buf -> exists v, readInt16LE buf o = Ok v.
Proof.
  intros Ho Hlen. unfold readInt16LE.
  destruct (@byte_at_Some buf o ltac:(lia)) as [b0 ->].
  destruct (@byte_at_Some buf (o + 1) ltac:(lia)) as [b1 ->].
  eexists; reflexivity.
Qed.

Lemma Buffer_alloc_ok n :
  0 <= n -> exists buf, Buffer_alloc n = Ok buf /\ Buffer_length buf = n.
Proof.
  intros Hn. unfold Buffer_alloc. replace (n <? 0) with false by lia.
  eexists; split; [reflexivity |].
  unfold Buffer_length. rewrite repeat_length. lia.
Qed.

Lemma append_assoc (a b c : string) :
  ((a ++ b) ++ c)%string = (a ++ b ++ c)%string.
Proof. induction a as [| x a IH]; simpl; [reflexivity | now rewrite IH]. Qed.

(** A string that occurs in [p] occurs in every string in which [p]
    occurs. *)
Lemma includes_trans (s p q : string) :
  includes s p = true -> includes p q = true -> includes s q = true.
Proof.
  intros Hp Hq. apply includes_iff in Hp. apply includes_iff in Hq.
  destruct Hp as [pre [post ->]]. destruct Hq as [pre' [post' ->]].
  apply includes_iff. exists (pre ++ pre')%string, (post' ++ post)%string.
  now rewrite !append_assoc.
Qed.

Lemma lower_char_idem (a : ascii) : lower_char (lower_char a) = lower_char a.
Proof.
  destruct a as [[] [] [] [] [] [] [] []]; reflexivity.
Qed.

Lemma toLowerCase_idem (s : string) :
  toLowerCase (toLowerCase s) = toLowerCase s.
Proof.
  induction s as [| a s IH]; simpl; [reflexivity |].
  now rewrite lower_char_idem, IH.
Qed.

(** A loop of checks succeeds exactly when every check does. *)
Lemma for_each_checks (A : Type) (xs : list A) (check : A -> Result unit) :
  for_each xs (fun x _ => check x) tt = Ok tt <->
  forall x, In x xs -> check x = Ok tt.
Proof.
  induction xs as [| x xs IH]; simpl.
  - split; [intros _ y [] | reflexivity].
  - destruct (check x) as [[] | e] eqn:E; simpl.
    + rewrite IH. split.
      * intros H y [<- | Hy]; [exact E | apply H, Hy].
      * intros H y Hy. apply H. right; exact Hy.
    + split; [discriminate |].
      intros H. rewrite (H x (or_introl eq_refl)) in E. discriminate.
Qed.

Lemma existsb_eqb_In (s : string) (l : list string) :
  existsb (String.eqb s) l = true <-> In s l.
Proof.
  rewrite existsb_exists. split.
  - intros [y [Hy E]]. apply String.eqb_eq in E. subst. exact Hy.
  - intros H. exists s. split; [exact H | apply String.eqb_refl].
Qed.

Lemma split_loop_nonempty r s fuel p q : split_loop r s fuel p q <> [].
Proof.
  revert p q. induction fuel as [| fuel IH]; intros p q; simpl;
    [discriminate |].
  destruct (q <? String.length s)%nat; [| discriminate].
  destruct (match_at r s q) as [m |]; [| apply IH].
  destruct (m_end m =? p)%nat; [apply IH | discriminate].
Qed.

Lemma split_spaces_nonempty text : (1 <= List.length (split text re_spaces))%nat.
Proof.
  destruct text as [| a text].
  - simpl. lia.
  - unfold split.
    pose proof (@split_loop_nonempty re_spaces (String a text)
                  (2 * String.length (String a text) + 2) 0 0) as H.
    destruct (split_loop _ _ _ _ _); [congruence | simpl; lia].
Qed.

(** ** Rounding *)

Lemma Qfloor_unique (x : Q) (z : Z) :
  (inject_Z z <= x)%Q -> (x < inject_Z (z + 1))%Q -> Qfloor x = z.
Proof.
  intros Hlo Hhi.
  pose proof (Qfloor_resp_le _ _ Hlo) as H1. rewrite Qfloor_Z in H1.
  pose proof (Qfloor_le x) as H2.
  assert (H3 : (inject_Z (Qfloor x) < inject_Z (z + 1))%Q)
    by (eapply Qle_lt_trans; eassumption).
  rewrite <- Zlt_Qlt in H3. lia.
Qed.

Lemma Math_round_Z (z : Z) : Math_round (inject_Z z) = z.
Proof.
  unfold Math_round. apply Qfloor_unique.
  - lra.
  - rewrite inject_Z_plus. change (inject_Z 1) with 1%Q. lra.
Qed.

(** Rounding keeps a number between the integers that enclose it. *)
Lemma Math_round_between (x : Q) (a b : Z) :
  (inject_Z a <= x)%Q -> (x <= inject_Z b)%Q -> (a <= Math_round x <= b)%Z.
Proof.
  intros Ha Hb. rewrite <- (Math_round_Z a), <- (Math_round_Z b) at 1.
  unfold Math_round. split; apply Qfloor_resp_le; lra.
Qed.

End JSFacts.

(* ===================================================================== *)
(** * The voice interface types *)
(* ===================================================================== *)

Module VoiceInterface.

Inductive Gender : Type := male | female | gender_neutral.
Inductive Age : Type := child | young | adult | senior.
Inductive Timbre : Type := deep | medium | high.
Inductive Pace : Type := slow | normal | fast.
Inductive EmotionType : Type :=
| happy | sad | angry | excited | calm | fearful | surprised | neutral.

Record EmotionVariation : Type := {
  variation_type : string;
  variation_weight : Q
}.

Record EmotionProfile : Type := {
  type : EmotionType;
  intensity : Q;
  variations : list EmotionVariation
}.

Record VoiceCharacteristics : Type := {
  gender : Gender;
  age : Age;
  accent : string;
  personality : list string;
  defaultEmotion : EmotionProfile;
  timbre : Timbre;
  pace : Pace
}.

End VoiceInterface.

(* ===================================================================== *)
(** * [parseVoicePrompt] *)
(* ===================================================================== *)

Module PromptParser.
Import JS VoiceInterface.
Local Open Scope string_scope.

(** [keywords.some(keyword => lowerPrompt.includes(keyword))]. *)
Definition some_included (lowerPrompt : string) (keywords : list string) : bool :=
  existsb (includes lowerPrompt) keywords.

Definition accents : list (string * list string) :=
  [ ("australian", ["australian"; "aussie"]);
    ("british", ["british"; "uk"; "english"; "london"]);
    ("american", ["american"; "us"; "usa"]);
    ("irish", ["irish"; "ireland"]);
    ("scottish", ["scottish"; "scotland"]);
    ("southern", ["southern"; "texan"; "georgia"]);
    ("new york", ["new york"; "brooklyn"; "bronx"]);
    ("california", ["california"; "valley"; "surfer"]) ].

Definition personalityMap : list (string * list string) :=
  [ ("cheerful", ["cheerful"; "happy"; "joyful"; "upbeat"]);
    ("calm", ["calm"; "peaceful"; "serene"; "relaxed"; "soothing"]);
    ("energetic", ["energetic"; "excited"; "dynamic"; "lively"]);
    ("wise", ["wise"; "contemplative"; "thoughtful"; "sage"]);
    ("friendly", ["friendly"; "warm"; "welcoming"; "kind"]);
    ("professional", ["professional"; "business"; "corporate"; "formal"]);
    ("dramatic", ["dramatic"; "theatrical"; "expressive"]);
    ("mysterious", ["mysterious"; "enigmatic"; "secretive"]);
    ("confident", ["confident"; "assertive"; "strong"]);
    ("gentle", ["gentle"; "soft"; "tender"; "caring"]) ].

(** The four gender statements, each overwriting the result of the ones
    before it. *)
Definition extract_gender (lowerPrompt : string) : Gender :=
  let gender := gender_neutral in
  let gender :=
    if includes lowerPrompt "male" && negb (includes lowerPrompt "female")
    then male else gender in
  let gender := if includes lowerPrompt "female" then female else gender in
  let gender := if includes lowerPrompt "woman" then female else gender in
  let gender :=
    if includes lowerPrompt "man" && negb (includes lowerPrompt "woman")
    then male else gender in
  gender.

Definition extract_age (lowerPrompt : string) : Age :=
  let age := adult in
  let age :=
    if includes lowerPrompt "child" || includes lowerPrompt "kid"
    then child else age in
  let age :=
    if includes lowerPrompt "young" || includes lowerPrompt "teen"
    then young else age in
  let age :=
    if includes lowerPrompt "old" || includes lowerPrompt "senior"
       || includes lowerPrompt "elderly"
    then senior else age in
  age.

(** The loop over [Object.entries(accents)] with its [break]. *)
Fixpoint extract_accent (lowerPrompt : string)
  (table : list (string * list string)) : string :=
  match table with
  | [] => "neutral"
  | (accentName, keywords) :: table' =>
      if some_included lowerPrompt keywords then accentName
      else extract_accent lowerPrompt table'
  end.

Fixpoint extract_personality (lowerPrompt : string)
  (table : list (string * list string)) : list string :=
  match table with
  | [] => []
  | (trait, keywords) :: table' =>
      if some_included lowerPrompt keywords
      then trait :: extract_personality lowerPrompt table'
      else extract_personality lowerPrompt table'
  end.

Definition extract_timbre (lowerPrompt : string) : Timbre :=
  if includes lowerPrompt "deep" || includes lowerPrompt "low"
     || includes lowerPrompt "bass"
  then deep
  else if includes lowerPrompt "high" || includes lowerPrompt "light"
          || includes lowerPrompt "soprano"
  then high
  else medium.

Definition extract_pace (lowerPrompt : string) : Pace :=
  if includes lowerPrompt "slow" || includes lowerPrompt "relaxed"
     || includes lowerPrompt "leisurely"
  then slow
  else if includes lowerPrompt "fast" || includes lowerPrompt "quick"
          || includes lowerPrompt "rapid"
  then fast
  else normal.

Definition has_trait (personality : list string) (t : string) : bool :=
  existsb (String.eqb t) personality.

Definition default_emotion_type (personality : list string) : EmotionType :=
  if has_trait personality "cheerful" then happy
  else if has_trait personality "calm" then calm
  else if has_trait personality "energetic" then excited
  else if has_trait personality "dramatic" then excited
  else neutral.

Definition parseVoicePrompt (prompt : string) : VoiceCharacteristics :=
  let lowerPrompt := toLowerCase prompt in
  let personality := extract_personality lowerPrompt personalityMap in
  {| gender := extract_gender lowerPrompt;
     age := extract_age lowerPrompt;
     accent := extract_accent lowerPrompt accents;
     personality := personality;
     defaultEmotion :=
       {| type := default_emotion_type personality;
          intensity := 5 # 10;
          variations := [] |};
     timbre := extract_timbre lowerPrompt;
     pace := extract_pace lowerPrompt |}.

(** The prompts of the parser's test-suite. *)
Example parse_deep_male : gender (parseVoicePrompt "Deep male voice") = male.
Proof. reflexivity. Qed.

Example parse_young_female :
  gender (parseVoicePrompt "Young female voice") = female.
Proof. reflexivity. Qed.

Example parse_scenario :
  let v := parseVoicePrompt
             "Young British female voice, cheerful and energetic, high pitch" in
  gender v = female /\ age v = young /\ accent v = "british" /\
  timbre v = high /\ pace v = normal /\
  personality v = ["cheerful"; "energetic"] /\
  type (defaultEmotion v) = happy.
Proof. repeat split. Qed.

(** C10.  Whenever the lower-cased prompt contains "female" and also
    contains "man" but not "woman", the parser answers [male]: the "man"
    statement runs after the "female" statement and overwrites its
    result. *)
Theorem female_overridden_by_man (prompt : string) :
  includes (toLowerCase prompt) "female" = true ->
  includes (toLowerCase prompt) "man" = true ->
  includes (toLowerCase prompt) "woman" = false ->
  gender (parseVoicePrompt prompt) = male.
Proof.
  intros Hfemale Hman Hwoman.
  unfold parseVoicePrompt, extract_gender; simpl gender.
  rewrite Hfemale, Hman, Hwoman; simpl.
  destruct (includes (toLowerCase prompt) "male"); reflexivity.
Qed.

(** The prompt "female human voice" is such an input. *)
Lemma female_human_voice_is_male :
  includes (toLowerCase "female human voice") "female" = true /\
  gender (parseVoicePrompt "female human voice") = male.
Proof.
  split; [reflexivity |].
  apply (female_overridden_by_man "female human voice"); reflexivity.
Defined.

(** ** Further facts about the parser *)

(** X1.  The four gender statements amount to a priority list on the
    lower-cased prompt: "woman" gives female; otherwise "man" gives male;
    otherwise "female" gives female; otherwise "male" gives male;
    otherwise the gender is neutral. *)
Theorem gender_priority (prompt : string) :
  let p := toLowerCase prompt in
  gender (parseVoicePrompt prompt) =
    if includes p "woman" then female
    else if includes p "man" then male
    else if includes p "female" then female
    else if includes p "male" then male
    else gender_neutral.
Proof.
  unfold parseVoicePrompt, extract_gender; cbn [gender]; cbv zeta.
  destruct (includes (toLowerCase prompt) "woman"),
           (includes (toLowerCase prompt) "man"),
           (includes (toLowerCase prompt) "female"),
           (includes (toLowerCase prompt) "male"); reflexivity.
Qed.

(** X2.  A prompt that asks for a slow voice also gets a deep one: the
    word "slow" contains the timbre keyword "low", and the deep timbre is
    tested before the high one. *)
Theorem slow_voice_is_deep (prompt : string) :
  includes (toLowerCase prompt) "slow" = true ->
  pace (parseVoicePrompt prompt) = slow /\
  timbre (parseVoicePrompt prompt) = deep.
Proof.
  intros Hslow.
  assert (Hlow : includes (toLowerCase prompt) "low" = true)
    by (apply (@JSFacts.includes_trans _ "slow" "low" Hslow); reflexivity).
  unfold parseVoicePrompt, extract_pace, extract_timbre; cbn [pace timbre].
  rewrite Hslow, Hlow, orb_true_r. split; reflexivity.
Qed.

Lemma slow_high_voice_is_deep :
  includes (toLowerCase "Slow, high-pitched voice") "slow" = true /\
  pace (parseVoicePrompt "Slow, high-pitched voice") = slow /\
  timbre (parseVoicePrompt "Slow, high-pitched voice") = deep.
Proof.
  split; [reflexivity |].
  apply (slow_voice_is_deep "Slow, high-pitched voice"); reflexivity.
Defined.

Lemma some_included_In (s k : string) (kws : list string) :
  In k kws -> includes s k = true -> some_included s kws = true.
Proof.
  unfold some_included. intros Hin Hk.
  apply existsb_exists. exists k. split; assumption.
Qed.

(** X3.  The keyword "us" of the American accent is matched inside
    longer words ("business", "enthusiastic", "serious"): every prompt
    in which the letters "us" occur gets the accent of one of the first
    three groups, Australian, British or American, and never stays
    neutral. *)
Theorem us_inside_a_word_sets_accent (prompt : string) :
  includes (toLowerCase prompt) "us" = true ->
  In (accent (parseVoicePrompt prompt)) ["australian"; "british"; "american"].
Proof.
  intros Hus. unfold parseVoicePrompt; cbn [accent].
  unfold accents; cbn [extract_accent].
  destruct (some_included _ ["australian"; "aussie"]); [simpl; auto |].
  destruct (some_included _ ["british"; "uk"; "english"; "london"]);
    [simpl; auto |].
  rewrite (@some_included_In _ "us" ["american"; "us"; "usa"]);
    [simpl; auto | simpl; auto | exact Hus].
Qed.

Lemma business_voice_is_american :
  includes (toLowerCase "Professional business voice") "us" = true /\
  In (accent (parseVoicePrompt "Professional business voice"))
     ["australian"; "british"; "american"].
Proof.
  split; [reflexivity |].
  apply (@us_inside_a_word_sets_accent "Professional business voice").
  reflexivity.
Defined.

Lemma has_trait_extract (lowerPrompt t : string)
  (table : list (string * list string)) :
  has_trait (extract_personality lowerPrompt table) t =
  existsb (fun e => String.eqb t (fst e) && some_included lowerPrompt (snd e))
          table.
Proof.
  unfold has_trait.
  induction table as [| [name kws] table IH]; simpl; [reflexivity |].
  destruct (some_included lowerPrompt kws); simpl.
  - now rewrite IH, andb_true_r.
  - now rewrite IH, andb_false_r.
Qed.

(** X4.  The default emotion is decided by keywords of the prompt, in
    this order: a cheerful keyword gives happy; otherwise a calm keyword
    gives calm; otherwise an energetic or a dramatic keyword gives
    excited; otherwise the emotion is neutral.  Its intensity is always
    one half, and no prompt gives sad, angry, fearful or surprised. *)
Theorem default_emotion_by_keyword (prompt : string) :
  let kw := some_included (toLowerCase prompt) in
  let e := defaultEmotion (parseVoicePrompt prompt) in
  type e =
    (if kw ["cheerful"; "happy"; "joyful"; "upbeat"] then happy
     else if kw ["calm"; "peaceful"; "serene"; "relaxed"; "soothing"]
     then calm
     else if kw ["energetic"; "excited"; "dynamic"; "lively"]
             || kw ["dramatic"; "theatrical"; "expressive"]
     then excited
     else neutral) /\
  (intensity e == 1 # 2)%Q /\
  ~ In (type e) [sad; angry; fearful; surprised].
Proof.
  cbv zeta. unfold parseVoicePrompt; cbn [defaultEmotion type intensity].
  unfold default_emotion_type. rewrite !has_trait_extract.
  unfold personalityMap; cbn [existsb fst snd String.eqb Ascii.eqb Bool.eqb
                              andb orb].
  rewrite !orb_false_r.
  set (lp := toLowerCase prompt).
  destruct (some_included lp ["cheerful"; "happy"; "joyful"; "upbeat"]),
    (some_included lp ["calm"; "peaceful"; "serene"; "relaxed"; "soothing"]),
    (some_included lp ["energetic"; "excited"; "dynamic"; "lively"]),
    (some_included lp ["dramatic"; "theatrical"; "expressive"]);
    (split; [reflexivity | split; [reflexivity |]]);
    simpl; intuition discriminate.
Qed.

(** Letter case plays no part: a prompt and its lower-cased form are
    parsed to the same characteristics. *)
Lemma parse_ignores_case (prompt : string) :
  parseVoicePrompt (toLowerCase prompt) = parseVoicePrompt prompt.
Proof.
  unfold parseVoicePrompt. now rewrite JSFacts.toLowerCase_idem.
Qed.

End PromptParser.

(* ===================================================================== *)
(** * [EmotionCurves] *)
(* ===================================================================== *)

Module EmotionCurves.
Import JS.
Local Open Scope Q_scope.

Inductive TransitionCurve : Type :=
| curve_linear | curve_ease_in | curve_ease_out | curve_ease_in_out | curve_bezier.

(** The two control points [[cp1, cp2] = controlPoints] that [bezier]
    destructures, each an [(x, y)] pair. *)
Definition ControlPoints : Type := ((Q * Q) * (Q * Q))%type.

Definition default_controlPoints : ControlPoints :=
  ((25 # 100, 1 # 10), (75 # 100, 9 # 10)).

Definition linear (progress : Q) : Q := Qmax 0 (Qmin 1 progress).

Definition easeIn (progress : Q) : Q := progress * progress.

Definition easeOut (progress : Q) : Q :=
  1 - (1 - progress) * (1 - progress).

Definition easeInOut (progress : Q) : Q :=
  if Qltb progress (1 # 2) then 2 * progress * progress
  else 1 - ((-2 * progress + 2) * (-2 * progress + 2)) / 2.

Definition bezier (progress : Q) (controlPoints : option ControlPoints) : Q :=
  let '(cp1, cp2) :=
    match controlPoints with Some cps => cps | None => default_controlPoints end in
  let t := progress in
  let t2 := t * t in
  let t3 := t2 * t in
  let mt := 1 - t in
  let mt2 := mt * mt in
  let mt3 := mt2 * mt in
  mt3 * 0 + 3 * mt2 * t * snd cp1 + 3 * mt * t2 * snd cp2 + t3 * 1.

(** [getCurveFunction(curve, controlPoints).calculate]. *)
Definition getCurveFunction (curve : TransitionCurve)
  (controlPoints : option ControlPoints) : Q -> Q :=
  match curve with
  | curve_linear => linear
  | curve_ease_in => easeIn
  | curve_ease_out => easeOut
  | curve_ease_in_out => easeInOut
  | curve_bezier => fun progress => bezier progress controlPoints
  end.

Definition interpolateEmotionIntensity (fromIntensity toIntensity progress : Q)
  (curve : TransitionCurve) (controlPoints : option ControlPoints) : Q :=
  let easedProgress := getCurveFunction curve controlPoints progress in
  fromIntensity + (toIntensity - fromIntensity) * easedProgress.

(** [bounce]: in its last three branches the operand [(progress -= c)]
    assigns before the second factor [progress] is read, so both factors
    are the shifted progress. *)
Definition bounce (progress : Q) : Q :=
  if Qltb progress (1 / (275 # 100)) then
    (75625 # 10000) * progress * progress
  else if Qltb progress (2 / (275 # 100)) then
    let progress := progress - (15 # 10) / (275 # 100) in
    (75625 # 10000) * progress * progress + (75 # 100)
  else if Qltb progress ((25 # 10) / (275 # 100)) then
    let progress := progress - (225 # 100) / (275 # 100) in
    (75625 # 10000) * progress * progress + (9375 # 10000)
  else
    let progress := progress - (2625 # 1000) / (275 # 100) in
    (75625 # 10000) * progress * progress + (984375 # 1000000).

(** The [switch] of [naturalEmotionCurve] on the emotion's name. *)
Definition naturalEmotionCurve (progress : Q) (emotionType : string) : Q :=
  if (emotionType =? "happy")%string || (emotionType =? "excited")%string then
    if Qltb progress (3 # 10) then easeIn (progress / (3 # 10)) else 1
  else if (emotionType =? "sad")%string || (emotionType =? "calm")%string then
    easeInOut progress
  else if (emotionType =? "angry")%string || (emotionType =? "fearful")%string
  then
    if Qltb progress (2 # 10) then easeIn (progress / (2 # 10)) * (8 # 10)
    else (8 # 10) + (progress - (2 # 10)) * (25 # 100)
  else if (emotionType =? "surprised")%string then
    if Qltb progress (1 # 10) then 1 else 1 - (progress - (1 # 10)) * (3 # 10)
  else easeInOut progress.

(** The [{ time, intensity }] objects of [smoothMultiTransition]. *)
Record TimedIntensity : Type := {
  ti_time : Q;
  ti_intensity : Q
}.

(** The search loop of [smoothMultiTransition], started at index [i]: the
    first index whose keyframe and the next one enclose [currentTime]. *)
Fixpoint find_enclosing (emotions : list TimedIntensity) (currentTime : Q)
  (i : nat) : option nat :=
  match emotions with
  | a :: (b :: _) as rest =>
      if Qle_bool (ti_time a) currentTime && Qle_bool currentTime (ti_time b)
      then Some i
      else find_enclosing rest currentTime (S i)
  | _ => None
  end.

Definition smoothMultiTransition (emotions : list TimedIntensity)
  (currentTime totalDuration : Q) : Q :=
  match emotions with
  | [] => 0
  | [only] => ti_intensity only
  | _ =>
      let beforeIdx :=
        match find_enclosing emotions currentTime 0 with
        | Some i => i | None => 0%nat end in
      let afterIdx :=
        match find_enclosing emotions currentTime 0 with
        | Some i => S i | None => 1%nat end in
      match nth_error emotions beforeIdx, nth_error emotions afterIdx with
      | Some before, Some after =>
          let segmentDuration := ti_time after - ti_time before in
          let progress :=
            if Qltb 0 segmentDuration
            then (currentTime - ti_time before) / segmentDuration else 0 in
          interpolateEmotionIntensity (ti_intensity before)
            (ti_intensity after) progress curve_ease_in_out None
      | _, _ => ti_intensity (last emotions {| ti_time := 0; ti_intensity := 0 |})
      end
  end.


(** The control points [(0,0)] and [(1,1)]. *)
Definition unit_points : ControlPoints := ((0, 0), (1, 1)).

Section CurveFacts.
Import JSFacts.

Lemma linear_id (t : Q) : 0 <= t <= 1 -> linear t == t.
Proof.
  intros [H0 H1]. unfold linear.
  rewrite (Q.min_r 1 t H1). apply Q.max_r, H0.
Qed.

Lemma bezier_unit_points (t : Q) :
  bezier t (Some unit_points) == 3 * t * t - 2 * t * t * t.
Proof. unfold bezier, unit_points; simpl. ring. Qed.

Lemma cubic_gap_upper (t : Q) :
  0 <= t <= 1 -> t * (1 - t) * (2 * t - 1) <= 1 # 10.
Proof.
  intros [H0 H1].
  destruct (Qlt_le_dec t (7 # 10)) as [Hlt | Hge].
  - destruct (Qlt_le_dec (2 * t - 1) 0).
    + assert (0 <= t * (1 - t)) by nra. nra.
    + pose proof (square_nonneg (t - (1 # 2))).
      assert (0 <= ((1 # 4) - t * (1 - t)) * (2 * t - 1))
        by (apply Qmult_le_0_compat; lra).
      lra.
  - pose proof (square_nonneg (t - (4 # 5))).
    assert (0 <= (t - (4 # 5)) * (t - (4 # 5)) * (2 * t + (1 # 5)))
      by (apply Qmult_le_0_compat; lra).
    lra.
Qed.

Lemma cubic_gap_lower (t : Q) :
  0 <= t <= 1 -> - (1 # 10) <= t * (1 - t) * (2 * t - 1).
Proof.
  intros [H0 H1].
  assert (H : 0 <= 1 - t <= 1) by lra.
  apply cubic_gap_upper in H. lra.
Qed.

Lemma cubic_gap_zero (t : Q) :
  t * (1 - t) * (2 * t - 1) == 0 <-> t == 0 \/ t == 1 # 2 \/ t == 1.
Proof.
  split.
  - intros H. apply Qmult_integral in H. destruct H as [H | H].
    + apply Qmult_integral in H. destruct H as [H | H].
      * left; exact H.
      * right; right; lra.
    + right; left; lra.
  - intros [H | [H | H]]; rewrite H; reflexivity.
Qed.

(** C8, as the code has it.  With control points [(0,0)] and [(1,1)] the
    bezier easing is the cubic [3t^2 - 2t^3] and not the identity: on [0,1]
    it differs from the linear easing by [t (1-t) (2t-1)], which is zero
    at [0], [1/2] and [1] only and never exceeds [1/10] in absolute value. *)
Theorem bezier_unit_points_vs_linear (t : Q) :
  0 <= t <= 1 ->
  bezier t (Some unit_points) == 3 * t * t - 2 * t * t * t /\
  bezier t (Some unit_points) - linear t == t * (1 - t) * (2 * t - 1) /\
  Qabs (bezier t (Some unit_points) - linear t) <= 1 # 10 /\
  (bezier t (Some unit_points) == linear t <-> t == 0 \/ t == 1 # 2 \/ t == 1).
Proof.
  intros Ht.
  assert (Hgap : bezier t (Some unit_points) - linear t
                 == t * (1 - t) * (2 * t - 1)).
  { rewrite bezier_unit_points, (linear_id Ht). ring. }
  split; [apply bezier_unit_points |].
  split; [exact Hgap |].
  split.
  - rewrite Hgap. apply Qabs_Qle_condition.
    split; [apply cubic_gap_lower | apply cubic_gap_upper]; exact Ht.
  - rewrite <- cubic_gap_zero, <- Hgap. split; intros H; lra.
Qed.

Lemma bezier_unit_points_vs_linear_half :
  0 <= 1 # 2 <= 1 /\
  bezier (1 # 2) (Some unit_points) == linear (1 # 2).
Proof.
  assert (Ht : 0 <= 1 # 2 <= 1) by (split; discriminate).
  split; [exact Ht |].
  apply (bezier_unit_points_vs_linear Ht). right; left; reflexivity.
Defined.

(** At a quarter of the way the bezier easing with control points [(0,0)]
    and [(1,1)] has only reached [5/32], where the linear easing is at
    [1/4]: the two are [3/32] apart. *)
Lemma bezier_unit_points_quarter :
  bezier (1 # 4) (Some unit_points) == 5 # 32 /\
  linear (1 # 4) == 1 # 4 /\
  Qabs (bezier (1 # 4) (Some unit_points) - linear (1 # 4)) == 3 # 32.
Proof. repeat split. Qed.

(** ** The easing curves on the unit interval *)

Lemma easeIn_range (t : Q) : 0 <= t <= 1 -> 0 <= easeIn t <= 1.
Proof.
  intros [H0 H1]. unfold easeIn.
  pose proof (Qmult_le_0_compat _ _ H0 H0).
  assert (0 <= t * (1 - t)) by (apply Qmult_le_0_compat; lra).
  split; lra.
Qed.


Lemma easeInOut_low (t : Q) : t < 1 # 2 -> easeInOut t == 2 * t * t.
Proof.
  intros H. unfold easeInOut.
  rewrite (proj2 (Qltb_iff t (1 # 2)) H). reflexivity.
Qed.

Lemma easeInOut_high (t : Q) :
  1 # 2 <= t -> easeInOut t == 1 - 2 * (1 - t) * (1 - t).
Proof.
  intros H. unfold easeInOut.
  rewrite (proj2 (Qltb_false_iff t (1 # 2)) H). field.
Qed.

Lemma easeInOut_range (t : Q) : 0 <= t <= 1 -> 0 <= easeInOut t <= 1.
Proof.
  intros [H0 H1]. destruct (Qlt_le_dec t (1 # 2)) as [Hlt | Hge].
  - rewrite (easeInOut_low Hlt).
    pose proof (Qmult_le_0_compat _ _ H0 H0).
    assert (0 <= t * ((1 # 2) - t)) by (apply Qmult_le_0_compat; lra).
    split; lra.
  - rewrite (easeInOut_high Hge).
    pose proof (@square_nonneg (1 - t)).
    assert (0 <= (1 - t) * (t - (1 # 2))) by (apply Qmult_le_0_compat; lra).
    split; lra.
Qed.

















(** ** [bounce] and [naturalEmotionCurve] *)

(** X8.  On the unit interval [bounce] stays in the unit interval; it
    starts at 0 and ends at 1. *)
Theorem bounce_in_unit_interval (t : Q) :
  0 <= t <= 1 ->
  0 <= bounce t <= 1 /\ bounce 0 == 0 /\ bounce 1 == 1.
Proof.
  intros [H0 H1]. split; [| split; reflexivity].
  unfold bounce.
  destruct (Qltb t (1 / (275 # 100))) eqn:E1.
  { apply Qltb_iff in E1.
    assert (Ht : t < 4 # 11) by (eapply Qlt_le_trans; [exact E1 | discriminate]).
    pose proof (Qmult_le_0_compat _ _ H0 H0).
    assert (0 <= ((4 # 11) - t) * ((4 # 11) + t))
      by (apply Qmult_le_0_compat; lra).
    split; lra. }
  apply Qltb_false_iff in E1.
  assert (Ht1 : 4 # 11 <= t) by (eapply Qle_trans; [| exact E1]; discriminate).
  destruct (Qltb t (2 / (275 # 100))) eqn:E2.
  { apply Qltb_iff in E2.
    assert (Ht : t < 8 # 11) by (eapply Qlt_le_trans; [exact E2 | discriminate]).
    cbv zeta.
    assert (Ec : (15 # 10) / (275 # 100) == 6 # 11) by reflexivity.
    rewrite Ec. set (p := t - (6 # 11)).
    pose proof (@square_nonneg p).
    assert (0 <= ((2 # 11) - p) * ((2 # 11) + p))
      by (apply Qmult_le_0_compat; unfold p; lra).
    split; lra. }
  apply Qltb_false_iff in E2.
  assert (Ht2 : 8 # 11 <= t) by (eapply Qle_trans; [| exact E2]; discriminate).
  destruct (Qltb t ((25 # 10) / (275 # 100))) eqn:E3.
  { apply Qltb_iff in E3.
    assert (Ht : t < 10 # 11)
      by (eapply Qlt_le_trans; [exact E3 | discriminate]).
    cbv zeta.
    assert (Ec : (225 # 100) / (275 # 100) == 9 # 11) by reflexivity.
    rewrite Ec. set (p := t - (9 # 11)).
    pose proof (@square_nonneg p).
    assert (0 <= ((1 # 11) - p) * ((1 # 11) + p))
      by (apply Qmult_le_0_compat; unfold p; lra).
    split; lra. }
  apply Qltb_false_iff in E3.
  assert (Ht3 : 10 # 11 <= t)
    by (eapply Qle_trans; [| exact E3]; discriminate).
  cbv zeta.
  assert (Ec : (2625 # 1000) / (275 # 100) == 21 # 22) by reflexivity.
  rewrite Ec. set (p := t - (21 # 22)).
  pose proof (@square_nonneg p).
  assert (0 <= ((1 # 22) - p) * ((1 # 22) + p))
    by (apply Qmult_le_0_compat; unfold p; lra).
  split; lra.
Qed.

Lemma bounce_in_unit_interval_at_peak :
  0 <= 4 # 11 <= 1 /\ 0 <= bounce (4 # 11) <= 1.
Proof.
  assert (Ht : 0 <= 4 # 11 <= 1) by (split; discriminate).
  split; [exact Ht |]. apply (bounce_in_unit_interval Ht).
Defined.

(** X9.  On the unit interval the natural curve of every emotion name
    stays in the unit interval.  It starts at 0 and ends at 1, except
    for "surprised", which starts at 1 and has settled to 0.73 at the
    end. *)
Theorem natural_curve_in_unit_interval (t : Q) (emotionType : string) :
  0 <= t <= 1 ->
  0 <= naturalEmotionCurve t emotionType <= 1 /\
  naturalEmotionCurve 0 emotionType
    == (if (emotionType =? "surprised")%string then 1 else 0) /\
  naturalEmotionCurve 1 emotionType
    == (if (emotionType =? "surprised")%string then 73 # 100 else 1).
Proof.
  intros [H0 H1].
  assert (Hends :
    naturalEmotionCurve 0 emotionType
      == (if (emotionType =? "surprised")%string then 1 else 0) /\
    naturalEmotionCurve 1 emotionType
      == (if (emotionType =? "surprised")%string then 73 # 100 else 1)).
  { unfold naturalEmotionCurve.
    destruct (emotionType =? "happy")%string eqn:Eh;
      [apply String.eqb_eq in Eh; subst; split; reflexivity |].
    destruct (emotionType =? "excited")%string eqn:Ee;
      [apply String.eqb_eq in Ee; subst; split; reflexivity |].
    destruct (emotionType =? "sad")%string eqn:Es;
      [apply String.eqb_eq in Es; subst; split; reflexivity |].
    destruct (emotionType =? "calm")%string eqn:Ec;
      [apply String.eqb_eq in Ec; subst; split; reflexivity |].
    destruct (emotionType =? "angry")%string eqn:Ea;
      [apply String.eqb_eq in Ea; subst; split; reflexivity |].
    destruct (emotionType =? "fearful")%string eqn:Ef;
      [apply String.eqb_eq in Ef; subst; split; reflexivity |].
    destruct (emotionType =? "surprised")%string; split; reflexivity. }
  split; [| exact Hends].
  unfold naturalEmotionCurve.
  destruct ((emotionType =? "happy")%string || (emotionType =? "excited")%string).
  { destruct (Qltb t (3 # 10)) eqn:E; [| split; discriminate].
    apply Qltb_iff in E. apply easeIn_range.
    assert (Ed : t / (3 # 10) == t * (10 # 3)) by reflexivity.
    rewrite Ed. split; lra. }
  destruct ((emotionType =? "sad")%string || (emotionType =? "calm")%string);
    [apply easeInOut_range; split; assumption |].
  destruct ((emotionType =? "angry")%string
            || (emotionType =? "fearful")%string).
  { destruct (Qltb t (2 # 10)) eqn:E.
    - apply Qltb_iff in E.
      assert (Hr : 0 <= easeIn (t / (2 # 10)) <= 1).
      { apply easeIn_range.
        assert (Ed : t / (2 # 10) == t * (10 # 2)) by reflexivity.
        rewrite Ed. split; lra. }
      split; lra.
    - apply Qltb_false_iff in E. split; lra. }
  destruct (emotionType =? "surprised")%string;
    [| apply easeInOut_range; split; assumption].
  destruct (Qltb t (1 # 10)) eqn:E; [split; discriminate |].
  apply Qltb_false_iff in E. split; lra.
Qed.

Lemma natural_curve_in_unit_interval_angry :
  0 <= 1 # 10 <= 1 /\ 0 <= naturalEmotionCurve (1 # 10) "angry" <= 1.
Proof.
  assert (Ht : 0 <= 1 # 10 <= 1) by (split; discriminate).
  split; [exact Ht |]. apply (@natural_curve_in_unit_interval _ "angry" Ht).
Defined.

(** ** [smoothMultiTransition] *)







Definition rise_and_fall : list TimedIntensity :=
  [ {| ti_time := 0; ti_intensity := 0 |};
    {| ti_time := 1; ti_intensity := 1 |};
    {| ti_time := 2; ti_intensity := 1 # 2 |} ].


Lemma find_enclosing_outside (l : list TimedIntensity) (t : Q) (i : nat) :
  (forall e, In e l -> ti_time e < t) \/ (forall e, In e l -> t < ti_time e) ->
  find_enclosing l t i = None.
Proof.
  revert i. induction l as [| a l IH]; intros i H; [reflexivity |].
  destruct l as [| b l]; [reflexivity |].
  cbn [find_enclosing].
  assert (E : Qle_bool (ti_time a) t && Qle_bool t (ti_time b) = false).
  { apply andb_false_iff. destruct H as [H | H].
    - right. destruct (Qle_bool t (ti_time b)) eqn:Eb; [| reflexivity].
      apply Qle_bool_iff in Eb.
      pose proof (H b (or_intror (or_introl eq_refl))). lra.
    - left. destruct (Qle_bool (ti_time a) t) eqn:Ea; [| reflexivity].
      apply Qle_bool_iff in Ea. pose proof (H a (or_introl eq_refl)). lra. }
  rewrite E. apply IH.
  destruct H as [H | H]; [left | right]; intros e He; apply H; right; exact He.
Qed.

(** X11.  At a time after every keyframe, or before every keyframe, the
    result is computed from the first two keyframes alone, as if the
    later ones were not there: the last intensity is not held, the first
    segment is extrapolated. *)
Theorem smoothing_outside_uses_first_two
  (first second : TimedIntensity) (rest : list TimedIntensity)
  (currentTime totalDuration : Q) :
  let emotions := first :: second :: rest in
  (forall e, In e emotions -> ti_time e < currentTime) \/
  (forall e, In e emotions -> currentTime < ti_time e) ->
  smoothMultiTransition emotions currentTime totalDuration =
  smoothMultiTransition [first; second] currentTime totalDuration.
Proof.
  intros emotions H. subst emotions. unfold smoothMultiTransition.
  rewrite (@find_enclosing_outside _ currentTime 0%nat H).
  rewrite (@find_enclosing_outside [first; second] currentTime 0%nat);
    [reflexivity |].
  destruct H as [H | H]; [left | right];
    intros e [<- | [<- | []]]; apply H; simpl; auto.
Qed.

(** After the keyframes at times 0, 1 and 2 with intensities 0, 1 and
    1/2, the intensity at time 3 is -7. *)
Lemma smoothing_after_rise_and_fall :
  smoothMultiTransition rise_and_fall 3 2 =
  smoothMultiTransition
    [ {| ti_time := 0; ti_intensity := 0 |};
      {| ti_time := 1; ti_intensity := 1 |} ] 3 2 /\
  smoothMultiTransition rise_and_fall 3 2 == - 7.
Proof.
  split; [| reflexivity].
  apply (@smoothing_outside_uses_first_two
           {| ti_time := 0; ti_intensity := 0 |}
           {| ti_time := 1; ti_intensity := 1 |}
           [ {| ti_time := 2; ti_intensity := 1 # 2 |} ] 3 2).
  left. intros e [<- | [<- | [<- | []]]]; reflexivity.
Defined.







End CurveFacts.

End EmotionCurves.

(* ===================================================================== *)
(** * [EmotionTransitionEngine] *)
(* ===================================================================== *)

Module EmotionTransitionEngine.
Import JS VoiceInterface EmotionCurves.
Local Open Scope Q_scope.

Record EmotionTrigger : Type := {
  word : option string;
  time : option Q;
  marker : option string;
  position : option Q
}.

Record EmotionTransition : Type := {
  fromEmotion : EmotionProfile;
  toEmotion : EmotionProfile;
  duration : Q;
  curve : TransitionCurve;
  triggers : EmotionTrigger;
  controlPoints : option ControlPoints
}.

Record EmotionKeyframe : Type := {
  kf_time : Q;
  kf_emotion : EmotionType;
  kf_intensity : Q;
  kf_transition : option EmotionTransition
}.

Record EmotionTimeline : Type := {
  keyframes : list EmotionKeyframe;
  tl_duration : Q;
  tl_defaultEmotion : EmotionProfile
}.


Record TransitionData : Type := {
  td_fromEmotion : EmotionProfile;
  td_toEmotion : EmotionProfile;
  td_progress : Q
}.

Record EmotionSegment : Type := {
  seg_startTime : Q;
  seg_endTime : Q;
  seg_text : string;
  seg_emotion : EmotionProfile;
  isTransition : bool;
  transitionData : option TransitionData
}.

Record EmotionTransitionResult : Type := {
  timeline : EmotionTimeline;
  segments : list EmotionSegment;
  totalDuration : Q;
  transitionCount : nat
}.


Definition char_time (index : nat) : Q := (inject_Z (Z.of_nat index) / 15) * 1000.

Definition estimateAudioDuration (text : string) : Q :=
  let wordCount := inject_Z (Z.of_nat (List.length (split text re_spaces))) in
  let wordsPerMinute := 180 in
  let durationMinutes := wordCount / wordsPerMinute in
  durationMinutes * 60 * 1000.

(** The keyframes pushed for a transition whose trigger time is
    [triggerTime], none when that time is negative. *)
Definition transition_keyframes (transition : EmotionTransition) (triggerTime : Q)
  : list EmotionKeyframe :=
  if Qle_bool 0 triggerTime then
    [ {| kf_time := triggerTime;
         kf_emotion := type (fromEmotion transition);
         kf_intensity := intensity (fromEmotion transition);
         kf_transition := Some transition |};
      {| kf_time := triggerTime + duration transition;
         kf_emotion := type (toEmotion transition);
         kf_intensity := intensity (toEmotion transition);
         kf_transition := None |} ]
  else [].

Definition initial_keyframe (defaultEmotion : EmotionProfile) : EmotionKeyframe :=
  {| kf_time := 0;
     kf_emotion := type defaultEmotion;
     kf_intensity := intensity defaultEmotion;
     kf_transition := None |}.

Definition keyframe_profile (k : EmotionKeyframe) : EmotionProfile :=
  {| type := kf_emotion k; intensity := kf_intensity k; variations := [] |}.

Definition interpolateEmotion (fromKeyframe toKeyframe : EmotionKeyframe)
  (currentTime : Q) (transition : EmotionTransition) : EmotionProfile :=
  let progress := (currentTime - kf_time fromKeyframe) / duration transition in
  let clampedProgress := Qmax 0 (Qmin 1 progress) in
  let intensity' :=
    interpolateEmotionIntensity
      (intensity (fromEmotion transition)) (intensity (toEmotion transition))
      clampedProgress (curve transition) (controlPoints transition) in
  let emotionType :=
    if Qltb clampedProgress (1 # 2)
    then type (fromEmotion transition) else type (toEmotion transition) in
  {| type := emotionType; intensity := intensity'; variations := [] |}.

(** The loop of [getEmotionAtTime] over consecutive keyframes, [current]
    being [keyframes[i]] and [rest] the keyframes after it. *)
Fixpoint emotion_between (current : EmotionKeyframe) (rest : list EmotionKeyframe)
  (t : Q) : EmotionProfile :=
  match rest with
  | [] => keyframe_profile current
  | next :: rest' =>
      if Qle_bool (kf_time current) t && Qle_bool t (kf_time next) then
        match kf_transition current with
        | Some tr =>
            if Qle_bool t (kf_time current + duration tr)
            then interpolateEmotion current next t tr
            else keyframe_profile current
        | None => keyframe_profile current
        end
      else emotion_between next rest' t
  end.

(** [None] stands for the [TypeError] raised on an empty keyframe array. *)
Definition getEmotionAtTime (tl : EmotionTimeline) (t : Q) : option EmotionProfile :=
  match keyframes tl with
  | [] => None
  | k :: ks => Some (emotion_between k ks t)
  end.

Fixpoint transition_at (kfs : list EmotionKeyframe) (t : Q) : option TransitionData :=
  match kfs with
  | [] => None
  | keyframe :: kfs' =>
      match kf_transition keyframe with
      | Some tr =>
          if Qle_bool (kf_time keyframe) t
             && Qle_bool t (kf_time keyframe + duration tr)
          then Some {| td_fromEmotion := fromEmotion tr;
                       td_toEmotion := toEmotion tr;
                       td_progress := (t - kf_time keyframe) / duration tr |}
          else transition_at kfs' t
      | None => transition_at kfs' t
      end
  end.

Definition getTransitionAtTime (tl : EmotionTimeline) (t : Q) : option TransitionData :=
  transition_at (keyframes tl) t.

Definition splitTextIntoWords (text : string) : list string :=
  filter (fun w => negb (String.length w =? 0)%nat) (split text re_spaces).

Fixpoint segments_from (tl : EmotionTimeline) (words : list string) (currentTime : Q)
  : option (list EmotionSegment) :=
  match words with
  | [] => Some []
  | w :: words' =>
      let wordDuration := char_time (String.length w) in
      let segmentEndTime := currentTime + wordDuration in
      match getEmotionAtTime tl currentTime with
      | None => None
      | Some emotionAtTime =>
          let transitionData := getTransitionAtTime tl currentTime in
          match segments_from tl words' segmentEndTime with
          | None => None
          | Some rest =>
              Some ({| seg_startTime := currentTime;
                       seg_endTime := segmentEndTime;
                       seg_text := w;
                       seg_emotion := emotionAtTime;
                       isTransition :=
                         match transitionData with Some _ => true | None => false end;
                       transitionData := transitionData |} :: rest)
          end
      end
  end.

Definition generateEmotionSegments (text : string) (tl : EmotionTimeline)
  : option (list EmotionSegment) :=
  segments_from tl (splitTextIntoWords text) 0.

Section Runtime.

(** The regular expressions of the engine are those of the JavaScript
    runtime it runs on.  [RegExp_match source text] stands for
    [text.match(new RegExp(source, 'i'))] as far as the engine looks at
    it: the exception the constructor throws when [source] is not a
    pattern, and otherwise [None] for [null] or the index of the match. *)
Variable RegExp_match : string -> string -> Result (option nat).

(** The template literal [`\\[${marker}\\]`]: a backslash and an opening
    bracket, the marker as it is, a backslash and a closing bracket. *)
Definition marker_source (marker : string) : string :=
  String backslash "[" ++ marker ++ String backslash "]".

Definition calculateTriggerTime (text : string) (transition : EmotionTransition)
  : Result Q :=
  let trigger := triggers transition in
  match time trigger with
  | Some t => Ok t
  | None =>
      let wordIndex :=
        match truthy_string (word trigger) with
        | Some w => indexOf (toLowerCase text) (toLowerCase w)
        | None => None
        end in
      match wordIndex with
      | Some wordIndex => Ok (char_time wordIndex)
      | None =>
          match position trigger with
          | Some p => Ok ((p / 15) * 1000)
          | None =>
              match truthy_string (marker trigger) with
              | Some mk =>
                  found <- RegExp_match (marker_source mk) text ;;
                  match found with
                  | Some index => Ok (char_time index)
                  | None => Ok (-1)
                  end
              | None => Ok (-1)
              end
          end
      end
  end.

(** The loop pushes onto the array that already holds the initial
    keyframe; an exception of [calculateTriggerTime] leaves the loop and
    the function. *)
Definition createEmotionTimeline (text : string)
  (transitions : list EmotionTransition) (defaultEmotion : EmotionProfile)
  : Result EmotionTimeline :=
  pushed <-
    for_each transitions
      (fun transition pushed =>
         triggerTime <- calculateTriggerTime text transition ;;
         Ok (pushed ++ transition_keyframes transition triggerTime)%list)
      [initial_keyframe defaultEmotion] ;;
  Ok {| keyframes := sort_by kf_time pushed;
        tl_duration := estimateAudioDuration text;
        tl_defaultEmotion := defaultEmotion |}.

(** [generateEmotionSegments] raises a [TypeError] on a timeline without
    keyframes. *)
Definition processEmotionTransitions (text : string)
  (transitions : list EmotionTransition) (defaultEmotion : EmotionProfile)
  : Result EmotionTransitionResult :=
  tl <- createEmotionTimeline text transitions defaultEmotion ;;
  match generateEmotionSegments text tl with
  | None => Throw TypeError
  | Some segs =>
      Ok {| timeline := tl;
            segments := segs;
            totalDuration := estimateAudioDuration text;
            transitionCount := List.length transitions |}
  end.

End Runtime.




(** *** Facts *)

Section EngineFacts.
Import JSFacts.

Definition neutral_default : EmotionProfile :=
  {| type := neutral; intensity := 5 # 10; variations := [] |}.



(** **** Trigger times *)

(** The regular expressions of a runtime, as [RegExp_match] above. *)
Definition RegExp : Type := string -> string -> Result (option nat).

(** The trigger of every transition is evaluated without an exception,
    [times] being the trigger times in the order of the transitions. *)
Definition resolve (rx : RegExp) (text : string)
  (transitions : list EmotionTransition) (times : list Q) : Prop :=
  Forall2 (fun tr t => calculateTriggerTime rx text tr = Ok t) transitions times.

(** The keyframes in the order [createEmotionTimeline] pushes them. *)
Definition pushed_for (transitions : list EmotionTransition) (times : list Q)
  : list EmotionKeyframe :=
  flat_map (fun p => transition_keyframes (fst p) (snd p))
    (combine transitions times).

Definition pushed_keyframes (defaultEmotion : EmotionProfile)
  (transitions : list EmotionTransition) (times : list Q) : list EmotionKeyframe :=
  initial_keyframe defaultEmotion :: pushed_for transitions times.

(** The timeline built from the trigger times [times]. *)
Definition timeline_at (text : string) (transitions : list EmotionTransition)
  (times : list Q) (defaultEmotion : EmotionProfile) : EmotionTimeline :=
  {| keyframes := sort_by kf_time (pushed_keyframes defaultEmotion transitions times);
     tl_duration := estimateAudioDuration text;
     tl_defaultEmotion := defaultEmotion |}.

(** Only the regular expression of a marker can make
    [calculateTriggerTime] throw. *)
Lemma calculateTriggerTime_throws (rx : RegExp) text tr e :
  calculateTriggerTime rx text tr = Throw e ->
  exists mk, truthy_string (marker (triggers tr)) = Some mk /\
             rx (marker_source mk) text = Throw e.
Proof.
  unfold calculateTriggerTime. cbv zeta.
  destruct (time (triggers tr)); [discriminate |].
  destruct (match truthy_string (word (triggers tr)) with
            | Some w => indexOf (toLowerCase text) (toLowerCase w)
            | None => None
            end); [discriminate |].
  destruct (position (triggers tr)); [discriminate |].
  destruct (truthy_string (marker (triggers tr))) as [mk |]; [| discriminate].
  destruct (rx (marker_source mk) text) as [[index |] | e'] eqn:E;
    simpl; try discriminate.
  intros H. inversion H; subst. exists mk. split; [reflexivity | exact E].
Qed.

(** A trigger with a time, a word that occurs in the text, a position,
    or no marker resolves on every runtime. *)
Lemma calculateTriggerTime_total (rx : RegExp) text tr :
  truthy_string (marker (triggers tr)) = None ->
  exists t, calculateTriggerTime rx text tr = Ok t.
Proof.
  intros Hm. destruct (calculateTriggerTime rx text tr) as [t | e] eqn:E;
    [exists t; reflexivity |].
  apply calculateTriggerTime_throws in E. destruct E as [mk [E _]]. congruence.
Qed.

Lemma push_loop (rx : RegExp) text transitions times :
  resolve rx text transitions times ->
  forall pushed,
    for_each transitions
      (fun transition pushed =>
         triggerTime <- calculateTriggerTime rx text transition ;;
         Ok (pushed ++ transition_keyframes transition triggerTime)%list)
      pushed
    = Ok (pushed ++ pushed_for transitions times)%list.
Proof.
  unfold pushed_for.
  induction 1 as [| tr t trs ts Ht Hrest IH]; intros pushed; simpl.
  - rewrite app_nil_r. reflexivity.
  - rewrite Ht. simpl. rewrite IH, <- app_assoc. reflexivity.
Qed.

Lemma push_loop_inv (rx : RegExp) text transitions :
  forall pushed result,
    for_each transitions
      (fun transition pushed =>
         triggerTime <- calculateTriggerTime rx text transition ;;
         Ok (pushed ++ transition_keyframes transition triggerTime)%list)
      pushed
    = result ->
    match result with
    | Ok _ => exists times, resolve rx text transitions times
    | Throw e => exists tr, In tr transitions /\
                            calculateTriggerTime rx text tr = Throw e
    end.
Proof.
  induction transitions as [| tr trs IH]; intros pushed result; simpl.
  - intros <-. exists []. constructor.
  - destruct (calculateTriggerTime rx text tr) as [t | e] eqn:E; simpl.
    + intros H. specialize (IH _ _ H). destruct result as [ks | e].
      * destruct IH as [times Hr]. exists (t :: times). constructor; assumption.
      * destruct IH as [tr' [Hin Htr']]. exists tr'. split; [right |]; assumption.
    + intros <-. exists tr. split; [left; reflexivity | exact E].
Qed.

Lemma createEmotionTimeline_resolved (rx : RegExp) text transitions times
  defaultEmotion :
  resolve rx text transitions times ->
  createEmotionTimeline rx text transitions defaultEmotion
  = Ok (timeline_at text transitions times defaultEmotion).
Proof.
  intros Hr. unfold createEmotionTimeline.
  rewrite (push_loop Hr). reflexivity.
Qed.

(** [createEmotionTimeline] returns exactly when every trigger resolves,
    and throws what the regular expression of a marker throws. *)
Lemma createEmotionTimeline_cases (rx : RegExp) text transitions defaultEmotion :
  match createEmotionTimeline rx text transitions defaultEmotion with
  | Ok tl => exists times, resolve rx text transitions times /\
                           tl = timeline_at text transitions times defaultEmotion
  | Throw e => exists tr mk, In tr transitions /\
                 truthy_string (marker (triggers tr)) = Some mk /\
                 rx (marker_source mk) text = Throw e
  end.
Proof.
  destruct (createEmotionTimeline rx text transitions defaultEmotion)
    as [tl | e] eqn:E; pose proof E as E0; unfold createEmotionTimeline in E0;
    destruct (for_each transitions _ [initial_keyframe defaultEmotion])
      as [pushed | e'] eqn:Ep in E0; try discriminate.
  - pose proof (push_loop_inv _ _ _ _ Ep) as [times Hr].
    exists times. split; [exact Hr |].
    pose proof (createEmotionTimeline_resolved defaultEmotion Hr) as E1.
    congruence.
  - simpl in E0. inversion E0; subst.
    pose proof (push_loop_inv _ _ _ _ Ep) as [tr [Hin Htr]].
    destruct (calculateTriggerTime_throws _ _ _ Htr) as [mk [Hmk Hrx]].
    exists tr, mk. auto.
Qed.

(** A transition triggered by a marker alone takes what the regular
    expression of the runtime answers: its exception, the time of the
    match, or -1, which leaves the transition without keyframes. *)
Lemma marker_trigger (rx : RegExp) text tr mk :
  time (triggers tr) = None ->
  truthy_string (word (triggers tr)) = None ->
  position (triggers tr) = None ->
  truthy_string (marker (triggers tr)) = Some mk ->
  calculateTriggerTime rx text tr
  = match rx (marker_source mk) text with
    | Ok (Some index) => Ok (char_time index)
    | Ok None => Ok (-1)
    | Throw e => Throw e
    end.
Proof.
  intros Ht Hw Hp Hm. unfold calculateTriggerTime. cbv zeta.
  rewrite Ht, Hw, Hp, Hm.
  destruct (rx (marker_source mk) text) as [[index |] | e]; reflexivity.
Qed.

(** A marker that the runtime does not accept as a pattern makes the
    whole call throw. *)
Lemma rejected_marker_throws (rx : RegExp) text tr mk e defaultEmotion :
  time (triggers tr) = None ->
  truthy_string (word (triggers tr)) = None ->
  position (triggers tr) = None ->
  truthy_string (marker (triggers tr)) = Some mk ->
  rx (marker_source mk) text = Throw e ->
  processEmotionTransitions rx text [tr] defaultEmotion = Throw e.
Proof.
  intros Ht Hw Hp Hm Hrx.
  unfold processEmotionTransitions, createEmotionTimeline. simpl for_each.
  rewrite (@marker_trigger rx text tr mk Ht Hw Hp Hm), Hrx. reflexivity.
Qed.

(** Without markers the runtime plays no part: the examples below, none
    of which has a marker, come out the same on every runtime. *)
Lemma calculateTriggerTime_without_marker (rx rx' : RegExp) text tr :
  truthy_string (marker (triggers tr)) = None ->
  calculateTriggerTime rx text tr = calculateTriggerTime rx' text tr.
Proof.
  intros Hm. unfold calculateTriggerTime. cbv zeta. rewrite Hm. reflexivity.
Qed.

Lemma processEmotionTransitions_without_markers (rx rx' : RegExp) text
  transitions defaultEmotion :
  Forall (fun tr => truthy_string (marker (triggers tr)) = None) transitions ->
  processEmotionTransitions rx text transitions defaultEmotion
  = processEmotionTransitions rx' text transitions defaultEmotion.
Proof.
  intros Hm. rewrite Forall_forall in Hm.
  unfold processEmotionTransitions, createEmotionTimeline.
  rewrite (@for_each_ext _ _ transitions
             (fun transition pushed =>
                triggerTime <- calculateTriggerTime rx text transition ;;
                Ok (pushed ++ transition_keyframes transition triggerTime)%list)
             (fun transition pushed =>
                triggerTime <- calculateTriggerTime rx' text transition ;;
                Ok (pushed ++ transition_keyframes transition triggerTime)%list));
    [reflexivity |].
  intros tr pushed Hin.
  rewrite (@calculateTriggerTime_without_marker rx rx' text tr (Hm tr Hin)).
  reflexivity.
Qed.

(** On the runtime of the examples the marker "excited" is found in
    brackets, in any letter case, and an opening parenthesis is no
    pattern. *)
Example RegExp_plain_markers :
  RegExp_plain (marker_source "excited") "Hi [Excited] there" = Ok (Some 3%nat) /\
  RegExp_plain (marker_source "excited") "Hi excited there" = Ok None /\
  RegExp_plain (marker_source "(") "Hi ( there" = Throw SyntaxError.
Proof. repeat split. Qed.

Lemma resolve_length (rx : RegExp) text transitions times :
  resolve rx text transitions times ->
  List.length times = List.length transitions.
Proof. induction 1; simpl; congruence. Qed.


Lemma segments_from_total tl words t :
  keyframes tl <> [] -> exists segs, segments_from tl words t = Some segs.
Proof.
  intros Hne. revert t.
  induction words as [| w ws IH]; intros t; simpl.
  - eexists; reflexivity.
  - unfold getEmotionAtTime.
    destruct (keyframes tl) as [| k ks]; [congruence |].
    destruct (IH (t + char_time (String.length w))) as [segs ->].
    eexists; reflexivity.
Qed.

Lemma timeline_nonempty text transitions times defaultEmotion :
  keyframes (timeline_at text transitions times defaultEmotion) <> [].
Proof.
  unfold timeline_at; cbn [keyframes].
  intros H. apply (f_equal (@List.length _)) in H.
  rewrite sort_by_length in H. discriminate.
Qed.

(** When every trigger resolves, [processEmotionTransitions] returns, and
    its timeline is the one built from the trigger times. *)
Lemma processEmotionTransitions_resolved (rx : RegExp) text transitions times
  defaultEmotion :
  resolve rx text transitions times ->
  exists r,
    processEmotionTransitions rx text transitions defaultEmotion = Ok r /\
    timeline r = timeline_at text transitions times defaultEmotion /\
    generateEmotionSegments text (timeline r) = Some (segments r) /\
    transitionCount r = List.length transitions.
Proof.
  intros Hr. unfold processEmotionTransitions.
  rewrite (createEmotionTimeline_resolved defaultEmotion Hr). simpl bind.
  unfold generateEmotionSegments.
  destruct (@segments_from_total
              (timeline_at text transitions times defaultEmotion)
              (splitTextIntoWords text) 0
              (@timeline_nonempty text transitions times defaultEmotion))
    as [segs Hsegs].
  rewrite Hsegs. eexists. repeat split. exact Hsegs.
Qed.




(** **** The timeline *)


(** A transition from calm to excited, triggered by the word "excited". *)
Definition calm_to_excited : EmotionTransition :=
  {| fromEmotion := {| type := calm; intensity := 6 # 10; variations := [] |};
     toEmotion := {| type := excited; intensity := 9 # 10; variations := [] |};
     duration := 1500;
     curve := curve_ease_in_out;
     triggers := {| word := Some "excited"%string; time := None;
                    marker := None; position := None |};
     controlPoints := None |}.


(** The sentence of the scenario; the word "excited" starts at its
    character 37. *)
Definition calm_then_excited : string :=
  "I was calm, but then I became really excited!".









(** ** The segments *)






Lemma segments_from_Forall (P : EmotionSegment -> Prop) tl words t segs :
  (forall t' e, getEmotionAtTime tl t' = Some e ->
     forall w t1,
     P {| seg_startTime := t'; seg_endTime := t1; seg_text := w;
          seg_emotion := e;
          isTransition :=
            match getTransitionAtTime tl t' with
            | Some _ => true | None => false end;
          transitionData := getTransitionAtTime tl t' |}) ->
  segments_from tl words t = Some segs -> Forall P segs.
Proof.
  intros HP. revert t segs. induction words as [| w ws IH]; intros t segs; simpl.
  - intros H; inversion H; constructor.
  - destruct (getEmotionAtTime tl t) as [e |] eqn:Ee; [| discriminate].
    destruct (segments_from tl ws (t + char_time (String.length w)))
      as [rest |] eqn:E; [| discriminate].
    intros H; inversion H; subst; clear H.
    constructor; [apply HP, Ee | apply (IH _ _ E)].
Qed.

(** X14.  Without transitions every segment carries the type and the
    intensity of the default emotion, with no variations, and none is
    marked as a transition. *)
Theorem no_transitions_default_emotion (rx : RegExp) text defaultEmotion :
  exists r,
    processEmotionTransitions rx text [] defaultEmotion = Ok r /\
    Forall (fun s =>
              seg_emotion s = {| type := type defaultEmotion;
                                 intensity := intensity defaultEmotion;
                                 variations := [] |} /\
              isTransition s = false /\ transitionData s = None)
           (segments r).
Proof.
  assert (Hr : resolve rx text [] []) by constructor.
  destruct (processEmotionTransitions_resolved defaultEmotion Hr)
    as [r [Hp [Htl [Hsegs _]]]].
  exists r. split; [exact Hp |].
  rewrite Htl in Hsegs.
  eapply segments_from_Forall; [| exact Hsegs].
  intros t' e He w t1. cbn. inversion He; subst. repeat split.
Qed.





(** ** Emotions read from the timeline *)







Lemma emotion_between_after (d first : EmotionKeyframe)
  (rest : list EmotionKeyframe) (t : Q) :
  (forall k, In k (first :: rest) -> kf_time k < t) ->
  emotion_between first rest t = keyframe_profile (last (first :: rest) d).
Proof.
  revert first. induction rest as [| next rest IH]; intros first Hall;
    [reflexivity |].
  cbn [emotion_between].
  assert (Hn : Qle_bool t (kf_time next) = false).
  { destruct (Qle_bool t (kf_time next)) eqn:En; [| reflexivity].
    apply Qle_bool_iff in En.
    pose proof (Hall next (or_intror (or_introl eq_refl))). lra. }
  rewrite Hn, andb_false_r.
  rewrite IH by (intros k Hk; apply Hall; right; exact Hk).
  reflexivity.
Qed.

(** X17.  At a time later than every keyframe the timeline gives the
    type and intensity of its last keyframe. *)
Theorem emotion_after_last_keyframe (tl : EmotionTimeline)
  (first : EmotionKeyframe) (rest : list EmotionKeyframe) (t : Q) :
  keyframes tl = first :: rest ->
  (forall k, In k (keyframes tl) -> kf_time k < t) ->
  getEmotionAtTime tl t = Some (keyframe_profile (last (keyframes tl) first)).
Proof.
  intros E Hall. unfold getEmotionAtTime. rewrite E in *. f_equal.
  apply emotion_between_after, Hall.
Qed.

Lemma emotion_after_last_keyframe_scenario :
  getEmotionAtTime
    (timeline_at calm_then_excited [calm_to_excited] [char_time 37]
       neutral_default) 5000
  = Some {| type := excited; intensity := 9 # 10; variations := [] |}.
Proof.
  pose (tl := timeline_at calm_then_excited [calm_to_excited] [char_time 37]
                neutral_default).
  apply (@emotion_after_last_keyframe tl (initial_keyframe neutral_default)
           (List.tl (keyframes tl)) 5000).
  - reflexivity.
  - intros k Hk. vm_compute in Hk.
    destruct Hk as [<- | [<- | [<- | []]]]; reflexivity.
Defined.

(** ** The estimated duration, and blending *)

(** X18.  The estimated duration is a third of a second for every piece
    that splitting the text at white space gives, empty pieces included:
    it is at least 1000/3 ms, for the empty text too, and at least
    1000/3 ms per word that gets a segment. *)
Theorem estimated_duration_lower_bounds (text : string) :
  estimateAudioDuration text
    == inject_Z (Z.of_nat (List.length (split text re_spaces))) * (1000 # 3) /\
  1000 # 3 <= estimateAudioDuration text /\
  inject_Z (Z.of_nat (List.length (splitTextIntoWords text))) * (1000 # 3)
    <= estimateAudioDuration text /\
  estimateAudioDuration "" == 1000 # 3 /\ splitTextIntoWords "" = [].
Proof.
  assert (E : estimateAudioDuration text
              == inject_Z (Z.of_nat (List.length (split text re_spaces)))
                 * (1000 # 3))
    by (unfold estimateAudioDuration; cbv zeta; field).
  split; [exact E |].
  pose proof (split_spaces_nonempty text) as H1.
  assert (H2 : (List.length (splitTextIntoWords text)
                <= List.length (split text re_spaces))%nat)
    by apply filter_length_le.
  set (n := List.length (split text re_spaces)) in *.
  set (m := List.length (splitTextIntoWords text)) in *.
  assert (Hn : 1 <= inject_Z (Z.of_nat n))
    by (unfold Qle; simpl; lia).
  assert (Hm : inject_Z (Z.of_nat m) <= inject_Z (Z.of_nat n))
    by (unfold Qle; simpl; lia).
  rewrite E. repeat split; try reflexivity; lra.
Qed.




End EngineFacts.

End EmotionTransitionEngine.

(* ===================================================================== *)
(** * The conversation interface types *)
(* ===================================================================== *)

Module ConversationInterface.
Import JS VoiceInterface EmotionTransitionEngine.

Record OverlapConfig : Type := {
  enabled : bool;
  targetLineId : option string;
  overlapStart : Q;
  overlapDuration : Q;
  volumeReduction : Q
}.

Record DialogueTiming : Type := {
  startTime : Q;
  endTime : option Q;
  pauseBefore : option Q;
  pauseAfter : option Q;
  overlap : option OverlapConfig;
  speedModifier : option Q
}.

Record DialogueLine : Type := {
  id : string;
  characterId : string;
  text : string;
  emotion : option EmotionProfile;
  emotionTransitions : option (list EmotionTransition);
  timing : DialogueTiming
}.

Record ConversationGlobalSettings : Type := {
  pauseBetweenLines : Q;
  crossfadeDuration : Q;
  masterVolume : Q;
  naturalTiming : bool
}.

Inductive EventType : Type :=
| line_start | line_end | emotion_change | overlap_start | overlap_end.

Inductive EventData : Type :=
| data_text (text : string)
| data_emotions (fromEmotion toEmotion : EmotionProfile)
| data_overlap (overlap : OverlapConfig).

Record TimelineEvent : Type := {
  ev_time : Q;
  ev_type : EventType;
  ev_characterId : string;
  ev_lineId : string;
  ev_data : option EventData
}.

Record ConversationTimeline : Type := {
  cv_totalDuration : Q;
  events : list TimelineEvent;
  characterUsage : list (string * Q)
}.

Record AudioSegment : Type := {
  as_lineId : string;
  as_startTime : Q;
  as_endTime : Q;
  as_text : string;
  as_emotion : EmotionProfile;
  as_audioBuffer : Buffer
}.

Record AudioTrackResult : Type := {
  tr_characterId : string;
  tr_characterName : string;
  tr_audioBuffer : Buffer;
  tr_segments : list AudioSegment;
  tr_totalDuration : Q
}.

Record MixingOptions : Type := {
  enableAutomaticMixing : bool;
  preserveIndividualTracks : bool;
  normalizeAudio_opt : bool;
  compressionLevel : Q;
  spatialAudioEnabled : bool
}.

Record VoiceProfile : Type := {
  vp_id : string;
  vp_name : string;
  vp_baseVoiceId : string
}.

Record ConversationCharacter : Type := {
  ch_id : string;
  ch_name : string;
  ch_voiceProfile : VoiceProfile;
  ch_defaultEmotion : EmotionProfile
}.

Record ConversationMetadata : Type := {
  genre : string;
  targetAudience : string;
  estimatedDuration : Q;
  complexity : string;
  tags : list string
}.

Record ConversationConfig : Type := {
  cfg_id : string;
  title : string;
  characters : list ConversationCharacter;
  dialogue : list DialogueLine;
  globalSettings : ConversationGlobalSettings;
  metadata : option ConversationMetadata
}.

Inductive OutputFormat : Type := mp3 | wav | aac.

Record ConversationGenerationRequest : Type := {
  config : ConversationConfig;
  outputFormat : OutputFormat;
  mixingOptions : option MixingOptions
}.

Record VoiceModulation : Type := {
  vm_emotion : EmotionProfile;
  vm_speed : Q;
  vm_pitch : Q;
  vm_volume : Q
}.

Record GenerationRequest : Type := {
  gr_text : string;
  gr_voiceProfile : VoiceProfile;
  gr_modulation : option VoiceModulation;
  gr_emotionTransitions : option (list EmotionTransition);
  gr_outputFormat : OutputFormat
}.

Record CharacterStatistics : Type := {
  lineCount : nat;
  cs_wordCount : nat;
  speakingTime : Q;
  averageEmotion : EmotionProfile;
  emotionChanges : nat
}.

Record ConversationStatistics : Type := {
  totalLines : nat;
  totalWords : nat;
  averageLineLength : Q;
  characterStats : list (string * CharacterStatistics);
  emotionDistribution : list (EmotionType * nat);
  overlappingLines : nat;
  silenceDuration : Q
}.

Record ConversationResult : Type := {
  audioTracks : list AudioTrackResult;
  mixedAudio : option Buffer;
  res_timeline : ConversationTimeline;
  statistics : ConversationStatistics;
  res_metadata : ConversationMetadata
}.

Definition eventType_eqb (a b : EventType) : bool :=
  match a, b with
  | line_start, line_start | line_end, line_end
  | emotion_change, emotion_change
  | overlap_start, overlap_start | overlap_end, overlap_end => true
  | _, _ => false
  end.

End ConversationInterface.

(* ===================================================================== *)
(** * [AudioMixer] *)
(* ===================================================================== *)

Module AudioMixer.
Import JS VoiceInterface ConversationInterface.
Local Open Scope Z_scope.

Record AudioProcessingOptions : Type := {
  sampleRate : Z;
  bitDepth : Z;
  channels : Z
}.

(** [defaultSampleRate], [defaultBitDepth] and [defaultChannels]; the bit
    depth is a multiple of 8. *)
Definition defaultOptions : AudioProcessingOptions :=
  {| sampleRate := 44100; bitDepth := 16; channels := 2 |}.

Definition bytesPerSample (options : AudioProcessingOptions) : Z :=
  (bitDepth options / 8) * channels options.

Definition Q_of (z : Z) : Q := inject_Z z.

(** The statements of the innermost loop body of
    [mixAudioSegmentIntoBuffer], for one channel. *)
Definition mix_channel (segmentBuffer : Buffer) (volume : Q)
  (mixIndex segmentIndex : Z) (channel : nat) (mixBuffer : Buffer)
  : Result Buffer :=
  let mixByteIndex := mixIndex + Z.of_nat channel * 2 in
  let segmentByteIndex := segmentIndex + Z.of_nat channel * 2 in
  mixValue <- readInt16LE mixBuffer mixByteIndex ;;
  segmentValue <- readInt16LE segmentBuffer segmentByteIndex ;;
  let scaledSegmentValue := Math_round (Q_of segmentValue * volume) in
  let mixedValue := mixValue + scaledSegmentValue in
  let mixedValue := clamp16 mixedValue in
  writeInt16LE mixBuffer mixedValue mixByteIndex.

Definition mix_frame (segmentBuffer : Buffer) (startSample : Z) (volume : Q)
  (options : AudioProcessingOptions) (i : Z) (mixBuffer : Buffer) : Result Buffer :=
  let mixIndex := (startSample + i) * bytesPerSample options in
  let segmentIndex := i * bytesPerSample options in
  if (mixIndex + bytesPerSample options <=? Buffer_length mixBuffer)
     && (segmentIndex + bytesPerSample options <=? Buffer_length segmentBuffer)
  then for_range (Z.to_nat (channels options))
         (mix_channel segmentBuffer volume mixIndex segmentIndex) mixBuffer
  else Ok mixBuffer.

(** The loop [for (i = 0; i < segmentSamples && startSample + i <
    mixBufferSamples; i++)]; it runs at most [segmentSamples] times. *)
Fixpoint mix_frames (fuel : nat) (segmentBuffer : Buffer) (startSample : Z)
  (volume : Q) (options : AudioProcessingOptions)
  (segmentSamples mixBufferSamples i : Z) (mixBuffer : Buffer) : Result Buffer :=
  match fuel with
  | O => Ok mixBuffer
  | S fuel' =>
      if (i <? segmentSamples) && (startSample + i <? mixBufferSamples) then
        mixBuffer' <- mix_frame segmentBuffer startSample volume options i mixBuffer ;;
        mix_frames fuel' segmentBuffer startSample volume options
          segmentSamples mixBufferSamples (i + 1) mixBuffer'
      else Ok mixBuffer
  end.

Definition mixAudioSegmentIntoBuffer (segmentBuffer mixBuffer : Buffer)
  (startSample : Z) (volume : Q) (processingOptions : AudioProcessingOptions)
  : Result Buffer :=
  let segmentSamples := Buffer_length segmentBuffer / bytesPerSample processingOptions in
  let mixBufferSamples := Buffer_length mixBuffer / bytesPerSample processingOptions in
  mix_frames (Z.to_nat segmentSamples) segmentBuffer startSample volume
    processingOptions segmentSamples mixBufferSamples 0 mixBuffer.

(** [1.0 - (overlapEvent.data?.volumeReduction || 0.3)]. *)
Definition overlap_volume (overlapEvent : TimelineEvent) : Q :=
  let reduction :=
    match ev_data overlapEvent with
    | Some (data_overlap ov) => or_default (Some (volumeReduction ov)) (3 # 10)
    | _ => (3 # 10)%Q
    end in
  (1 - reduction)%Q.

Definition mix_segment (characterEvents : list TimelineEvent)
  (processingOptions : AudioProcessingOptions) (segment : AudioSegment)
  (mixBuffer : Buffer) : Result Buffer :=
  let startTimeMs := as_startTime segment in
  let endTimeMs := as_endTime segment in
  let startSample :=
    Math_floor ((startTimeMs / 1000) * Q_of (sampleRate processingOptions))%Q in
  let overlappingEvents :=
    filter (fun event =>
              Qle_bool startTimeMs (ev_time event)
              && Qle_bool (ev_time event) endTimeMs
              && eventType_eqb (ev_type event) overlap_start)
      characterEvents in
  let volume :=
    match overlappingEvents with
    | overlapEvent :: _ => overlap_volume overlapEvent
    | [] => 1%Q
    end in
  mixAudioSegmentIntoBuffer (as_audioBuffer segment) mixBuffer startSample volume
    processingOptions.

Definition mixTrackIntoBuffer (track : AudioTrackResult)
  (timeline : ConversationTimeline) (processingOptions : AudioProcessingOptions)
  (mixBuffer : Buffer) : Result Buffer :=
  let characterEvents :=
    filter (fun event => String.eqb (ev_characterId event) (tr_characterId track))
      (events timeline) in
  for_each (tr_segments track) (mix_segment characterEvents processingOptions)
    mixBuffer.

(** The two nested loops of [normalizeAudio] and [applyCompression] over
    frames and channels; [visit] is the guarded body. *)
Definition for_samples (S : Type) (buffer : Buffer)
  (options : AudioProcessingOptions) (visit : Z -> S -> Result S) (s : S)
  : Result S :=
  let totalSamples := Buffer_length buffer / bytesPerSample options in
  for_range (Z.to_nat totalSamples)
    (fun i =>
       for_range (Z.to_nat (channels options))
         (fun channel s =>
            let byteIndex :=
              Z.of_nat i * bytesPerSample options + Z.of_nat channel * 2 in
            if byteIndex + 1 <? Buffer_length buffer then visit byteIndex s
            else Ok s))
    s.

Definition find_peak (buffer : Buffer) (options : AudioProcessingOptions)
  : Result Z :=
  for_samples buffer options
    (fun byteIndex peak =>
       value <- readInt16LE buffer byteIndex ;;
       let sample := Z.abs value in
       Ok (Z.max peak sample))
    0.

Definition normalizeAudio (buffer : Buffer) (options : AudioProcessingOptions)
  : Result Buffer :=
  peak <- find_peak buffer options ;;
  if peak =? 0 then Ok buffer
  else
    let maxValue := (32767 * (95 # 100))%Q in
    let normalizationFactor := (maxValue / Q_of peak)%Q in
    normalizedBuffer <- Buffer_alloc (Buffer_length buffer) ;;
    for_samples buffer options
      (fun byteIndex normalizedBuffer =>
         sample <- readInt16LE buffer byteIndex ;;
         let normalizedSample := Math_round (Q_of sample * normalizationFactor) in
         let clampedSample := clamp16 normalizedSample in
         writeInt16LE normalizedBuffer clampedSample byteIndex)
      normalizedBuffer.

(** [normalizeAudio] with its arithmetic in binary64, as the code computes
    it: the peak and the samples are integers, the factor and the scaled
    sample are doubles; [0x1.e666666666666p-1] is the double the literal
    [0.95] denotes.  [normalizeAudio] above is the same function with
    numbers that do not round; the two differ by one unit where the
    rounding of a double moves a scaled sample across a half. *)
Definition normalizeAudio_binary64 (buffer : Buffer)
  (options : AudioProcessingOptions) : Result Buffer :=
  peak <- find_peak buffer options ;;
  if peak =? 0 then Ok buffer
  else
    let maxValue := (32767 * 0x1.e666666666666p-1)%float in
    let normalizationFactor := (maxValue / float_of_Z peak)%float in
    normalizedBuffer <- Buffer_alloc (Buffer_length buffer) ;;
    for_samples buffer options
      (fun byteIndex normalizedBuffer =>
         sample <- readInt16LE buffer byteIndex ;;
         let normalizedSample :=
           Math_round_float (float_of_Z sample * normalizationFactor)%float in
         let clampedSample := clamp16 normalizedSample in
         writeInt16LE normalizedBuffer clampedSample byteIndex)
      normalizedBuffer.

Definition compress_sample (compressionLevel : Q) (sample : Z) : Q :=
  let threshold := (32767 * (1 - compressionLevel))%Q in
  let ratio := (1 + compressionLevel * 3)%Q in
  let absSample := Q_of (Z.abs sample) in
  if Qltb threshold absSample then
    let overage := (absSample - threshold)%Q in
    let compressedOverage := (overage / ratio)%Q in
    let sign := if sample >=? 0 then 1%Q else (-1)%Q in
    (sign * (threshold + compressedOverage))%Q
  else Q_of sample.

Definition applyCompression (buffer : Buffer) (compressionLevel : Q)
  (options : AudioProcessingOptions) : Result Buffer :=
  compressedBuffer <- Buffer_alloc (Buffer_length buffer) ;;
  for_samples buffer options
    (fun byteIndex compressedBuffer =>
       sample <- readInt16LE buffer byteIndex ;;
       let compressedSample := compress_sample compressionLevel sample in
       let clampedSample := clamp16 (Math_round compressedSample) in
       writeInt16LE compressedBuffer clampedSample byteIndex)
    compressedBuffer.

(** [applySpatialAudio]: a copy of the buffer for stereo output. *)
Definition applySpatialAudio (buffer : Buffer) (options : AudioProcessingOptions)
  : Result Buffer :=
  if negb (channels options =? 2) then Ok buffer
  else
    spatialBuffer <- Buffer_alloc (Buffer_length buffer) ;;
    Ok (Buffer_copy buffer spatialBuffer).

Definition mixConversation (tracks : list AudioTrackResult)
  (timeline : ConversationTimeline) (options : MixingOptions) : Result Buffer :=
  match tracks with
  | [] => Throw (Error "No audio tracks to mix")
  | _ =>
      let processingOptions := defaultOptions in
      let totalDurationMs := cv_totalDuration timeline in
      let totalSamples :=
        Math_ceil ((totalDurationMs / 1000) * Q_of (sampleRate processingOptions))%Q in
      let bytesPerSample := bytesPerSample processingOptions in
      mixBuffer <- Buffer_alloc (totalSamples * bytesPerSample) ;;
      mixBuffer <-
        for_each tracks
          (fun track mixBuffer =>
             mixTrackIntoBuffer track timeline processingOptions mixBuffer)
          mixBuffer ;;
      let finalBuffer := mixBuffer in
      finalBuffer <-
        (if normalizeAudio_opt options
         then normalizeAudio finalBuffer processingOptions
         else Ok finalBuffer) ;;
      finalBuffer <-
        (if Qltb 0 (compressionLevel options)
         then applyCompression finalBuffer (compressionLevel options) processingOptions
         else Ok finalBuffer) ;;
      finalBuffer <-
        (if spatialAudioEnabled options
         then applySpatialAudio finalBuffer processingOptions
         else Ok finalBuffer) ;;
      Ok finalBuffer
  end.

(** *** Facts *)

Section MixerFacts.
Import JSFacts.

(** The sample stored at a byte offset, [0] where the buffer ends. *)
Definition sample_at (buf : Buffer) (offset : Z) : Z :=
  match readInt16LE buf offset with
  | Ok v => v
  | Throw _ => 0
  end.

Lemma sample_at_range buf o : -32768 <= sample_at buf o <= 32767.
Proof.
  unfold sample_at. destruct (readInt16LE buf o) eqn:E; [| lia].
  eapply readInt16LE_range; eassumption.
Qed.

Lemma sample_at_read buf o v : readInt16LE buf o = Ok v -> sample_at buf o = v.
Proof. unfold sample_at. intros ->. reflexivity. Qed.

Lemma readInt16LE_bounds buf o v :
  readInt16LE buf o = Ok v -> 0 <= o /\ o + 1 < Buffer_length buf.
Proof.
  unfold readInt16LE, byte_at, Buffer_length.
  destruct (o <? 0) eqn:E0; [discriminate |].
  destruct (nth_error buf (Z.to_nat o)); [| discriminate].
  destruct (o + 1 <? 0) eqn:E1; [discriminate |].
  destruct (nth_error buf (Z.to_nat (o + 1))) eqn:E2; [| discriminate].
  intros _. assert (Hn : nth_error buf (Z.to_nat (o + 1)) <> None) by congruence.
  apply nth_error_Some in Hn. lia.
Qed.

(** **** No write is attempted with a value outside the 16-bit range *)

Lemma nve_mix_channel seg volume mixIndex segmentIndex channel mix :
  no_value_error (mix_channel seg volume mixIndex segmentIndex channel mix).
Proof. unfold mix_channel. nve_steps. Qed.

Lemma nve_mix_frame seg startSample volume options i mix :
  no_value_error (mix_frame seg startSample volume options i mix).
Proof. unfold mix_frame. nve_steps. Qed.

Lemma nve_mix_frames fuel seg startSample volume options n m i mix :
  no_value_error (mix_frames fuel seg startSample volume options n m i mix).
Proof.
  revert i mix. induction fuel as [| fuel IH]; intros i mix; simpl.
  - apply nve_ok.
  - destruct (_ && _); [| apply nve_ok].
    apply nve_bind; [apply nve_mix_frame | intros; apply IH].
Qed.

Lemma nve_mixAudioSegmentIntoBuffer seg mix startSample volume options :
  no_value_error (mixAudioSegmentIntoBuffer seg mix startSample volume options).
Proof. apply nve_mix_frames. Qed.

#[local] Hint Resolve nve_mixAudioSegmentIntoBuffer : nve.

Lemma nve_mixTrackIntoBuffer track timeline options mix :
  no_value_error (mixTrackIntoBuffer track timeline options mix).
Proof. unfold mixTrackIntoBuffer, mix_segment. nve_steps. Qed.

Lemma nve_for_samples (S : Type) buffer options (visit : Z -> S -> Result S) s :
  (forall o s', no_value_error (visit o s')) ->
  no_value_error (for_samples buffer options visit s).
Proof. intros Hv. unfold for_samples. nve_steps. Qed.

#[local] Hint Resolve nve_for_samples nve_mixTrackIntoBuffer : nve.

Lemma nve_normalizeAudio buffer options :
  no_value_error (normalizeAudio buffer options).
Proof. unfold normalizeAudio, find_peak. nve_steps. Qed.

Lemma nve_applyCompression buffer level options :
  no_value_error (applyCompression buffer level options).
Proof. unfold applyCompression. nve_steps. Qed.

Lemma nve_applySpatialAudio buffer options :
  no_value_error (applySpatialAudio buffer options).
Proof. unfold applySpatialAudio. nve_steps. Qed.

#[local] Hint Resolve nve_normalizeAudio nve_applyCompression
  nve_applySpatialAudio : nve.

Lemma nve_mixConversation tracks timeline options :
  no_value_error (mixConversation tracks timeline options).
Proof.
  unfold mixConversation. destruct tracks as [| track tracks]; [discriminate |].
  nve_steps.
Qed.

(** **** Mixing a segment into 16-bit stereo *)

(** The saturated sum the mixing statement stores at byte offset [o] of the
    mix, for a segment placed at frame [startSample]. *)
Definition mixed (seg : Buffer) (startSample : Z) (volume : Q) (mix : Buffer)
  (o : Z) : Z :=
  clamp16 (sample_at mix o
           + Math_round (Q_of (sample_at seg (o - startSample * 4)) * volume)).

Lemma mix_channel_ok seg volume mixIndex segmentIndex channel mix :
  0 <= mixIndex + Z.of_nat channel * 2 ->
  mixIndex + Z.of_nat channel * 2 + 1 < Buffer_length mix ->
  0 <= segmentIndex + Z.of_nat channel * 2 ->
  segmentIndex + Z.of_nat channel * 2 + 1 < Buffer_length seg ->
  exists mix',
    mix_channel seg volume mixIndex segmentIndex channel mix = Ok mix' /\
    Buffer_length mix' = Buffer_length mix /\
    sample_at mix' (mixIndex + Z.of_nat channel * 2)
    = clamp16 (sample_at mix (mixIndex + Z.of_nat channel * 2)
               + Math_round
                   (Q_of (sample_at seg (segmentIndex + Z.of_nat channel * 2))
                    * volume)) /\
    forall o, o + 1 < mixIndex + Z.of_nat channel * 2
              \/ mixIndex + Z.of_nat channel * 2 + 1 < o ->
              sample_at mix' o = sample_at mix o.
Proof.
  intros Hm0 Hm1 Hs0 Hs1. unfold mix_channel.
  destruct (readInt16LE_ok mix Hm0 Hm1) as [mixValue Em].
  destruct (readInt16LE_ok seg Hs0 Hs1) as [segmentValue Es].
  rewrite Em, Es. simpl bind.
  rewrite (sample_at_read _ _ Em), (sample_at_read _ _ Es).
  destruct (@writeInt16LE_ok mix
              (clamp16 (mixValue + Math_round (Q_of segmentValue * volume)))
              _ (clamp16_range _) Hm0 Hm1) as [mix' [Hw [Hlen [Hr Hother]]]].
  exists mix'. split; [exact Hw |]. split; [exact Hlen |].
  split; [apply sample_at_read, Hr |].
  intros o Ho. unfold sample_at. rewrite (Hother o Ho). reflexivity.
Qed.

Lemma frames_fit len n : 0 <= len -> n < len / 4 -> n * 4 + 4 <= len.
Proof.
  intros Hlen Hn. pose proof (Z.mul_div_le len 4 eq_refl). lia.
Qed.

Lemma even_in_frame o n :
  o mod 2 = 0 -> n * 4 <= o < (n + 1) * 4 -> o = n * 4 \/ o = n * 4 + 2.
Proof.
  intros Heven Hr.
  apply Z.mod_divide in Heven; [| lia]. destruct Heven as [k Hk]. lia.
Qed.

(** One iteration of the loop over frames: both samples of mix frame
    [startSample + i] receive their saturated sums, the rest of the mix is
    untouched. *)
Lemma mix_frame_ok seg startSample volume i mix :
  0 <= startSample -> 0 <= i ->
  i < Buffer_length seg / 4 -> startSample + i < Buffer_length mix / 4 ->
  exists mix',
    mix_frame seg startSample volume defaultOptions i mix = Ok mix' /\
    Buffer_length mix' = Buffer_length mix /\
    forall o, o mod 2 = 0 ->
      sample_at mix' o
      = if ((startSample + i) * 4 <=? o) && (o <? (startSample + i + 1) * 4)
        then mixed seg startSample volume mix o
        else sample_at mix o.
Proof.
  intros Hstart Hi Hseg Hmix.
  assert (Hlm : 0 <= Buffer_length mix) by (unfold Buffer_length; lia).
  assert (Hls : 0 <= Buffer_length seg) by (unfold Buffer_length; lia).
  pose proof (frames_fit Hlm Hmix) as Hfm.
  pose proof (frames_fit Hls Hseg) as Hfs.
  unfold mix_frame.
  change (bytesPerSample defaultOptions) with 4.
  change (channels defaultOptions) with 2.
  replace (((startSample + i) * 4 + 4 <=? Buffer_length mix)
           && (i * 4 + 4 <=? Buffer_length seg))%bool with true
    by (symmetry; apply andb_true_iff; split; apply Z.leb_le; lia).
  unfold for_range. simpl for_from.
  destruct (@mix_channel_ok seg volume ((startSample + i) * 4) (i * 4) 0 mix)
    as [mix1 [-> [Hlen1 [Hv1 Ho1]]]]; simpl Z.of_nat; try lia.
  simpl bind.
  destruct (@mix_channel_ok seg volume ((startSample + i) * 4) (i * 4) 1 mix1)
    as [mix2 [-> [Hlen2 [Hv2 Ho2]]]]; simpl Z.of_nat; try lia.
  simpl bind. exists mix2. split; [reflexivity |]. split; [congruence |].
  intros o Heven. simpl Z.of_nat in *.
  destruct (((startSample + i) * 4 <=? o) && (o <? (startSample + i + 1) * 4))%bool
    eqn:Hin.
  - apply andb_true_iff in Hin. destruct Hin as [Hlo Hhi].
    apply Z.leb_le in Hlo. apply Z.ltb_lt in Hhi.
    destruct (@even_in_frame o (startSample + i) Heven ltac:(lia)) as [-> | ->].
    + rewrite Ho2 by lia.
      unfold mixed.
      replace ((startSample + i) * 4 - startSample * 4) with (i * 4 + 0 * 2) by lia.
      replace ((startSample + i) * 4) with ((startSample + i) * 4 + 0 * 2) by lia.
      exact Hv1.
    + unfold mixed.
      replace ((startSample + i) * 4 + 2 - startSample * 4) with (i * 4 + 1 * 2) by lia.
      replace ((startSample + i) * 4 + 2) with ((startSample + i) * 4 + 1 * 2) by lia.
      rewrite Hv2, Ho1 by lia. reflexivity.
  - apply andb_false_iff in Hin.
    assert (Hout : o < (startSample + i) * 4 \/ (startSample + i + 1) * 4 <= o).
    { destruct Hin as [H | H]; [apply Z.leb_gt in H | apply Z.ltb_ge in H]; lia. }
    apply Z.mod_divide in Heven; [| lia]. destruct Heven as [k Hk].
    rewrite Ho2 by lia. rewrite Ho1 by lia. reflexivity.
Qed.

(** The whole loop: the frames from [i] up to the end of the segment, or of
    the mix if that comes first, receive their saturated sums. *)
Lemma mix_frames_ok seg startSample volume fuel :
  0 <= startSample ->
  forall i mix,
    0 <= i -> Buffer_length seg / 4 <= i + Z.of_nat fuel ->
    exists mix',
      mix_frames fuel seg startSample volume defaultOptions
        (Buffer_length seg / 4) (Buffer_length mix / 4) i mix = Ok mix' /\
      Buffer_length mix' = Buffer_length mix /\
      forall o, o mod 2 = 0 ->
        sample_at mix' o
        = if ((startSample + i) * 4 <=? o)
             && (o <? (startSample + Buffer_length seg / 4) * 4)
             && (o <? (Buffer_length mix / 4) * 4)
          then mixed seg startSample volume mix o
          else sample_at mix o.
Proof.
  intros Hstart. induction fuel as [| fuel IH]; intros i mix Hi Hfuel.
  - simpl. exists mix. split; [reflexivity |]. split; [reflexivity |].
    intros o _.
    replace (((startSample + i) * 4 <=? o)
             && (o <? (startSample + Buffer_length seg / 4) * 4))%bool with false;
      [reflexivity |].
    symmetry. apply andb_false_iff.
    destruct ((startSample + i) * 4 <=? o) eqn:E; [right | left; reflexivity].
    apply Z.leb_le in E. apply Z.ltb_ge. lia.
  - cbn [mix_frames].
    destruct ((i <? Buffer_length seg / 4)
              && (startSample + i <? Buffer_length mix / 4))%bool eqn:Hcond.
    + apply andb_true_iff in Hcond. destruct Hcond as [Hc1 Hc2].
      apply Z.ltb_lt in Hc1. apply Z.ltb_lt in Hc2.
      destruct (@mix_frame_ok seg startSample volume i mix Hstart Hi Hc1 Hc2)
        as [mix1 [-> [Hlen1 Hs1]]].
      simpl bind.
      destruct (IH (i + 1) mix1 ltac:(lia) ltac:(lia)) as [mix' [Hrun [Hlen' Hs']]].
      rewrite Hlen1 in Hrun. exists mix'.
      split; [exact Hrun |]. split; [congruence |].
      intros o Heven. rewrite (Hs' o Heven), Hlen1.
      rewrite (Hs1 o Heven).
      destruct ((startSample + i) * 4 <=? o) eqn:E1;
        destruct ((startSample + (i + 1)) * 4 <=? o) eqn:E2;
        destruct (o <? (startSample + i + 1) * 4) eqn:E3;
        destruct (o <? (startSample + Buffer_length seg / 4) * 4) eqn:E4;
        destruct (o <? Buffer_length mix / 4 * 4) eqn:E5;
        simpl; try reflexivity;
        try apply Z.leb_le in E1; try apply Z.leb_gt in E1;
        try apply Z.leb_le in E2; try apply Z.leb_gt in E2;
        try apply Z.ltb_lt in E3; try apply Z.ltb_ge in E3;
        try apply Z.ltb_lt in E4; try apply Z.ltb_ge in E4;
        try apply Z.ltb_lt in E5; try apply Z.ltb_ge in E5;
        try lia.
      * unfold mixed. rewrite (Hs1 o Heven).
        replace (((startSample + i) * 4 <=? o)
                 && (o <? (startSample + i + 1) * 4))%bool with false
          by (symmetry; apply andb_false_iff; right; apply Z.ltb_ge; lia).
        reflexivity.
    + exists mix. split; [reflexivity |]. split; [reflexivity |].
      intros o _.
      replace (((startSample + i) * 4 <=? o)
               && (o <? (startSample + Buffer_length seg / 4) * 4)
               && (o <? Buffer_length mix / 4 * 4))%bool with false;
        [reflexivity |].
      symmetry. apply andb_false_iff in Hcond.
      destruct ((startSample + i) * 4 <=? o) eqn:E1; [| reflexivity].
      destruct (o <? (startSample + Buffer_length seg / 4) * 4) eqn:E2;
        [| reflexivity].
      destruct (o <? Buffer_length mix / 4 * 4) eqn:E3; [| reflexivity].
      apply Z.leb_le in E1. apply Z.ltb_lt in E2. apply Z.ltb_lt in E3.
      destruct Hcond as [H | H]; [apply Z.ltb_ge in H | apply Z.ltb_ge in H]; lia.
Qed.

(** Mixing a segment placed at a frame that is not negative succeeds: every
    sample of the mix that the segment covers becomes the saturated sum of
    what was there and the scaled sample of the segment; the other samples
    stay as they were. *)
Lemma mixAudioSegmentIntoBuffer_ok seg mix startSample volume :
  0 <= startSample ->
  exists mix',
    mixAudioSegmentIntoBuffer seg mix startSample volume defaultOptions = Ok mix' /\
    Buffer_length mix' = Buffer_length mix /\
    forall o, o mod 2 = 0 ->
      sample_at mix' o
      = if (startSample * 4 <=? o)
           && (o <? (startSample + Buffer_length seg / 4) * 4)
           && (o <? (Buffer_length mix / 4) * 4)
        then mixed seg startSample volume mix o
        else sample_at mix o.
Proof.
  intros Hstart. unfold mixAudioSegmentIntoBuffer.
  change (bytesPerSample defaultOptions) with 4.
  assert (Hls : 0 <= Buffer_length seg / 4).
  { apply Z.div_pos; [unfold Buffer_length |]; lia. }
  destruct (@mix_frames_ok seg startSample volume
              (Z.to_nat (Buffer_length seg / 4)) Hstart 0 mix
              ltac:(lia) ltac:(lia)) as [mix' [Hrun [Hlen Hs]]].
  exists mix'. split; [exact Hrun |]. split; [exact Hlen |].
  intros o Heven. rewrite (Hs o Heven).
  replace ((startSample + 0) * 4) with (startSample * 4) by lia.
  reflexivity.
Qed.

(** **** The samples of a 16-bit stereo buffer *)

(** The byte offsets of the two samples of frame [i], and of all samples of
    the whole frames of a buffer, in the order the loops visit them. *)
Definition frame_offsets (i : nat) : list Z :=
  [Z.of_nat i * 4; Z.of_nat i * 4 + 2].

Definition sample_offsets (buffer : Buffer) : list Z :=
  flat_map frame_offsets (seq 0 (Z.to_nat (Buffer_length buffer / 4))).

Lemma in_frame_offsets_from a n o :
  In o (flat_map frame_offsets (seq a n)) ->
  Z.of_nat a * 4 <= o /\ o + 1 < Z.of_nat (a + n) * 4 /\ o mod 2 = 0.
Proof.
  intros H. apply in_flat_map in H. destruct H as [i [Hi Ho]].
  apply in_seq in Hi. destruct Ho as [<- | [<- | []]].
  - split; [lia |]. split; [lia |].
    replace (Z.of_nat i * 4) with (0 + (Z.of_nat i * 2) * 2) by lia.
    rewrite Z.mod_add by lia. reflexivity.
  - split; [lia |]. split; [lia |].
    replace (Z.of_nat i * 4 + 2) with (0 + (Z.of_nat i * 2 + 1) * 2) by lia.
    rewrite Z.mod_add by lia. reflexivity.
Qed.

Lemma in_sample_offsets buffer o :
  In o (sample_offsets buffer) ->
  0 <= o /\ o + 1 < Buffer_length buffer /\ o mod 2 = 0.
Proof.
  intros H. apply in_frame_offsets_from in H. destruct H as [H0 [H1 H2]].
  assert (Hlen : 0 <= Buffer_length buffer) by (unfold Buffer_length; lia).
  pose proof (Z.mul_div_le (Buffer_length buffer) 4 eq_refl) as Hdiv.
  assert (0 <= Buffer_length buffer / 4) by (apply Z.div_pos; lia).
  split; [lia |]. split; [| exact H2]. lia.
Qed.

Lemma NoDup_frame_offsets_from a n :
  NoDup (flat_map frame_offsets (seq a n)).
Proof.
  revert a. induction n as [| n IH]; intros a; simpl; [constructor |].
  constructor.
  - intros [H | H]; [lia |].
    apply in_frame_offsets_from in H. lia.
  - constructor; [| apply IH].
    intros H. apply in_frame_offsets_from in H. lia.
Qed.

Lemma NoDup_sample_offsets buffer : NoDup (sample_offsets buffer).
Proof. apply NoDup_frame_offsets_from. Qed.

(** For 16-bit stereo the nested loops visit exactly these offsets. *)
Lemma for_samples_default (S : Type) buffer (visit : Z -> S -> Result S) s :
  for_samples buffer defaultOptions visit s
  = for_each (sample_offsets buffer) visit s.
Proof.
  unfold for_samples, for_range, sample_offsets.
  change (bytesPerSample defaultOptions) with 4.
  change (channels defaultOptions) with 2.
  rewrite for_from_seq, <- for_each_flat_map.
  apply for_each_ext. intros i s' Hi.
  assert (Hin : forall o, In o (frame_offsets i) -> (o + 1 <? Buffer_length buffer) = true).
  { intros o Ho. apply Z.ltb_lt.
    apply (@in_sample_offsets buffer o).
    unfold sample_offsets. apply in_flat_map. exists i. split; assumption. }
  simpl. replace (Z.of_nat i * 4 + 0) with (Z.of_nat i * 4) by lia.
  rewrite (Hin (Z.of_nat i * 4)) by (left; reflexivity).
  destruct (visit (Z.of_nat i * 4) s'); simpl; [| reflexivity].
  rewrite (Hin (Z.of_nat i * 4 + 2)) by (right; left; reflexivity).
  reflexivity.
Qed.

Lemma even_apart o p :
  o mod 2 = 0 -> p mod 2 = 0 -> o <> p -> p + 1 < o \/ o + 1 < p.
Proof.
  intros Ho Hp Hne.
  assert (Hmod : (o - p) mod 2 = 0).
  { rewrite Zminus_mod, Ho, Hp. reflexivity. }
  apply Z.mod_divide in Hmod; [| lia].
  destruct Hmod as [k Hk]. lia.
Qed.

(** A loop that writes a clamped value at each of a list of distinct sample
    offsets succeeds; the result holds those values and is unchanged at the
    other sample offsets. *)
Lemma for_each_writes (g : Z -> Z) (step : Z -> Buffer -> Result Buffer) offs out0 :
  NoDup offs ->
  (forall o, In o offs -> 0 <= o /\ o + 1 < Buffer_length out0 /\ o mod 2 = 0) ->
  (forall o out, In o offs -> step o out = writeInt16LE out (clamp16 (g o)) o) ->
  exists out,
    for_each offs step out0 = Ok out /\
    Buffer_length out = Buffer_length out0 /\
    (forall o, In o offs -> sample_at out o = clamp16 (g o)) /\
    (forall o, o mod 2 = 0 -> ~ In o offs ->
               readInt16LE out o = readInt16LE out0 o).
Proof.
  intros Hnd. revert out0.
  induction Hnd as [| o offs Hnotin Hnd IH]; intros out0 Hin Hstep; simpl.
  - exists out0. repeat split; auto. intros o [].
  - destruct (Hin o (or_introl eq_refl)) as [Ho [Hlen Heven]].
    rewrite (Hstep o out0 (or_introl eq_refl)).
    destruct (@writeInt16LE_ok out0 (clamp16 (g o)) o (clamp16_range _) Ho Hlen)
      as [out1 [-> [Hlen1 [Hread1 Hother1]]]].
    simpl.
    destruct (IH out1) as [out [Hfor [Hlen2 [Hvals Hframe]]]].
    { intros o' Ho'. rewrite Hlen1. apply Hin. right; exact Ho'. }
    { intros o' out' Ho'. apply Hstep. right; exact Ho'. }
    exists out. split; [exact Hfor |]. split; [congruence |]. split.
    + intros o' [<- | Ho']; [| apply Hvals, Ho'].
      apply sample_at_read. rewrite (Hframe o Heven Hnotin). exact Hread1.
    + intros o' Heven' Hnot.
      rewrite (Hframe o' Heven') by (intros H; apply Hnot; right; exact H).
      apply Hother1. apply even_apart; auto.
Qed.

(** **** Normalization *)

(** The peak the first loop of [normalizeAudio] finds. *)
Definition peak_of (buffer : Buffer) : Z :=
  fold_left (fun peak o => Z.max peak (Z.abs (sample_at buffer o)))
    (sample_offsets buffer) 0.

(** [32767 * 0.95], the level the peak is brought to. *)
Definition headroom : Q := 32767 * (95 # 100).

Lemma find_peak_loop buffer offs peak :
  (forall o, In o offs -> 0 <= o /\ o + 1 < Buffer_length buffer) ->
  for_each offs
    (fun byteIndex peak =>
       value <- readInt16LE buffer byteIndex ;;
       Ok (Z.max peak (Z.abs value)))
    peak
  = Ok (fold_left (fun peak o => Z.max peak (Z.abs (sample_at buffer o))) offs peak).
Proof.
  revert peak. induction offs as [| o offs IH]; intros peak Hin; simpl.
  - reflexivity.
  - destruct (Hin o (or_introl eq_refl)) as [Ho Hlen].
    destruct (readInt16LE_ok buffer Ho Hlen) as [v Hv].
    rewrite Hv, (sample_at_read _ _ Hv). simpl.
    apply IH. intros o' Ho'. apply Hin. right; exact Ho'.
Qed.

Lemma find_peak_default buffer :
  find_peak buffer defaultOptions = Ok (peak_of buffer).
Proof.
  unfold find_peak. rewrite for_samples_default.
  apply find_peak_loop. intros o Ho.
  apply in_sample_offsets in Ho. tauto.
Qed.

Lemma fold_max_ge (f : Z -> Z) offs init :
  init <= fold_left (fun peak o => Z.max peak (f o)) offs init /\
  forall o, In o offs -> f o <= fold_left (fun peak o => Z.max peak (f o)) offs init.
Proof.
  revert init. induction offs as [| p offs IH]; intros init; simpl.
  - split; [lia | intros o []].
  - destruct (IH (Z.max init (f p))) as [Hinit Hall].
    split; [lia |].
    intros o [<- | Ho]; [lia | apply Hall, Ho].
Qed.

Lemma peak_of_bound buffer o :
  In o (sample_offsets buffer) -> Z.abs (sample_at buffer o) <= peak_of buffer.
Proof.
  intros Ho. unfold peak_of.
  apply (fold_max_ge (fun o => Z.abs (sample_at buffer o))), Ho.
Qed.

Lemma Q_of_pos z : 0 < z -> (0 < Q_of z)%Q.
Proof. intros H. unfold Q_of, Qlt; simpl. lia. Qed.

Lemma Q_of_le a b : a <= b -> (Q_of a <= Q_of b)%Q.
Proof. intros H. unfold Q_of, Qle; simpl. lia. Qed.

Lemma scaled_sample_bound s peak :
  0 < peak -> Z.abs s <= peak ->
  -31129 <= Math_round (Q_of s * (headroom / Q_of peak)) <= 31129.
Proof.
  intros Hpeak Hs.
  assert (Hp : (0 < Q_of peak)%Q) by (apply Q_of_pos, Hpeak).
  assert (Hhi : (Q_of s <= Q_of peak)%Q) by (apply Q_of_le; lia).
  assert (Hlo : (- Q_of peak <= Q_of s)%Q).
  { unfold Q_of, Qle; simpl. lia. }
  assert (Hx : (Q_of s * (headroom / Q_of peak)
                == (Q_of s * headroom) / Q_of peak)%Q).
  { field. intros H. rewrite H in Hp. apply (Qlt_irrefl 0 Hp). }
  assert (Hh : (0 <= headroom)%Q) by (unfold headroom; lra).
  assert (Hup : (Q_of s * (headroom / Q_of peak) <= headroom)%Q).
  { rewrite Hx. apply Qle_shift_div_r; [exact Hp |]. nra. }
  assert (Hdown : (- headroom <= Q_of s * (headroom / Q_of peak))%Q).
  { rewrite Hx. apply Qle_shift_div_l; [exact Hp |]. nra. }
  unfold Math_round. split.
  - change (-31129) with (Qfloor (- headroom + (1 # 2))).
    apply Qfloor_resp_le. lra.
  - change 31129 with (Qfloor (headroom + (1 # 2))).
    apply Qfloor_resp_le. lra.
Qed.

(** What [normalizeAudio] returns for a buffer whose peak is positive. *)
Lemma normalizeAudio_ok buffer :
  0 < peak_of buffer ->
  exists normalized,
    normalizeAudio buffer defaultOptions = Ok normalized /\
    Buffer_length normalized = Buffer_length buffer /\
    forall o, In o (sample_offsets buffer) ->
      sample_at normalized o
      = clamp16 (Math_round (Q_of (sample_at buffer o)
                             * (headroom / Q_of (peak_of buffer)))).
Proof.
  intros Hpeak.
  unfold normalizeAudio. rewrite find_peak_default. simpl bind.
  replace (peak_of buffer =? 0) with false by lia.
  destruct (@Buffer_alloc_ok (Buffer_length buffer)) as [out0 [-> Hlen0]].
  { unfold Buffer_length; lia. }
  simpl bind. rewrite for_samples_default.
  destruct (@for_each_writes
              (fun o => Math_round (Q_of (sample_at buffer o)
                                    * (headroom / Q_of (peak_of buffer))))
              (fun byteIndex normalizedBuffer =>
                 sample <- readInt16LE buffer byteIndex ;;
                 writeInt16LE normalizedBuffer
                   (clamp16 (Math_round
                      (Q_of sample * (32767 * (95 # 100) / Q_of (peak_of buffer)))))
                   byteIndex)
              (sample_offsets buffer) out0 (NoDup_sample_offsets buffer))
    as [out [Hfor [Hlen [Hvals _]]]].
  { intros o Ho. rewrite Hlen0. apply in_sample_offsets, Ho. }
  { intros o out' Ho. apply in_sample_offsets in Ho.
    destruct Ho as [Ho [Hlen _]].
    destruct (readInt16LE_ok buffer Ho Hlen) as [v Hv].
    rewrite Hv, (sample_at_read _ _ Hv). reflexivity. }
  exists out. split; [exact Hfor |]. split; [congruence |]. exact Hvals.
Qed.

Lemma peak_of_nonneg buffer : 0 <= peak_of buffer.
Proof.
  unfold peak_of.
  apply (fold_max_ge (fun o => Z.abs (sample_at buffer o))).
Qed.

(** A buffer without a positive peak is returned as it is. *)
Lemma normalizeAudio_total buffer :
  exists normalized,
    normalizeAudio buffer defaultOptions = Ok normalized /\
    Buffer_length normalized = Buffer_length buffer.
Proof.
  destruct (Z.eq_dec (peak_of buffer) 0) as [Hzero | Hpos].
  - exists buffer. split; [| reflexivity].
    unfold normalizeAudio. rewrite find_peak_default. simpl bind.
    rewrite Hzero. reflexivity.
  - pose proof (peak_of_nonneg buffer).
    destruct (@normalizeAudio_ok buffer ltac:(lia)) as [out [Hn [Hlen _]]].
    exists out. split; assumption.
Qed.

(** What [applyCompression] returns. *)
Lemma applyCompression_ok buffer level :
  exists compressed,
    applyCompression buffer level defaultOptions = Ok compressed /\
    Buffer_length compressed = Buffer_length buffer /\
    forall o, In o (sample_offsets buffer) ->
      sample_at compressed o
      = clamp16 (Math_round (compress_sample level (sample_at buffer o))).
Proof.
  unfold applyCompression.
  destruct (@Buffer_alloc_ok (Buffer_length buffer)) as [out0 [-> Hlen0]].
  { unfold Buffer_length; lia. }
  simpl bind. rewrite for_samples_default.
  destruct (@for_each_writes
              (fun o => Math_round (compress_sample level (sample_at buffer o)))
              (fun byteIndex compressedBuffer =>
                 sample <- readInt16LE buffer byteIndex ;;
                 writeInt16LE compressedBuffer
                   (clamp16 (Math_round (compress_sample level sample)))
                   byteIndex)
              (sample_offsets buffer) out0 (NoDup_sample_offsets buffer))
    as [out [Hfor [Hlen [Hvals _]]]].
  { intros o Ho. rewrite Hlen0. apply in_sample_offsets, Ho. }
  { intros o out' Ho. apply in_sample_offsets in Ho.
    destruct Ho as [Ho [Hlen _]].
    destruct (readInt16LE_ok buffer Ho Hlen) as [v Hv].
    rewrite Hv, (sample_at_read _ _ Hv). reflexivity. }
  exists out. split; [exact Hfor |]. split; [congruence |]. exact Hvals.
Qed.

(** **** Normalization in binary64 *)

(** [32767 * 0.95] as a double, 31128.649999999998. *)
Definition headroom64 : float := (32767 * 0x1.e666666666666p-1)%float.

Lemma normalizeAudio_binary64_ok buffer :
  0 < peak_of buffer ->
  exists normalized,
    normalizeAudio_binary64 buffer defaultOptions = Ok normalized /\
    Buffer_length normalized = Buffer_length buffer /\
    forall o, In o (sample_offsets buffer) ->
      sample_at normalized o
      = clamp16 (Math_round_float
                   (float_of_Z (sample_at buffer o)
                    * (headroom64 / float_of_Z (peak_of buffer)))%float).
Proof.
  intros Hpeak.
  unfold normalizeAudio_binary64. rewrite find_peak_default. simpl bind.
  replace (peak_of buffer =? 0) with false by lia.
  destruct (@Buffer_alloc_ok (Buffer_length buffer)) as [out0 [-> Hlen0]].
  { unfold Buffer_length; lia. }
  cbv zeta. simpl bind. rewrite for_samples_default.
  destruct (@for_each_writes
              (fun o => Math_round_float
                          (float_of_Z (sample_at buffer o)
                           * (headroom64 / float_of_Z (peak_of buffer)))%float)
              (fun byteIndex normalizedBuffer =>
                 sample <- readInt16LE buffer byteIndex ;;
                 writeInt16LE normalizedBuffer
                   (clamp16 (Math_round_float
                      (float_of_Z sample
                       * (32767 * 0x1.e666666666666p-1
                          / float_of_Z (peak_of buffer)))%float))
                   byteIndex)
              (sample_offsets buffer) out0 (NoDup_sample_offsets buffer))
    as [out [Hfor [Hlen [Hvals _]]]].
  { intros o Ho. rewrite Hlen0. apply in_sample_offsets, Ho. }
  { intros o out' Ho. apply in_sample_offsets in Ho.
    destruct Ho as [Ho [Hlen _]].
    destruct (readInt16LE_ok buffer Ho Hlen) as [v Hv].
    rewrite Hv, (sample_at_read _ _ Hv). reflexivity. }
  exists out. split; [exact Hfor |]. split; [congruence |]. exact Hvals.
Qed.

(** The integers [z], [z + 1], ... *)
Fixpoint upto (n : nat) (z : Z) : list Z :=
  match n with
  | O => []
  | S n' => z :: upto n' (z + 1)
  end.

Lemma in_upto n z x : z <= x < z + Z.of_nat n -> In x (upto n z).
Proof.
  revert z. induction n as [| n IH]; intros z H; [lia |].
  simpl. destruct (Z.eq_dec z x) as [E | E]; [left; exact E | right].
  apply IH. lia.
Qed.

(** A peak below the headroom gives a factor above 1. *)
Definition amplifies (peak : Z) : bool :=
  implb (float_of_Z peak <? headroom64)%float
        (1 <? headroom64 / float_of_Z peak)%float.

(** Every peak a 16-bit buffer can have is tried. *)
Lemma amplifies_every_peak : forallb amplifies (upto (Z.to_nat 32768) 1) = true.
Proof. vm_compute. reflexivity. Qed.

Lemma peak_of_le buffer : peak_of buffer <= 32768.
Proof.
  unfold peak_of.
  generalize (sample_offsets buffer) as offs.
  assert (H : forall offs init, init <= 32768 ->
            fold_left (fun peak o => Z.max peak (Z.abs (sample_at buffer o)))
              offs init <= 32768).
  { induction offs as [| o offs IH]; intros init Hinit; simpl; [exact Hinit |].
    apply IH. pose proof (sample_at_range buffer o). lia. }
  intros offs. apply H. lia.
Qed.

(** C1, as the code has it.  When the peak is positive, [normalizeAudio]
    multiplies every sample by the double [32767 * 0.95 / peak], rounds the
    product to the nearest integer and clamps it; the factor is not capped
    at 1: it is greater than 1 whenever the peak is below [32767 * 0.95],
    so a quiet buffer is amplified. *)
Theorem normalizeAudio_scales_peak_to_headroom buffer :
  0 < peak_of buffer ->
  let factor := (headroom64 / float_of_Z (peak_of buffer))%float in
  exists normalized,
    normalizeAudio_binary64 buffer defaultOptions = Ok normalized /\
    Buffer_length normalized = Buffer_length buffer /\
    (forall o, In o (sample_offsets buffer) ->
       sample_at normalized o
       = Z.max (-32768)
           (Z.min 32767
              (Math_round_float (float_of_Z (sample_at buffer o) * factor)))) /\
    ((float_of_Z (peak_of buffer) <? headroom64)%float = true ->
     (1 <? factor)%float = true).
Proof.
  intros Hpeak factor.
  destruct (@normalizeAudio_binary64_ok buffer Hpeak) as [out [Hn [Hlen Hvals]]].
  exists out. split; [exact Hn |]. split; [exact Hlen |]. split.
  - intros o Ho. rewrite (Hvals o Ho). reflexivity.
  - intros Hquiet. unfold factor.
    pose proof (peak_of_le buffer) as Hle.
    pose proof (proj1 (forallb_forall amplifies _) amplifies_every_peak
                  (peak_of buffer)) as Hall.
    unfold amplifies in Hall. rewrite Hquiet in Hall. apply Hall.
    apply in_upto. lia.
Qed.

(** One stereo frame holding the samples 100 and -100. *)
Definition quiet_frame : Buffer := [x64; x00; x9c; xff].

Lemma normalizeAudio_scales_quiet_frame :
  0 < peak_of quiet_frame /\
  exists normalized,
    normalizeAudio_binary64 quiet_frame defaultOptions = Ok normalized /\
    map (sample_at normalized) [0; 2] = [31129; -31129].
Proof.
  assert (Hpeak : 0 < peak_of quiet_frame) by reflexivity.
  split; [exact Hpeak |].
  destruct (@normalizeAudio_scales_peak_to_headroom quiet_frame Hpeak)
    as [normalized [Hn [_ [Hvals _]]]].
  exists normalized. split; [exact Hn |].
  simpl map.
  rewrite (Hvals 0 (or_introl eq_refl)).
  rewrite (Hvals 2 (or_intror (or_introl eq_refl))).
  vm_compute. reflexivity.
Defined.

(** The peak of [quiet_frame] is 100, well below [32767 * 0.95]; a factor
    capped at 1 would leave its samples as they are, but [normalizeAudio]
    raises them to 31129 and -31129. *)
Lemma quiet_frame_is_amplified :
  peak_of quiet_frame = 100 /\
  map (sample_at quiet_frame) [0; 2] = [100; -100] /\
  Math_round (Q_of 100 * Qmin 1 (headroom / Q_of 100)) = 100 /\
  normalizeAudio_binary64 quiet_frame defaultOptions
    = Ok [x99; x79; x67; x86] /\
  map (sample_at [x99; x79; x67; x86]) [0; 2] = [31129; -31129].
Proof. repeat split. Qed.

(** One stereo frame holding the samples 95 and 50.  The exact product
    [50 * 31128.65 / 95] is 16383.5, which rounds to 16384; the product of
    the doubles lies just below it and rounds to 16383. *)
Definition two_to_one_frame : Buffer := [x5f; x00; x32; x00].

Example binary64_rounds_below_the_half :
  normalizeAudio_binary64 two_to_one_frame defaultOptions
    = Ok [x99; x79; xff; x3f] /\
  map (sample_at [x99; x79; xff; x3f]) [0; 2] = [31129; 16383] /\
  normalizeAudio two_to_one_frame defaultOptions = Ok [x99; x79; x00; x40] /\
  map (sample_at [x99; x79; x00; x40]) [0; 2] = [31129; 16384].
Proof. repeat split. Qed.

(** **** The whole mix *)

Lemma sample_position_nonneg (ms : Q) (rate : Z) :
  (0 <= ms)%Q -> 0 <= rate -> (0 <= (ms / 1000) * Q_of rate)%Q.
Proof.
  intros Hms Hrate.
  apply Qmult_le_0_compat.
  - apply Qle_shift_div_l; [reflexivity | lra].
  - change 0%Q with (Q_of 0). apply Q_of_le, Hrate.
Qed.

Lemma mix_segment_ok characterEvents segment mix :
  (0 <= as_startTime segment)%Q ->
  exists mix',
    mix_segment characterEvents defaultOptions segment mix = Ok mix' /\
    Buffer_length mix' = Buffer_length mix.
Proof.
  intros Hstart. unfold mix_segment.
  match goal with
  | |- context [mixAudioSegmentIntoBuffer ?seg mix ?start ?vol defaultOptions] =>
      destruct (@mixAudioSegmentIntoBuffer_ok seg mix start vol)
        as [mix' [Hrun [Hlen _]]]
  end.
  { change 0 with (Qfloor 0). apply Qfloor_resp_le.
    apply sample_position_nonneg; [exact Hstart | discriminate]. }
  exists mix'. split; assumption.
Qed.

(** With at least one track, a duration and segment starts that are not
    negative, [mixConversation] returns a master buffer of the size the
    duration asks for. *)
Lemma mixConversation_ok tracks timeline options :
  tracks <> [] ->
  (0 <= cv_totalDuration timeline)%Q ->
  (forall track segment,
      In track tracks -> In segment (tr_segments track) ->
      (0 <= as_startTime segment)%Q) ->
  exists master,
    mixConversation tracks timeline options = Ok master /\
    Buffer_length master
    = Math_ceil ((cv_totalDuration timeline / 1000) * Q_of 44100)%Q * 4.
Proof.
  intros Htracks Hdur Hstarts. unfold mixConversation.
  destruct tracks as [| track0 tracks0] eqn:Etracks; [congruence |].
  rewrite <- Etracks in *. clear Etracks Htracks.
  change (bytesPerSample defaultOptions) with 4.
  change (sampleRate defaultOptions) with 44100.
  set (size := Math_ceil ((cv_totalDuration timeline / 1000) * Q_of 44100)%Q * 4).
  assert (Hsize : 0 <= size).
  { unfold size, Math_ceil.
    assert (0 <= Qceiling (cv_totalDuration timeline / 1000 * Q_of 44100)).
    { change 0 with (Qceiling 0). apply Qceiling_resp_le.
      apply sample_position_nonneg; [exact Hdur | discriminate]. }
    lia. }
  destruct (Buffer_alloc_ok Hsize) as [mix0 [-> Hlen0]]. simpl bind.
  destruct (@for_each_inv _ _ (fun b => Buffer_length b = size) tracks
              (fun track mixBuffer =>
                 mixTrackIntoBuffer track timeline defaultOptions mixBuffer)
              mix0 Hlen0) as [mix1 [-> Hlen1]].
  { intros track mix Htrack Hmix. unfold mixTrackIntoBuffer.
    apply for_each_inv; [exact Hmix |].
    intros segment mix' Hseg Hmix'.
    destruct (@mix_segment_ok
                (filter (fun event =>
                           String.eqb (ev_characterId event) (tr_characterId track))
                   (events timeline))
                segment mix' (Hstarts track segment Htrack Hseg))
      as [mix'' [Hrun Hlen]].
    exists mix''. split; [exact Hrun | congruence]. }
  simpl bind.
  assert (Hnorm : exists mix2,
             (if normalizeAudio_opt options
              then normalizeAudio mix1 defaultOptions else Ok mix1) = Ok mix2 /\
             Buffer_length mix2 = size).
  { destruct (normalizeAudio_opt options).
    - destruct (normalizeAudio_total mix1) as [mix2 [Hn Hlen]].
      exists mix2. split; [exact Hn | congruence].
    - exists mix1. split; [reflexivity | exact Hlen1]. }
  destruct Hnorm as [mix2 [-> Hlen2]]. simpl bind.
  assert (Hcomp : exists mix3,
             (if Qltb 0 (compressionLevel options)
              then applyCompression mix2 (compressionLevel options) defaultOptions
              else Ok mix2) = Ok mix3 /\
             Buffer_length mix3 = size).
  { destruct (Qltb 0 (compressionLevel options)).
    - destruct (applyCompression_ok mix2 (compressionLevel options))
        as [mix3 [Hc [Hlen _]]].
      exists mix3. split; [exact Hc | congruence].
    - exists mix2. split; [reflexivity | exact Hlen2]. }
  destruct Hcomp as [mix3 [-> Hlen3]]. simpl bind.
  destruct (spatialAudioEnabled options); simpl.
  - unfold applySpatialAudio. simpl negb. cbv iota.
    destruct (@Buffer_alloc_ok (Buffer_length mix3)) as [copy [-> Hlenc]].
    { lia. }
    simpl. eexists. split; [reflexivity |].
    unfold Buffer_copy, Buffer_length in *.
    rewrite length_app, length_firstn, length_skipn. lia.
  - exists mix3. split; [reflexivity | exact Hlen3].
Qed.

(** C5.  Every write of the mixer stores a value clamped to
    [-32768, 32767].  Mixing a segment into the master stores, at every
    sample the segment covers, the saturated sum of the sample already there
    and the scaled sample of the segment; normalizing and compressing store
    clamped values as well; none of the three steps, for any options, ever
    attempts a write outside the 16-bit range; the mixer returns a master
    buffer whenever there is a track and no duration or segment start is
    negative; and every sample of a master buffer it returns lies in the
    range. *)
Theorem mixer_samples_saturate :
  (forall seg mix startSample volume,
      0 <= startSample ->
      exists mix',
        mixAudioSegmentIntoBuffer seg mix startSample volume defaultOptions
        = Ok mix' /\
        forall o, o mod 2 = 0 ->
          -32768 <= sample_at mix' o <= 32767 /\
          sample_at mix' o
          = if (startSample * 4 <=? o)
               && (o <? (startSample + Buffer_length seg / 4) * 4)
               && (o <? (Buffer_length mix / 4) * 4)
            then Z.max (-32768)
                   (Z.min 32767
                      (sample_at mix o
                       + Math_round (Q_of (sample_at seg (o - startSample * 4))
                                     * volume)))
            else sample_at mix o) /\
  (forall buffer,
      exists normalized,
        normalizeAudio buffer defaultOptions = Ok normalized /\
        forall o, -32768 <= sample_at normalized o <= 32767) /\
  (forall buffer level,
      exists compressed,
        applyCompression buffer level defaultOptions = Ok compressed /\
        forall o, In o (sample_offsets buffer) ->
          -32768 <= sample_at compressed o <= 32767 /\
          sample_at compressed o
          = Z.max (-32768)
              (Z.min 32767
                 (Math_round (compress_sample level (sample_at buffer o))))) /\
  (forall seg mix startSample volume options,
      no_value_error (mixAudioSegmentIntoBuffer seg mix startSample volume options)) /\
  (forall buffer options, no_value_error (normalizeAudio buffer options)) /\
  (forall buffer level options,
      no_value_error (applyCompression buffer level options)) /\
  (forall tracks timeline options,
      no_value_error (mixConversation tracks timeline options) /\
      (tracks <> [] ->
       (0 <= cv_totalDuration timeline)%Q ->
       (forall track segment,
           In track tracks -> In segment (tr_segments track) ->
           (0 <= as_startTime segment)%Q) ->
       exists master, mixConversation tracks timeline options = Ok master) /\
      forall master,
        mixConversation tracks timeline options = Ok master ->
        forall offset, -32768 <= sample_at master offset <= 32767).
Proof.
  split.
  { intros seg mix startSample volume Hstart.
    destruct (@mixAudioSegmentIntoBuffer_ok seg mix startSample volume Hstart)
      as [mix' [Hrun [_ Hs]]].
    exists mix'. split; [exact Hrun |].
    intros o Heven. split; [apply sample_at_range | apply Hs, Heven]. }
  split.
  { intros buffer. destruct (normalizeAudio_total buffer) as [out [Hn _]].
    exists out. split; [exact Hn |]. intros o. apply sample_at_range. }
  split.
  { intros buffer level.
    destruct (applyCompression_ok buffer level) as [out [Hc [_ Hvals]]].
    exists out. split; [exact Hc |].
    intros o Ho. split; [apply sample_at_range | apply Hvals, Ho]. }
  split; [intros; apply nve_mixAudioSegmentIntoBuffer |].
  split; [intros; apply nve_normalizeAudio |].
  split; [intros; apply nve_applyCompression |].
  intros tracks timeline options.
  split; [apply nve_mixConversation |].
  split.
  { intros Htracks Hdur Hstarts.
    destruct (@mixConversation_ok tracks timeline options Htracks Hdur Hstarts)
      as [master [Hm _]].
    exists master. exact Hm. }
  intros master _ offset. apply sample_at_range.
Qed.

(** **** After normalization *)

Lemma sample_offsets_length a b :
  Buffer_length a = Buffer_length b -> sample_offsets a = sample_offsets b.
Proof. unfold sample_offsets. intros ->. reflexivity. Qed.

Lemma fold_max_attained (f : Z -> Z) offs init :
  fold_left (fun peak o => Z.max peak (f o)) offs init = init \/
  exists o, In o offs /\
    fold_left (fun peak o => Z.max peak (f o)) offs init = f o.
Proof.
  revert init. induction offs as [| p offs IH]; intros init; simpl.
  - left; reflexivity.
  - destruct (IH (Z.max init (f p))) as [E | [o [Ho E]]].
    + destruct (Z.max_spec init (f p)) as [[_ Em] | [_ Em]].
      * right. exists p. split; [left; reflexivity | congruence].
      * left. congruence.
    + right. exists o. split; [right; exact Ho | exact E].
Qed.

Lemma fold_max_le (f : Z -> Z) offs init bound :
  init <= bound -> (forall o, In o offs -> f o <= bound) ->
  fold_left (fun peak o => Z.max peak (f o)) offs init <= bound.
Proof.
  revert init. induction offs as [| p offs IH]; intros init Hinit Hall; simpl;
    [exact Hinit |].
  apply IH.
  - pose proof (Hall p (or_introl eq_refl)). lia.
  - intros o Ho. apply Hall. right; exact Ho.
Qed.

Lemma peak_attained buffer :
  0 < peak_of buffer ->
  exists o, In o (sample_offsets buffer) /\
    Z.abs (sample_at buffer o) = peak_of buffer.
Proof.
  intros Hpeak. unfold peak_of in *.
  destruct (fold_max_attained (fun o => Z.abs (sample_at buffer o))
              (sample_offsets buffer) 0) as [E | [o [Ho E]]]; [lia |].
  exists o. split; [exact Ho | symmetry; exact E].
Qed.

Lemma scaled_peak s peak :
  0 < peak -> Z.abs s = peak ->
  Z.abs (Math_round (Q_of s * (headroom / Q_of peak))) = 31129.
Proof.
  intros Hpeak Hs.
  assert (Hp : (0 < Q_of peak)%Q) by (apply Q_of_pos, Hpeak).
  assert (Hne : ~ (Q_of peak == 0)%Q) by lra.
  destruct (Z.abs_spec s) as [[Hs0 Habs] | [Hs0 Habs]].
  - assert (E : (Q_of s * (headroom / Q_of peak) == headroom)%Q).
    { replace s with peak by lia. field. exact Hne. }
    unfold Math_round. rewrite E. reflexivity.
  - assert (E : (Q_of s * (headroom / Q_of peak) == - headroom)%Q).
    { replace s with (- peak) by lia. unfold Q_of.
      rewrite inject_Z_opp. field. exact Hne. }
    unfold Math_round. rewrite E. reflexivity.
Qed.

Lemma rescaled_sample s :
  Z.abs s <= 31129 -> Math_round (Q_of s * (headroom / Q_of 31129)) = s.
Proof.
  intros Hs. unfold Math_round, headroom. apply Qfloor_unique.
  - assert (Hlo : (- Q_of 31129 <= Q_of s)%Q)
      by (unfold Q_of, Qle; simpl; lia).
    assert (Hhi : (Q_of s <= Q_of 31129)%Q)
      by (unfold Q_of, Qle; simpl; lia).
    assert (E : (Q_of s * (32767 * (95 # 100) / Q_of 31129)
                 == Q_of s * (3112865 # 3112900))%Q) by reflexivity.
    rewrite E. unfold Q_of in *. change (inject_Z 31129) with 31129%Q in *.
    lra.
  - assert (Hlo : (- Q_of 31129 <= Q_of s)%Q)
      by (unfold Q_of, Qle; simpl; lia).
    assert (Hhi : (Q_of s <= Q_of 31129)%Q)
      by (unfold Q_of, Qle; simpl; lia).
    assert (E : (Q_of s * (32767 * (95 # 100) / Q_of 31129)
                 == Q_of s * (3112865 # 3112900))%Q) by reflexivity.
    rewrite E, inject_Z_plus. unfold Q_of in *.
    change (inject_Z 31129) with 31129%Q in *. change (inject_Z 1) with 1%Q.
    lra.
Qed.

(** X20.  After normalization the peak is exactly 31129, the rounded
    95 % of full scale, whatever the positive peak before; so normalizing
    the result again changes none of its samples. *)
Theorem normalization_settles buffer :
  0 < peak_of buffer ->
  exists normalized again,
    normalizeAudio buffer defaultOptions = Ok normalized /\
    peak_of normalized = 31129 /\
    normalizeAudio normalized defaultOptions = Ok again /\
    Buffer_length again = Buffer_length buffer /\
    forall o, In o (sample_offsets buffer) ->
      sample_at again o = sample_at normalized o.
Proof.
  intros Hpeak.
  destruct (@normalizeAudio_ok buffer Hpeak) as [n1 [Hn1 [Hlen1 Hvals1]]].
  pose proof (sample_offsets_length _ _ Hlen1) as Hoffs.
  assert (Hbound : forall o, In o (sample_offsets buffer) ->
            Z.abs (sample_at n1 o) <= 31129).
  { intros o Ho. rewrite (Hvals1 o Ho).
    pose proof (@scaled_sample_bound _ _ Hpeak (@peak_of_bound buffer o Ho)).
    unfold clamp16. lia. }
  assert (Hp1 : peak_of n1 = 31129).
  { apply Z.le_antisymm.
    - unfold peak_of. apply fold_max_le; [lia |].
      intros o Ho. rewrite Hoffs in Ho. apply Hbound, Ho.
    - destruct (@peak_attained buffer Hpeak) as [o [Ho Habs]].
      pose proof (@peak_of_bound n1 o) as Hle. rewrite Hoffs in Hle.
      specialize (Hle Ho). rewrite (Hvals1 o Ho) in Hle.
      pose proof (@scaled_peak _ _ Hpeak Habs) as Hs.
      unfold clamp16 in Hle. lia. }
  destruct (@normalizeAudio_ok n1) as [n2 [Hn2 [Hlen2 Hvals2]]]; [lia |].
  exists n1, n2. split; [exact Hn1 |]. split; [exact Hp1 |].
  split; [exact Hn2 |]. split; [congruence |].
  intros o Ho. rewrite <- Hoffs in Ho. rewrite (Hvals2 o Ho), Hp1.
  rewrite Hoffs in Ho. rewrite (@rescaled_sample _ (Hbound o Ho)).
  apply clamp16_id. pose proof (Hbound o Ho). lia.
Qed.

Lemma normalization_settles_quiet_frame :
  exists normalized again,
    normalizeAudio quiet_frame defaultOptions = Ok normalized /\
    peak_of normalized = 31129 /\
    normalizeAudio normalized defaultOptions = Ok again /\
    Buffer_length again = Buffer_length quiet_frame /\
    forall o, In o (sample_offsets quiet_frame) ->
      sample_at again o = sample_at normalized o.
Proof.
  apply (@normalization_settles quiet_frame). reflexivity.
Defined.

(** **** Compression *)

Lemma compress_sample_nonneg level s :
  (0 <= level <= 1)%Q -> 0 <= s ->
  (0 <= compress_sample level s <= Q_of s)%Q.
Proof.
  intros [Hl0 Hl1] Hs. unfold compress_sample. cbv zeta.
  rewrite Z.abs_eq by lia.
  assert (Hq : (0 <= Q_of s)%Q) by (unfold Q_of, Qle; simpl; lia).
  destruct (Qltb (32767 * (1 - level)) (Q_of s)) eqn:E; [| split; lra].
  apply Qltb_iff in E.
  replace (s >=? 0) with true by lia.
  set (threshold := (32767 * (1 - level))%Q) in *.
  set (ratio := (1 + level * 3)%Q).
  assert (Hr : (0 < ratio)%Q) by (unfold ratio; lra).
  assert (Ho : (0 <= (Q_of s - threshold) / ratio <= Q_of s - threshold)%Q).
  { split.
    - apply Qle_shift_div_l; [exact Hr | lra].
    - apply Qle_shift_div_r; [exact Hr |].
      assert (0 <= (Q_of s - threshold) * (level * 3))%Q
        by (apply Qmult_le_0_compat; lra).
      unfold ratio. lra. }
  assert (Ht : (0 <= threshold)%Q) by (unfold threshold; lra).
  split; lra.
Qed.

Lemma compress_sample_neg level s :
  (0 <= level <= 1)%Q -> s < 0 ->
  (Q_of s <= compress_sample level s <= 0)%Q.
Proof.
  intros [Hl0 Hl1] Hs. unfold compress_sample. cbv zeta.
  assert (Ha : (Q_of (Z.abs s) == - Q_of s)%Q).
  { rewrite Z.abs_neq by lia. unfold Q_of.
    rewrite inject_Z_opp. reflexivity. }
  assert (Hq : (Q_of s <= 0)%Q) by (unfold Q_of, Qle; simpl; lia).
  destruct (Qltb (32767 * (1 - level)) (Q_of (Z.abs s))) eqn:E;
    [| split; lra].
  apply Qltb_iff in E.
  replace (s >=? 0) with false by lia.
  set (threshold := (32767 * (1 - level))%Q) in *.
  set (ratio := (1 + level * 3)%Q).
  set (a := Q_of (Z.abs s)) in *.
  assert (Hr : (0 < ratio)%Q) by (unfold ratio; lra).
  assert (Ho : (0 <= (a - threshold) / ratio <= a - threshold)%Q).
  { split.
    - apply Qle_shift_div_l; [exact Hr | lra].
    - apply Qle_shift_div_r; [exact Hr |].
      assert (0 <= (a - threshold) * (level * 3))%Q
        by (apply Qmult_le_0_compat; lra).
      unfold ratio. lra. }
  assert (Ht : (0 <= threshold)%Q) by (unfold threshold; lra).
  split; lra.
Qed.

Lemma compress_sample_below level s :
  (Q_of (Z.abs s) <= 32767 * (1 - level))%Q -> compress_sample level s = Q_of s.
Proof.
  intros H. unfold compress_sample. cbv zeta.
  rewrite (proj2 (Qltb_false_iff _ _) H). reflexivity.
Qed.

(** X21.  For a compression level between 0 and 1, compression never
    makes a sample louder and never changes its sign, and it leaves every
    sample unchanged whose magnitude is at most the threshold
    [32767 * (1 - level)]. *)
Theorem compression_never_amplifies buffer (level : Q) :
  (0 <= level <= 1)%Q ->
  exists compressed,
    applyCompression buffer level defaultOptions = Ok compressed /\
    Buffer_length compressed = Buffer_length buffer /\
    forall o, In o (sample_offsets buffer) ->
      Z.abs (sample_at compressed o) <= Z.abs (sample_at buffer o) /\
      (0 <= sample_at buffer o -> 0 <= sample_at compressed o) /\
      (sample_at buffer o <= 0 -> sample_at compressed o <= 0) /\
      ((Q_of (Z.abs (sample_at buffer o)) <= 32767 * (1 - level))%Q ->
       sample_at compressed o = sample_at buffer o).
Proof.
  intros Hlevel.
  destruct (applyCompression_ok buffer level) as [out [Hc [Hlen Hvals]]].
  exists out. split; [exact Hc |]. split; [exact Hlen |].
  intros o Ho. rewrite (Hvals o Ho).
  pose proof (sample_at_range buffer o) as Hrange.
  set (s := sample_at buffer o) in *.
  assert (Hround : (0 <= s -> 0 <= Math_round (compress_sample level s) <= s) /\
                   (s < 0 -> s <= Math_round (compress_sample level s) <= 0)).
  { split; intros Hs.
    - destruct (compress_sample_nonneg Hlevel Hs) as [H0 H1].
      apply Math_round_between; assumption.
    - destruct (compress_sample_neg Hlevel Hs) as [H0 H1].
      apply Math_round_between; assumption. }
  destruct Hround as [Hpos Hneg].
  split; [| split; [| split]].
  - unfold clamp16. lia.
  - unfold clamp16. lia.
  - unfold clamp16. lia.
  - intros Hbelow. rewrite (@compress_sample_below level s Hbelow).
    unfold Q_of. rewrite Math_round_Z. apply clamp16_id. lia.
Qed.

(** One stereo frame holding the samples 32000 and -100. *)
Definition loud_and_quiet : Buffer := [x00; x7d; x9c; xff].

Lemma compression_on_loud_and_quiet :
  (0 <= 5 # 10 <= 1)%Q /\
  exists compressed,
    applyCompression loud_and_quiet (5 # 10) defaultOptions = Ok compressed /\
    map (sample_at compressed) [0; 2] = [22630; -100].
Proof.
  assert (Hlevel : (0 <= 5 # 10 <= 1)%Q) by (split; discriminate).
  split; [exact Hlevel |].
  destruct (@compression_never_amplifies loud_and_quiet (5 # 10) Hlevel)
    as [compressed [Hc _]].
  exists compressed. split; [exact Hc |].
  vm_compute in Hc. inversion Hc. reflexivity.
Defined.

(** **** A segment that starts before time 0 *)

Lemma mix_channel_before_start seg volume mixIndex segmentIndex mix :
  mixIndex < 0 ->
  mix_channel seg volume mixIndex segmentIndex 0 mix
  = Throw ERR_OUT_OF_RANGE_offset.
Proof.
  intros H. unfold mix_channel.
  assert (E : readInt16LE mix (mixIndex + Z.of_nat 0 * 2)
              = Throw ERR_OUT_OF_RANGE_offset).
  { unfold readInt16LE, byte_at.
    assert (E : (mixIndex + Z.of_nat 0 * 2 <? 0) = true)
      by (apply Z.ltb_lt; simpl; lia).
    rewrite E. reflexivity. }
  cbv zeta. rewrite E. reflexivity.
Qed.

Lemma mix_before_start seg mix startSample volume :
  startSample < 0 -> 4 <= Buffer_length seg ->
  mixAudioSegmentIntoBuffer seg mix startSample volume defaultOptions
  = Throw ERR_OUT_OF_RANGE_offset.
Proof.
  intros Hstart Hseg. unfold mixAudioSegmentIntoBuffer.
  change (bytesPerSample defaultOptions) with 4.
  assert (Hn : 1 <= Buffer_length seg / 4)
    by (apply Z.div_le_lower_bound; lia).
  assert (Hm : 0 <= Buffer_length mix / 4)
    by (apply Z.div_pos; unfold Buffer_length; lia).
  destruct (Z.to_nat (Buffer_length seg / 4)) as [| fuel] eqn:Ef; [lia |].
  cbn [mix_frames].
  replace (0 <? Buffer_length seg / 4) with true by lia.
  replace (startSample + 0 <? Buffer_length mix / 4) with true by lia.
  cbn [andb]. unfold mix_frame.
  change (bytesPerSample defaultOptions) with 4.
  change (Z.to_nat (channels defaultOptions)) with 2%nat.
  assert (Hmix : 0 <= Buffer_length mix) by (unfold Buffer_length; lia).
  replace ((startSample + 0) * 4 + 4 <=? Buffer_length mix) with true by lia.
  replace (0 * 4 + 4 <=? Buffer_length seg) with true by lia.
  cbn [andb]. unfold for_range. cbn [for_from].
  rewrite mix_channel_before_start by lia. reflexivity.
Qed.

(** X22.  A segment that starts before time 0 and holds at least one
    frame of audio makes the mixer throw: the first frame is read from the
    mix buffer at a negative offset. *)
Theorem segment_before_zero_throws (characterEvents : list TimelineEvent)
  (segment : AudioSegment) (mixBuffer : Buffer) :
  (as_startTime segment < 0)%Q ->
  4 <= Buffer_length (as_audioBuffer segment) ->
  mix_segment characterEvents defaultOptions segment mixBuffer
  = Throw ERR_OUT_OF_RANGE_offset.
Proof.
  intros Hstart Hlen. unfold mix_segment. cbv zeta.
  apply mix_before_start; [| exact Hlen].
  unfold Math_floor.
  assert (H : (as_startTime segment / 1000 * Q_of (sampleRate defaultOptions)
               < 0)%Q).
  { assert (E : (as_startTime segment / 1000
                 * Q_of (sampleRate defaultOptions)
                 == as_startTime segment * (441 # 10))%Q)
      by (unfold Q_of; cbn [sampleRate defaultOptions];
          change (inject_Z 44100) with 44100%Q; field).
    rewrite E. lra. }
  pose proof (Qfloor_le (as_startTime segment / 1000
                         * Q_of (sampleRate defaultOptions))) as Hf.
  assert (Hz : (inject_Z (Qfloor (as_startTime segment / 1000
                                  * Q_of (sampleRate defaultOptions))) < 0)%Q)
    by lra.
  change 0%Q with (inject_Z 0) in Hz. rewrite <- Zlt_Qlt in Hz. exact Hz.
Qed.

Definition early_segment : AudioSegment :=
  {| as_lineId := "l1"; as_startTime := -1; as_endTime := 1000;
     as_text := "hello";
     as_emotion := {| type := neutral; intensity := 5 # 10; variations := [] |};
     as_audioBuffer := quiet_frame |}.

Lemma early_segment_throws :
  mix_segment [] defaultOptions early_segment (repeat x00 8)
  = Throw ERR_OUT_OF_RANGE_offset.
Proof.
  apply (@segment_before_zero_throws [] early_segment (repeat x00 8));
    reflexivity.
Defined.

End MixerFacts.

End AudioMixer.

(* ===================================================================== *)
(** * [ConversationManager] *)
(* ===================================================================== *)

Module ConversationManager.
Import JS VoiceInterface EmotionTransitionEngine ConversationInterface.
Local Open Scope Q_scope.
Local Open Scope string_scope.

(** [text.split(/\s+/).length]. *)
Definition wordCount (text : string) : nat := List.length (split text re_spaces).

Definition Q_of_nat (n : nat) : Q := inject_Z (Z.of_nat n).

Definition validateConversationConfig (config : ConversationConfig) : Result unit :=
  match characters config with
  | [] => Throw (Error "Conversation must have at least one character")
  | _ =>
      match dialogue config with
      | [] => Throw (Error "Conversation must have at least one dialogue line")
      | _ =>
          let characterIds := map ch_id (characters config) in
          _ <- for_each (dialogue config)
                 (fun line _ =>
                    if existsb (String.eqb (characterId line)) characterIds
                    then Ok tt
                    else Throw (Error ("Dialogue line references unknown character: "
                                       ++ characterId line)))
                 tt ;;
          let lineIds := map id (dialogue config) in
          for_each (dialogue config)
            (fun line _ =>
               match overlap (timing line) with
               | Some ov =>
                   match truthy_string (targetLineId ov) with
                   | Some target =>
                       if existsb (String.eqb target) lineIds then Ok tt
                       else Throw (Error ("Overlap target line not found: " ++ target))
                   | None => Ok tt
                   end
               | None => Ok tt
               end)
            tt
      end
  end.

(** Assignments to the properties of [line.timing]. *)
Definition set_pauseBefore (line : DialogueLine) (p : Q) : DialogueLine :=
  let t := timing line in
  {| id := id line; characterId := characterId line; text := text line;
     emotion := emotion line; emotionTransitions := emotionTransitions line;
     timing := {| startTime := startTime t; endTime := endTime t;
                  pauseBefore := Some p; pauseAfter := pauseAfter t;
                  overlap := overlap t; speedModifier := speedModifier t |} |}.

Definition set_startTime (line : DialogueLine) (s : Q) : DialogueLine :=
  let t := timing line in
  {| id := id line; characterId := characterId line; text := text line;
     emotion := emotion line; emotionTransitions := emotionTransitions line;
     timing := {| startTime := s; endTime := endTime t;
                  pauseBefore := pauseBefore t; pauseAfter := pauseAfter t;
                  overlap := overlap t; speedModifier := speedModifier t |} |}.

Definition set_endTime (line : DialogueLine) (e : Q) : DialogueLine :=
  let t := timing line in
  {| id := id line; characterId := characterId line; text := text line;
     emotion := emotion line; emotionTransitions := emotionTransitions line;
     timing := {| startTime := startTime t; endTime := Some e;
                  pauseBefore := pauseBefore t; pauseAfter := pauseAfter t;
                  overlap := overlap t; speedModifier := speedModifier t |} |}.

(** The body of the loop of [processDialogueTiming] for [processed[i]]: the
    array after the assignments to the line, and the new [currentTime].
    [lineEnd] is the value of [line.timing.endTime], which the overlap
    branch does not change. *)
Definition timing_step (globalSettings : ConversationGlobalSettings) (i : nat)
  (line : DialogueLine) (processed : list DialogueLine) (currentTime : Q)
  : list DialogueLine * Q :=
  let estimatedDuration := (Q_of_nat (wordCount (text line)) / 3) * 1000 in
  let pause :=
    match pauseBefore (timing line) with
    | None => if (i =? 0)%nat then 0 else pauseBetweenLines globalSettings
    | Some p => p
    end in
  let line := set_pauseBefore line pause in
  let line := set_startTime line (currentTime + pause) in
  let lineEnd := startTime (timing line) + estimatedDuration in
  let lineEnd :=
    match speedModifier (timing line) with
    | Some speed =>
        if truthy speed then
          let adjustedDuration := estimatedDuration / speed in
          startTime (timing line) + adjustedDuration
        else lineEnd
    | None => lineEnd
    end in
  let line := set_endTime line lineEnd in
  let processed := replace_nth i line processed in
  let line :=
    match overlap (timing line) with
    | Some ov =>
        match (if enabled ov then truthy_string (targetLineId ov) else None) with
        | Some target =>
            match find (fun l => String.eqb (id l) target) processed with
            | Some targetLine =>
                if truthy_opt (endTime (timing targetLine))
                then set_startTime line
                       (startTime (timing targetLine) + overlapStart ov)
                else line
            | None => line
            end
        | None => line
        end
    | None => line
    end in
  let processed := replace_nth i line processed in
  (processed, lineEnd + or_default (pauseAfter (timing line)) 0).

Fixpoint timing_loop (globalSettings : ConversationGlobalSettings) (fuel i : nat)
  (processed : list DialogueLine) (currentTime : Q) : list DialogueLine :=
  match fuel with
  | O => processed
  | S fuel' =>
      match nth_error processed i with
      | None => processed
      | Some line =>
          let '(processed', currentTime') :=
            timing_step globalSettings i line processed currentTime in
          timing_loop globalSettings fuel' (S i) processed' currentTime'
      end
  end.

Definition processDialogueTiming (dialogue : list DialogueLine)
  (globalSettings : ConversationGlobalSettings) : list DialogueLine :=
  timing_loop globalSettings (List.length dialogue) 0 dialogue 0.

(** The events [createConversationTimeline] pushes for one line. *)
Definition line_endTime (line : DialogueLine) : Q :=
  or_default (endTime (timing line)) (startTime (timing line) + 3000).

Definition emotion_events (line : DialogueLine) : list TimelineEvent :=
  match emotionTransitions line with
  | Some transitions =>
      map (fun transition =>
             {| ev_time := startTime (timing line)
                           + or_default (time (triggers transition)) 0;
                ev_type := emotion_change;
                ev_characterId := characterId line;
                ev_lineId := id line;
                ev_data := Some (data_emotions (fromEmotion transition)
                                   (toEmotion transition)) |})
        transitions
  | None => []
  end.

Definition overlap_events (line : DialogueLine) : list TimelineEvent :=
  match overlap (timing line) with
  | Some ov =>
      if enabled ov then
        [ {| ev_time := startTime (timing line);
             ev_type := overlap_start;
             ev_characterId := characterId line;
             ev_lineId := id line;
             ev_data := Some (data_overlap ov) |};
          {| ev_time := startTime (timing line) + overlapDuration ov;
             ev_type := overlap_end;
             ev_characterId := characterId line;
             ev_lineId := id line;
             ev_data := None |} ]
      else []
  | None => []
  end.

Definition line_events (line : DialogueLine) : list TimelineEvent :=
  ([ {| ev_time := startTime (timing line);
        ev_type := line_start;
        ev_characterId := characterId line;
        ev_lineId := id line;
        ev_data := Some (data_text (text line)) |};
     {| ev_time := line_endTime line;
        ev_type := line_end;
        ev_characterId := characterId line;
        ev_lineId := id line;
        ev_data := None |} ]
   ++ emotion_events line ++ overlap_events line)%list.

(** [usage[key] = (usage[key] || 0) + duration] on an object used as a map. *)
Fixpoint usage_add (key : string) (duration : Q) (usage : list (string * Q))
  : list (string * Q) :=
  match usage with
  | [] => [(key, 0 + duration)]
  | (k, v) :: usage' =>
      if String.eqb k key then (k, or_default (Some v) 0 + duration) :: usage'
      else (k, v) :: usage_add key duration usage'
  end.

Definition createConversationTimeline (dialogue : list DialogueLine)
  (audioTracks : list AudioTrackResult) : ConversationTimeline :=
  let pushed := flat_map line_events dialogue in
  let totalDuration :=
    fold_left (fun total line => Qmax total (line_endTime line)) dialogue 0 in
  let usage :=
    fold_left
      (fun usage line =>
         usage_add (characterId line)
           (line_endTime line - startTime (timing line)) usage)
      dialogue [] in
  {| cv_totalDuration := totalDuration;
     events := sort_by ev_time pushed;
     characterUsage := usage |}.

Section Collaborators.

(** The character manager and the voice engine, which the conversation
    manager drives. *)
Variable initializeCharacters : list ConversationCharacter -> Result unit.
Variable generateVoice : GenerationRequest -> Result Buffer.

Definition line_request (character : ConversationCharacter)
  (format : OutputFormat) (line : DialogueLine) : GenerationRequest :=
  {| gr_text := text line;
     gr_voiceProfile := ch_voiceProfile character;
     gr_modulation :=
       match emotion line with
       | Some e =>
           Some {| vm_emotion := e;
                   vm_speed := or_default (speedModifier (timing line)) 1;
                   vm_pitch := 0;
                   vm_volume := 1 |}
       | None => None
       end;
     gr_emotionTransitions := emotionTransitions line;
     gr_outputFormat := format |}.

(** The segments of one character, in line order. *)
Fixpoint character_segments (character : ConversationCharacter)
  (format : OutputFormat) (lines : list DialogueLine) : Result (list AudioSegment) :=
  match lines with
  | [] => Ok []
  | line :: lines' =>
      audioBuffer <- generateVoice (line_request character format line) ;;
      rest <- character_segments character format lines' ;;
      Ok ({| as_lineId := id line;
             as_startTime := startTime (timing line);
             as_endTime := line_endTime line;
             as_text := text line;
             as_emotion :=
               match emotion line with
               | Some e => e
               | None => ch_defaultEmotion character
               end;
             as_audioBuffer := audioBuffer |} :: rest)
  end.

Fixpoint generateCharacterAudioTracks (dialogue : list DialogueLine)
  (characters : list ConversationCharacter) (format : OutputFormat)
  : Result (list AudioTrackResult) :=
  match characters with
  | [] => Ok []
  | character :: characters' =>
      let lines :=
        filter (fun line => String.eqb (characterId line) (ch_id character))
          dialogue in
      match lines with
      | [] => generateCharacterAudioTracks dialogue characters' format
      | _ =>
          segments <- character_segments character format lines ;;
          let track :=
            {| tr_characterId := ch_id character;
               tr_characterName := ch_name character;
               tr_audioBuffer := List.concat (map as_audioBuffer segments);
               tr_segments := segments;
               tr_totalDuration :=
                 fold_left (fun sum seg => Qmax sum (as_endTime seg)) segments 0 |} in
          tracks <- generateCharacterAudioTracks dialogue characters' format ;;
          Ok (track :: tracks)
      end
  end.

Definition sum_nat (xs : list nat) : nat := fold_left Nat.add xs 0%nat.

Fixpoint count_emotion (e : EmotionType) (dist : list (EmotionType * nat))
  : list (EmotionType * nat) :=
  match dist with
  | [] => [(e, 1%nat)]
  | (k, n) :: dist' =>
      if (match k, e with
          | happy, happy | sad, sad | angry, angry | excited, excited
          | calm, calm | fearful, fearful | surprised, surprised
          | neutral, neutral => true
          | _, _ => false
          end)
      then (k, S n) :: dist'
      else (k, n) :: count_emotion e dist'
  end.

Definition usage_of (key : string) (usage : list (string * Q)) : Q :=
  match find (fun kv => String.eqb (fst kv) key) usage with
  | Some (_, v) => or_default (Some v) 0
  | None => 0
  end.

Definition calculateConversationStatistics (dialogue : list DialogueLine)
  (audioTracks : list AudioTrackResult) (timeline : ConversationTimeline)
  : ConversationStatistics :=
  let totalLines := List.length dialogue in
  let totalWords := sum_nat (map (fun line => wordCount (text line)) dialogue) in
  let characterStats :=
    map (fun track =>
           let characterLines :=
             filter (fun line => String.eqb (characterId line) (tr_characterId track))
               dialogue in
           (tr_characterId track,
            {| lineCount := List.length characterLines;
               cs_wordCount :=
                 sum_nat (map (fun line => wordCount (text line)) characterLines);
               speakingTime := usage_of (tr_characterId track) (characterUsage timeline);
               averageEmotion :=
                 {| type := neutral; intensity := 5 # 10; variations := [] |};
               emotionChanges :=
                 sum_nat (map (fun line =>
                                 match emotionTransitions line with
                                 | Some trs => List.length trs
                                 | None => 0%nat
                                 end) characterLines) |}))
      audioTracks in
  let emotionDistribution :=
    fold_left
      (fun dist line =>
         count_emotion
           (match emotion line with Some e => type e | None => neutral end) dist)
      dialogue [] in
  let overlappingLines :=
    List.length
      (filter (fun line =>
                 match overlap (timing line) with
                 | Some ov => enabled ov
                 | None => false
                 end) dialogue) in
  let totalSpeakingTime :=
    fold_left Qplus (map snd (characterUsage timeline)) 0 in
  {| totalLines := totalLines;
     totalWords := totalWords;
     averageLineLength := Q_of_nat totalWords / Q_of_nat totalLines;
     characterStats := characterStats;
     emotionDistribution := emotionDistribution;
     overlappingLines := overlappingLines;
     silenceDuration := Qmax 0 (cv_totalDuration timeline - totalSpeakingTime) |}.

Definition generateConversation (request : ConversationGenerationRequest)
  : Result ConversationResult :=
  let config := config request in
  _ <- validateConversationConfig config ;;
  _ <- initializeCharacters (characters config) ;;
  let processedDialogue :=
    processDialogueTiming (dialogue config) (globalSettings config) in
  audioTracks <-
    generateCharacterAudioTracks processedDialogue (characters config)
      (outputFormat request) ;;
  let timeline := createConversationTimeline processedDialogue audioTracks in
  mixedAudio <-
    match mixingOptions request with
    | Some options =>
        if enableAutomaticMixing options
        then mixed <- AudioMixer.mixConversation audioTracks timeline options ;;
             Ok (Some mixed)
        else Ok None
    | None => Ok None
    end ;;
  let statistics :=
    calculateConversationStatistics (dialogue config) audioTracks timeline in
  Ok {| audioTracks := audioTracks;
        mixedAudio := mixedAudio;
        res_timeline := timeline;
        statistics := statistics;
        res_metadata :=
          match metadata config with
          | Some m => m
          | None =>
              {| genre := "conversation";
                 targetAudience := "general";
                 estimatedDuration := cv_totalDuration timeline;
                 complexity := "moderate";
                 tags := [] |}
          end |}.

End Collaborators.

(** *** Facts *)

Section ManagerFacts.
Import JSFacts.

(** **** Validation *)

Definition alice : ConversationCharacter :=
  {| ch_id := "alice"; ch_name := "Alice";
     ch_voiceProfile := {| vp_id := "v1"; vp_name := "Alice"; vp_baseVoiceId := "b1" |};
     ch_defaultEmotion := {| type := neutral; intensity := 5 # 10; variations := [] |} |}.

Definition bob : ConversationCharacter :=
  {| ch_id := "bob"; ch_name := "Bob";
     ch_voiceProfile := {| vp_id := "v2"; vp_name := "Bob"; vp_baseVoiceId := "b2" |};
     ch_defaultEmotion := {| type := neutral; intensity := 5 # 10; variations := [] |} |}.

Definition settings (pause : Q) : ConversationGlobalSettings :=
  {| pauseBetweenLines := pause; crossfadeDuration := 200;
     masterVolume := 1; naturalTiming := true |}.

Definition plan (lines : list DialogueLine) (pause : Q) : ConversationGenerationRequest :=
  {| config := {| cfg_id := "plan"; title := "Plan";
                  characters := [alice; bob];
                  dialogue := lines;
                  globalSettings := settings pause;
                  metadata := None |};
     outputFormat := wav;
     mixingOptions := None |}.

(** Collaborators that always succeed: the characters initialize and every
    line is voiced by silence. *)
Definition init_ok (cs : list ConversationCharacter) : Result unit := Ok tt.
Definition silent_voice (r : GenerationRequest) : Result Buffer := Ok [].

(** C3, as the code has it.  A plan with zero dialogue lines does not get
    past validation: [generateConversation] throws, with the message about
    the missing dialogue line, or about the missing character when the plan
    has no character either, and returns no result. *)
Theorem empty_dialogue_is_rejected
  (initializeCharacters : list ConversationCharacter -> Result unit)
  (generateVoice : GenerationRequest -> Result Buffer)
  (request : ConversationGenerationRequest) :
  dialogue (config request) = [] ->
  generateConversation initializeCharacters generateVoice request
  = Throw (Error (match characters (config request) with
                  | [] => "Conversation must have at least one character"
                  | _ => "Conversation must have at least one dialogue line"
                  end)).
Proof.
  intros Hempty. unfold generateConversation, validateConversationConfig.
  rewrite Hempty. destruct (characters (config request)); reflexivity.
Qed.

Lemma empty_plan_is_rejected :
  dialogue (config (plan [] 500)) = [] /\
  generateConversation init_ok silent_voice (plan [] 500)
  = Throw (Error "Conversation must have at least one dialogue line").
Proof.
  split; [reflexivity |].
  exact (@empty_dialogue_is_rejected init_ok silent_voice (plan [] 500) eq_refl).
Defined.

(** The plan with two characters and no line yields an exception, not a
    result. *)
Lemma empty_plan_throws :
  generateConversation init_ok silent_voice (plan [] 500)
  = Throw (Error "Conversation must have at least one dialogue line").
Proof. reflexivity. Qed.

(** **** Timing *)

(** A line that leaves the scheduling to the manager: no pause of its own
    before it, no speed modifier, no overlap. *)
Definition plain (line : DialogueLine) : Prop :=
  pauseBefore (timing line) = None /\
  speedModifier (timing line) = None /\
  overlap (timing line) = None.

(** The schedule in the words of the specification: the start and the end of
    each line, [cursor] being the end of the line before plus its pause
    after. *)
Fixpoint schedule (pause_between_lines : Q) (first : bool) (cursor : Q)
  (lines : list DialogueLine) : list (Q * Q) :=
  match lines with
  | [] => []
  | line :: lines' =>
      let pause_before_ms := if first then 0 else pause_between_lines in
      let start_ms := cursor + pause_before_ms in
      let end_ms := start_ms + (Q_of_nat (wordCount (text line)) / 3) * 1000 in
      let pause_after_ms := or_default (pauseAfter (timing line)) 0 in
      (start_ms, end_ms)
        :: schedule pause_between_lines false (end_ms + pause_after_ms) lines'
  end.

Definition line_times (line : DialogueLine) : Q * option Q :=
  (startTime (timing line), endTime (timing line)).

Lemma timing_loop_plain gs rest :
  Forall plain rest ->
  forall done cursor,
    map line_times
      (timing_loop gs (List.length rest) (List.length done) (done ++ rest) cursor)
    = (map line_times done
       ++ map (fun se => (fst se, Some (snd se)))
            (schedule (pauseBetweenLines gs) (List.length done =? 0)%nat cursor rest))%list.
Proof.
  induction 1 as [| line rest [Hpb [Hsm Hov]] Hrest IH]; intros done cursor.
  - simpl. rewrite !app_nil_r. reflexivity.
  - cbn [List.length timing_loop]. rewrite nth_error_middle.
    unfold timing_step.
    cbn [timing set_pauseBefore set_startTime set_endTime
         startTime endTime pauseBefore pauseAfter overlap speedModifier text].
    rewrite Hpb, Hsm, Hov.
    rewrite !replace_nth_app.
    match goal with
    | |- context [(done ++ ?l :: rest)%list] =>
        replace (done ++ l :: rest)%list with ((done ++ [l]) ++ rest)%list
          by (rewrite <- app_assoc; reflexivity);
        replace (S (List.length done)) with (List.length (done ++ [l])%list)
          by (rewrite length_app; simpl; lia)
    end.
    rewrite IH. rewrite map_app. rewrite <- app_assoc.
    replace (List.length (done ++ _)%list =? 0)%nat with false
      by (rewrite length_app; simpl; symmetry; apply Nat.eqb_neq; lia).
    reflexivity.
Qed.

(** C4.  For lines without a pause of their own, a speed modifier or an
    overlap, [processDialogueTiming] assigns the start and end times of the
    schedule: each line starts at the cursor plus the pause before it (0 for
    the first line, [pauseBetweenLines] for the others), ends
    [(wordCount / 3) * 1000] ms later, and moves the cursor to its end plus
    its pause after.  In particular, for three such lines of 12, 8 and 5
    words, 500 ms between lines and no pause after a line, the first line
    runs from 0 to 4000 ms, the second starts at 4500 ms and ends 8000/3 ms
    later (2667 ms to the nearest millisecond), and the third starts 500 ms
    after the second ends. *)
Theorem plain_lines_follow_schedule dialogue globalSettings :
  Forall plain dialogue ->
  map line_times (processDialogueTiming dialogue globalSettings)
  = map (fun se => (fst se, Some (snd se)))
      (schedule (pauseBetweenLines globalSettings) true 0 dialogue) /\
  forall l1 l2 l3,
    dialogue = [l1; l2; l3] ->
    wordCount (text l1) = 12%nat ->
    wordCount (text l2) = 8%nat ->
    wordCount (text l3) = 5%nat ->
    pauseBetweenLines globalSettings = 500 ->
    pauseAfter (timing l1) = None ->
    pauseAfter (timing l2) = None ->
    exists s1 e1 s2 e2 s3 e3,
      map line_times (processDialogueTiming dialogue globalSettings)
      = [(s1, Some e1); (s2, Some e2); (s3, Some e3)] /\
      s1 == 0 /\ e1 == 4000 /\
      s2 == 4500 /\ e2 - s2 == 8000 # 3 /\ Qabs (e2 - s2 - 2667) < 1 /\
      s3 == e2 + 500.
Proof.
  intros Hplain.
  assert (Hsched :
            map line_times (processDialogueTiming dialogue globalSettings)
            = map (fun se => (fst se, Some (snd se)))
                (schedule (pauseBetweenLines globalSettings) true 0 dialogue)).
  { unfold processDialogueTiming.
    apply (@timing_loop_plain globalSettings dialogue Hplain [] 0). }
  split; [exact Hsched |].
  intros l1 l2 l3 -> Hw1 Hw2 Hw3 Hpause Ha1 Ha2.
  rewrite Hsched. cbn [schedule map fst snd].
  rewrite Hw1, Hw2, Hw3, Hpause, Ha1, Ha2.
  do 6 eexists. split; [reflexivity |].
  repeat split.
Qed.

Definition spoken (line_id character text : string) : DialogueLine :=
  {| id := line_id; characterId := character; text := text;
     emotion := None; emotionTransitions := None;
     timing := {| startTime := 0; endTime := None; pauseBefore := None;
                  pauseAfter := None; overlap := None; speedModifier := None |} |}.

(** Three lines of 12, 8 and 5 words. *)
Definition three_lines : list DialogueLine :=
  [ spoken "A1" "alice"
      "one two three four five six seven eight nine ten eleven twelve";
    spoken "B1" "bob" "one two three four five six seven eight";
    spoken "A2" "alice" "one two three four five" ].

Lemma three_lines_schedule :
  Forall plain three_lines /\
  exists s1 e1 s2 e2 s3 e3,
    map line_times (processDialogueTiming three_lines (settings 500))
    = [(s1, Some e1); (s2, Some e2); (s3, Some e3)] /\
    s1 == 0 /\ e1 == 4000 /\
    s2 == 4500 /\ e2 - s2 == 8000 # 3 /\ Qabs (e2 - s2 - 2667) < 1 /\
    s3 == e2 + 500.
Proof.
  assert (Hplain : Forall plain three_lines).
  { repeat constructor. }
  split; [exact Hplain |].
  exact (proj2 (@plain_lines_follow_schedule three_lines (settings 500) Hplain)
           _ _ _ eq_refl eq_refl eq_refl eq_refl eq_refl eq_refl eq_refl).
Defined.

(** **** The timeline *)

Lemma generateConversation_timeline
  (initializeCharacters : list ConversationCharacter -> Result unit)
  (generateVoice : GenerationRequest -> Result Buffer) request r :
  generateConversation initializeCharacters generateVoice request = Ok r ->
  res_timeline r
  = createConversationTimeline
      (processDialogueTiming (dialogue (config request))
         (globalSettings (config request)))
      (audioTracks r).
Proof.
  unfold generateConversation.
  destruct (validateConversationConfig (config request)); [| discriminate].
  destruct (initializeCharacters _); [| discriminate].
  simpl bind.
  destruct (generateCharacterAudioTracks _ _ _ _) as [tracks |]; [| discriminate].
  simpl bind.
  destruct (match mixingOptions request with Some _ => _ | None => _ end);
    [| discriminate].
  simpl bind. intros H; inversion H; subst; reflexivity.
Qed.

(** C7, as the code has it.  The events of the timeline are sorted by time
    alone: the kind of an event plays no part, and events of equal time stay
    in the order in which they were pushed (line by line, and for each line
    its start, its end, its emotion changes, its overlap start and end).
    The timeline of a generated conversation is built this way from the
    scheduled lines. *)
Theorem events_sorted_by_time_in_push_order :
  (forall dialogue audioTracks,
      let evs := events (createConversationTimeline dialogue audioTracks) in
      StronglySorted (fun a b => ev_time a <= ev_time b) evs /\
      forall t,
        filter (fun e => Qeq_bool (ev_time e) t) evs
        = filter (fun e => Qeq_bool (ev_time e) t) (flat_map line_events dialogue)) /\
  (forall initializeCharacters generateVoice request r,
      generateConversation initializeCharacters generateVoice request = Ok r ->
      res_timeline r
      = createConversationTimeline
          (processDialogueTiming (dialogue (config request))
             (globalSettings (config request)))
          (audioTracks r)).
Proof.
  split.
  - intros dialogue audioTracks evs. subst evs.
    unfold createConversationTimeline; cbn [events].
    split; [apply (sort_by_sorted ev_time) |].
    intros t. apply (sort_by_stable ev_time).
  - intros. eapply generateConversation_timeline; eassumption.
Qed.

(** Two lines of three words each, spoken back to back. *)
Definition back_to_back : list DialogueLine :=
  [ spoken "l1" "alice" "one two three"; spoken "l2" "bob" "four five six" ].

(** With no pause between lines the first line ends at 1000 ms, when the
    second starts; the [line_end] event comes before the [line_start] event
    of the same time. *)
Lemma line_end_precedes_line_start :
  option_map
    (fun r => map (fun e => (Qred (ev_time e), ev_type e, ev_lineId e))
                (events (res_timeline r)))
    (match generateConversation init_ok silent_voice (plan back_to_back 0) with
     | Ok r => Some r
     | Throw _ => None
     end)
  = Some [ (0, line_start, "l1"); (1000, line_end, "l1");
           (1000, line_start, "l2"); (2000, line_end, "l2") ].
Proof. vm_compute. reflexivity. Qed.

(** ** Further facts about the manager *)

(** A configuration that passes validation: at least one character and
    one line, every line spoken by one of the characters, and every
    overlap target that is not the empty string the id of a line. *)
Definition well_formed (config : ConversationConfig) : Prop :=
  characters config <> [] /\
  dialogue config <> [] /\
  (forall line, In line (dialogue config) ->
     In (characterId line) (map ch_id (characters config))) /\
  (forall line ov target, In line (dialogue config) ->
     overlap (timing line) = Some ov ->
     truthy_string (targetLineId ov) = Some target ->
     In target (map id (dialogue config))).

(** A validated dialogue is not empty and is spoken by the cast. *)
Lemma validated_lines_are_cast (config : ConversationConfig) :
  validateConversationConfig config = Ok tt ->
  dialogue config <> [] /\
  forall line, In line (dialogue config) ->
    In (characterId line) (map ch_id (characters config)).
Proof.
  unfold validateConversationConfig.
  destruct (characters config) as [| c cs]; [discriminate |].
  destruct (dialogue config) as [| l ls]; [discriminate |].
  set (d := l :: ls). set (chars := c :: cs). intros H.
  split; [discriminate |]. intros line Hline.
  destruct (for_each d _ tt) as [[] |] eqn:E1 in H; [| discriminate].
  pose proof (proj1 (for_each_checks d
    (fun line =>
       if existsb (String.eqb (characterId line)) (map ch_id chars)
       then Ok tt
       else Throw (Error ("Dialogue line references unknown character: "
                          ++ characterId line)))) E1 line Hline) as Hc.
  cbv beta in Hc.
  destruct (existsb _ _) eqn:Ex in Hc; [| discriminate].
  apply existsb_eqb_In, Ex.
Qed.

(** X23.  Validation accepts exactly the configurations that have at
    least one character and at least one line, whose lines all name the
    id of one of the characters, and whose overlap targets, where one is
    given, are ids of lines of the dialogue (an overlap that is switched
    off is checked as well, and a line may overlap itself). *)
Theorem validation_accepts_well_formed (config : ConversationConfig) :
  validateConversationConfig config = Ok tt <-> well_formed config.
Proof.
  unfold validateConversationConfig, well_formed.
  destruct (characters config) as [| c cs] eqn:Ec.
  { split; [discriminate | intros [H _]; congruence]. }
  destruct (dialogue config) as [| l ls] eqn:El.
  { split; [discriminate | intros [_ [H _]]; congruence]. }
  set (d := l :: ls). set (chars := c :: cs).
  match goal with
  | |- bind (for_each d ?f tt) _ = _ <-> _ =>
      pose proof (for_each_checks d
        (fun line =>
           if existsb (String.eqb (characterId line)) (map ch_id chars)
           then Ok tt
           else Throw (Error ("Dialogue line references unknown character: "
                              ++ characterId line)))) as H1
  end.
  pose proof (for_each_checks d
    (fun line =>
       match overlap (timing line) with
       | Some ov =>
           match truthy_string (targetLineId ov) with
           | Some target =>
               if existsb (String.eqb target) (map id d) then Ok tt
               else Throw (Error ("Overlap target line not found: " ++ target))
           | None => Ok tt
           end
       | None => Ok tt
       end)) as H2.
  cbv beta in H1, H2.
  split.
  - intros H.
    destruct (for_each d _ tt) as [[] |] eqn:E1 in H; [| discriminate].
    simpl in H.
    split; [discriminate |]. split; [discriminate |]. split.
    + intros line Hline. pose proof (proj1 H1 E1 line Hline) as Hc.
      cbv beta in Hc.
      destruct (existsb _ _) eqn:Ex in Hc; [| discriminate].
      apply existsb_eqb_In, Ex.
    + intros line ov target Hline Hov Htarget.
      pose proof (proj1 H2 H line Hline) as Hc. cbv beta in Hc.
      rewrite Hov, Htarget in Hc.
      destruct (existsb _ _) eqn:Ex in Hc; [| discriminate].
      apply existsb_eqb_In, Ex.
  - intros [_ [_ [Hchars Htargets]]].
    assert (E1 : for_each d
              (fun line _ =>
                 if existsb (String.eqb (characterId line)) (map ch_id chars)
                 then Ok tt
                 else Throw (Error ("Dialogue line references unknown character: "
                                    ++ characterId line))) tt = Ok tt).
    { apply H1. intros line Hline.
      rewrite (proj2 (existsb_eqb_In _ _) (Hchars line Hline)). reflexivity. }
    rewrite E1. simpl. apply H2. intros line Hline.
    destruct (overlap (timing line)) as [ov |] eqn:Hov; [| reflexivity].
    destruct (truthy_string (targetLineId ov)) as [target |] eqn:Ht;
      [| reflexivity].
    rewrite (proj2 (existsb_eqb_In _ _) (Htargets line ov target Hline Hov Ht)).
    reflexivity.
Qed.

(** **** What scheduling leaves alone *)

(** The parts of a line that [processDialogueTiming] only reads. *)
Definition script_of (line : DialogueLine) :=
  (id line, characterId line, text line, emotion line, emotionTransitions line,
   (pauseAfter (timing line), overlap (timing line), speedModifier (timing line))).

(** A line that has been scheduled. *)
Definition scheduled (line : DialogueLine) : Prop :=
  (exists e, endTime (timing line) = Some e) /\
  (exists p, pauseBefore (timing line) = Some p).

Lemma map_replace_nth (A B : Type) (f : A -> B) i x l y :
  nth_error l i = Some y -> f x = f y ->
  map f (replace_nth i x l) = map f l.
Proof.
  revert i. induction l as [| z l IH]; intros [| i]; simpl; try discriminate.
  - intros H E. inversion H; subst. now rewrite E.
  - intros H E. now rewrite (IH i H E).
Qed.

Lemma nth_error_replace_nth (A : Type) i j (x : A) l :
  nth_error (replace_nth i x l) j
  = if (i =? j)%nat then
      match nth_error l j with Some _ => Some x | None => None end
    else nth_error l j.
Proof.
  revert i j. induction l as [| y l IH]; intros [| i] [| j]; simpl; auto.
  destruct (i =? j)%nat; reflexivity.
Qed.

Lemma replace_nth_twice (A : Type) i (x y : A) l :
  replace_nth i y (replace_nth i x l) = replace_nth i y l.
Proof.
  revert i. induction l as [| z l IH]; intros [| i]; simpl; auto.
  now rewrite IH.
Qed.

Lemma timing_step_spec gs i line processed currentTime :
  nth_error processed i = Some line ->
  exists line',
    fst (timing_step gs i line processed currentTime)
      = replace_nth i line' processed /\
    script_of line' = script_of line /\ scheduled line'.
Proof.
  intros Hi. unfold timing_step. cbv zeta.
  match goal with
  | |- context [replace_nth i ?l2 (replace_nth i ?l1 processed)] =>
      exists l2; set (line1 := l1); set (line2 := l2)
  end.
  cbn [fst]. split.
  - apply replace_nth_twice.
  - assert (H1 : script_of line1 = script_of line /\ scheduled line1).
    { subst line1. unfold script_of, scheduled. cbn. split; eauto. }
    subst line2.
    destruct (overlap (timing line1)) as [ov |]; [| exact H1].
    destruct (if enabled ov then truthy_string (targetLineId ov) else None)
      as [target |]; [| exact H1].
    destruct (find _ _) as [targetLine |]; [| exact H1].
    destruct (truthy_opt (endTime (timing targetLine))); [| exact H1].
    destruct H1 as [H1 [[e He] [p Hp]]].
    unfold script_of, scheduled in *. cbn. split; eauto.
Qed.

Lemma timing_loop_spec gs fuel :
  forall i processed currentTime,
    List.length processed = (i + fuel)%nat ->
    (forall j line, (j < i)%nat -> nth_error processed j = Some line ->
       scheduled line) ->
    let result := timing_loop gs fuel i processed currentTime in
    map script_of result = map script_of processed /\
    Forall scheduled result.
Proof.
  induction fuel as [| fuel IH]; intros i processed currentTime Hlen Hdone;
    cbn [timing_loop].
  - split; [reflexivity |]. apply Forall_forall. intros line Hin.
    apply In_nth_error in Hin. destruct Hin as [j Hj].
    apply (Hdone j line); [| exact Hj].
    assert (j < List.length processed)%nat
      by (apply nth_error_Some; congruence).
    lia.
  - destruct (nth_error processed i) as [line |] eqn:Hi.
    2: { apply nth_error_None in Hi. lia. }
    destruct (timing_step_spec gs i processed currentTime Hi)
      as [line' [Hstep [Hscript Hsched]]].
    destruct (timing_step gs i line processed currentTime)
      as [processed' currentTime'].
    cbn [fst] in Hstep. subst processed'.
    destruct (IH (S i) (replace_nth i line' processed) currentTime')
      as [Hmap Hall].
    + rewrite replace_nth_length. lia.
    + intros j l Hj Hl. rewrite nth_error_replace_nth in Hl.
      destruct (Nat.eqb_spec i j) as [-> | Hne].
      * rewrite Hi in Hl. inversion Hl; subst. exact Hsched.
      * apply (Hdone j l); [lia | exact Hl].
    + split; [| exact Hall].
      rewrite Hmap. apply (map_replace_nth script_of _ _ _ Hi Hscript).
Qed.

(** X24.  Scheduling changes the timing of the lines and nothing else:
    the lines keep their number and order, their ids, characters, texts,
    emotions and emotion transitions, their pauses after, overlaps and
    speed modifiers; and every line leaves with an end time and a pause
    before it. *)
Theorem scheduling_keeps_the_script (dialogue : list DialogueLine)
  (globalSettings : ConversationGlobalSettings) :
  let processed := processDialogueTiming dialogue globalSettings in
  map script_of processed = map script_of dialogue /\
  List.length processed = List.length dialogue /\
  Forall scheduled processed.
Proof.
  intros processed. subst processed. unfold processDialogueTiming.
  destruct (@timing_loop_spec globalSettings (List.length dialogue) 0
              dialogue 0) as [Hmap Hall].
  - reflexivity.
  - intros j line Hj. lia.
  - split; [exact Hmap |]. split; [| exact Hall].
    apply (f_equal (@List.length _)) in Hmap.
    now rewrite !length_map in Hmap.
Qed.

(** **** Plain lines follow one another *)

(** Start and end times that follow one another from [cursor] on: every
    line starts no earlier than the line before it ends, and ends after
    it starts. *)
Fixpoint in_sequence (cursor : Q) (times : list (Q * option Q)) : Prop :=
  match times with
  | [] => True
  | (s, e) :: times' =>
      match e with
      | Some e => cursor <= s /\ s < e /\ in_sequence e times'
      | None => False
      end
  end.

Definition no_negative_pause (line : DialogueLine) : Prop :=
  match pauseAfter (timing line) with Some p => 0 <= p | None => True end.

Lemma wordCount_positive (s : string) : 1 <= Q_of_nat (wordCount s).
Proof.
  unfold Q_of_nat, wordCount. pose proof (split_spaces_nonempty s).
  unfold Qle; simpl. lia.
Qed.

Lemma or_default_nonneg (o : option Q) :
  match o with Some p => 0 <= p | None => True end -> 0 <= or_default o 0.
Proof.
  destruct o as [p |]; simpl; [| discriminate].
  destruct (truthy p); [auto | discriminate].
Qed.

Lemma schedule_in_sequence pause lines :
  0 <= pause -> Forall no_negative_pause lines ->
  forall first cursor prev, prev <= cursor ->
  in_sequence prev
    (map (fun se => (fst se, Some (snd se)))
       (schedule pause first cursor lines)).
Proof.
  intros Hpause. induction 1 as [| line lines Hline Hlines IH];
    intros first cursor prev Hprev; simpl; [exact I |].
  pose proof (wordCount_positive (text line)) as Hw.
  pose proof (or_default_nonneg _ Hline) as Ha.
  assert (Hd : 0 < Q_of_nat (wordCount (text line)) / 3 * 1000).
  { assert (E : Q_of_nat (wordCount (text line)) / 3 * 1000
                == Q_of_nat (wordCount (text line)) * (1000 # 3)) by field.
    rewrite E. lra. }
  assert (Hb : 0 <= (if first then 0 else pause))
    by (destruct first; [discriminate | exact Hpause]).
  split; [lra |]. split; [lra |].
  apply IH. lra.
Qed.

(** X25.  Lines without a pause of their own before them, a speed
    modifier or an overlap never overlap when no pause is negative: the
    first line starts at time 0, every line ends after it starts (a line
    takes at least a third of a second), and every line starts no earlier
    than the line before it ends. *)
Theorem plain_lines_in_sequence (dialogue : list DialogueLine)
  (globalSettings : ConversationGlobalSettings) :
  Forall plain dialogue ->
  Forall no_negative_pause dialogue ->
  0 <= pauseBetweenLines globalSettings ->
  let times := map line_times (processDialogueTiming dialogue globalSettings) in
  in_sequence 0 times /\
  (forall first rest, times = first :: rest -> fst first == 0).
Proof.
  intros Hplain Hpauses Hbetween times. subst times.
  assert (Hsched :
            map line_times (processDialogueTiming dialogue globalSettings)
            = map (fun se => (fst se, Some (snd se)))
                (schedule (pauseBetweenLines globalSettings) true 0 dialogue))
    by apply (@timing_loop_plain globalSettings dialogue Hplain [] 0).
  rewrite Hsched.
  split.
  - apply schedule_in_sequence; [assumption .. | apply Qle_refl].
  - intros first rest E. destruct dialogue as [| line lines]; [discriminate |].
    simpl in E. inversion E; subst. simpl. ring.
Qed.

Lemma three_lines_in_sequence :
  in_sequence 0
    (map line_times (processDialogueTiming three_lines (settings 500))).
Proof.
  assert (Hplain : Forall plain three_lines) by repeat constructor.
  assert (Hpauses : Forall no_negative_pause three_lines)
    by repeat constructor.
  assert (Hbetween : 0 <= pauseBetweenLines (settings 500)) by discriminate.
  exact (proj1 (@plain_lines_in_sequence three_lines (settings 500)
                  Hplain Hpauses Hbetween)).
Defined.

(** **** The timeline, line by line *)

Definition events_of_line (line : DialogueLine) : nat :=
  (2 + match emotionTransitions line with
       | Some transitions => List.length transitions
       | None => 0
       end
     + match overlap (timing line) with
       | Some ov => if enabled ov then 2 else 0
       | None => 0
       end)%nat.

Lemma fold_Qmax_lower (A : Type) (f : A -> Q) (l : list A) (a : Q) :
  a <= fold_left (fun total x => Qmax total (f x)) l a /\
  (forall x, In x l -> f x <= fold_left (fun total x => Qmax total (f x)) l a).
Proof.
  revert a. induction l as [| y l IH]; intros a; simpl.
  - split; [apply Qle_refl | intros x []].
  - destruct (IH (Qmax a (f y))) as [Ha Hl]. split.
    + eapply Qle_trans; [apply Q.le_max_l | exact Ha].
    + intros x [<- | Hx]; [| apply Hl, Hx].
      eapply Qle_trans; [apply Q.le_max_r | exact Ha].
Qed.

Lemma fold_Qmax_attained (A : Type) (f : A -> Q) (l : list A) (a : Q) :
  fold_left (fun total x => Qmax total (f x)) l a == a \/
  exists x, In x l /\ fold_left (fun total x => Qmax total (f x)) l a == f x.
Proof.
  revert a. induction l as [| y l IH]; intros a; simpl.
  - left; reflexivity.
  - destruct (IH (Qmax a (f y))) as [E | [x [Hx E]]].
    + destruct (Q.max_spec a (f y)) as [[_ Em] | [_ Em]].
      * right. exists y. split; [left; reflexivity | now rewrite E].
      * left. now rewrite E.
    + right. exists x. split; [right; exact Hx | exact E].
Qed.

(** X26.  The timeline has, for every line, a start event at the start
    time of the line and an end event at its end time (3000 ms after the
    start when the line has no end time or the end time 0), one event
    per emotion transition and two per enabled overlap, and no others.
    Its total duration is the latest end time of a line, and 0 when no
    line ends after time 0. *)
Theorem timeline_covers_every_line (dialogue : list DialogueLine)
  (audioTracks : list AudioTrackResult) :
  let tl := createConversationTimeline dialogue audioTracks in
  List.length (events tl) = list_sum (map events_of_line dialogue) /\
  (forall line, In line dialogue ->
     In {| ev_time := startTime (timing line); ev_type := line_start;
           ev_characterId := characterId line; ev_lineId := id line;
           ev_data := Some (data_text (text line)) |} (events tl) /\
     In {| ev_time := line_endTime line; ev_type := line_end;
           ev_characterId := characterId line; ev_lineId := id line;
           ev_data := None |} (events tl) /\
     line_endTime line <= cv_totalDuration tl) /\
  0 <= cv_totalDuration tl /\
  (cv_totalDuration tl == 0 \/
   exists line, In line dialogue /\ cv_totalDuration tl == line_endTime line).
Proof.
  intros tl. subst tl. unfold createConversationTimeline.
  cbn [events cv_totalDuration].
  split; [| split; [| split]].
  - rewrite sort_by_length. induction dialogue as [| line lines IH];
      [reflexivity |].
    cbn [flat_map map list_sum]. rewrite length_app, IH.
    f_equal. unfold line_events, events_of_line, emotion_events, overlap_events.
    rewrite !length_app.
    destruct (emotionTransitions line) as [trs |];
      destruct (overlap (timing line)) as [ov |];
      try destruct (enabled ov); simpl; rewrite ?length_map; lia.
  - intros line Hline.
    assert (Hev : forall e, In e (line_events line) ->
              In e (sort_by ev_time (flat_map line_events dialogue))).
    { intros e He.
      eapply Permutation_in; [apply Permutation_sym, sort_by_perm |].
      apply in_flat_map. exists line. split; assumption. }
    split; [apply Hev; simpl; auto |]. split; [apply Hev; simpl; auto |].
    apply (proj2 (fold_Qmax_lower line_endTime dialogue 0) line Hline).
  - apply (proj1 (fold_Qmax_lower line_endTime dialogue 0)).
  - apply fold_Qmax_attained.
Qed.






(** **** Statistics *)

Definition same_emotion (k e : EmotionType) : bool :=
  match k, e with
  | happy, happy | sad, sad | angry, angry | excited, excited
  | calm, calm | fearful, fearful | surprised, surprised
  | neutral, neutral => true
  | _, _ => false
  end.

(** [emotionDistribution[e] || 0]. *)
Definition count_of (e : EmotionType) (dist : list (EmotionType * nat)) : nat :=
  match find (fun kn => same_emotion (fst kn) e) dist with
  | Some (_, n) => n
  | None => 0%nat
  end.

Definition line_emotion (line : DialogueLine) : EmotionType :=
  match emotion line with Some e => type e | None => neutral end.

Lemma same_emotion_eq k e : same_emotion k e = true <-> k = e.
Proof. destruct k, e; simpl; split; congruence. Qed.

Lemma same_emotion_sym k e : same_emotion k e = same_emotion e k.
Proof. destruct k, e; reflexivity. Qed.

Lemma count_of_count_emotion e e' dist :
  count_of e (count_emotion e' dist)
  = (count_of e dist + if same_emotion e' e then 1 else 0)%nat.
Proof.
  unfold count_of. induction dist as [| [k n] dist IH]; cbn [count_emotion].
  - cbn [find fst]. destruct (same_emotion e' e); reflexivity.
  - change (match k, e' with
            | happy, happy | sad, sad | angry, angry | excited, excited
            | calm, calm | fearful, fearful | surprised, surprised
            | neutral, neutral => true
            | _, _ => false
            end) with (same_emotion k e').
    destruct (same_emotion k e') eqn:Ek; cbn [find fst].
    + apply same_emotion_eq in Ek. subst k.
      destruct (same_emotion e' e); lia.
    + destruct (same_emotion k e) eqn:Eke; [| exact IH].
      apply same_emotion_eq in Eke. subst k.
      rewrite same_emotion_sym in Ek. rewrite Ek. lia.
Qed.

Lemma count_of_fold e dialogue dist :
  count_of e
    (fold_left (fun dist line => count_emotion (line_emotion line) dist)
       dialogue dist)
  = (count_of e dist
     + List.length (filter (fun line => same_emotion (line_emotion line) e)
                      dialogue))%nat.
Proof.
  revert dist. induction dialogue as [| line lines IH]; intros dist; simpl;
    [lia |].
  rewrite IH, count_of_count_emotion.
  destruct (same_emotion (line_emotion line) e); simpl; lia.
Qed.

Lemma sum_nat_from (xs : list nat) (a : nat) :
  fold_left Nat.add xs a = (a + sum_nat xs)%nat.
Proof.
  unfold sum_nat. revert a. induction xs as [| x xs IH]; intros a; simpl;
    [lia |].
  rewrite (IH (a + x)%nat), (IH x). lia.
Qed.

Lemma words_at_least_lines (lines : list DialogueLine) :
  (List.length lines
   <= sum_nat (map (fun line => wordCount (text line)) lines))%nat.
Proof.
  induction lines as [| line lines IH]; [unfold sum_nat; simpl; lia |].
  unfold sum_nat in *. simpl. rewrite sum_nat_from. unfold sum_nat.
  pose proof (split_spaces_nonempty (text line)). unfold wordCount in *. lia.
Qed.

(** X28.  In the statistics, the emotion distribution counts for every
    emotion the lines that carry it, a line without emotion counting as
    neutral; every line counts at least one word, an empty line too,
    so there are at least as many words as lines; the overlapping lines
    are at most all lines; the silence is never negative. *)
Theorem statistics_count_every_line (dialogue : list DialogueLine)
  (audioTracks : list AudioTrackResult) (timeline : ConversationTimeline) :
  let s := calculateConversationStatistics dialogue audioTracks timeline in
  totalLines s = List.length dialogue /\
  (forall e, count_of e (emotionDistribution s)
             = List.length
                 (filter (fun line => same_emotion (line_emotion line) e)
                    dialogue)) /\
  (totalLines s <= totalWords s)%nat /\
  (overlappingLines s <= totalLines s)%nat /\
  0 <= silenceDuration s.
Proof.
  intros s. subst s. unfold calculateConversationStatistics.
  cbn [totalLines emotionDistribution totalWords overlappingLines
       silenceDuration].
  split; [reflexivity |]. split; [| split; [| split]].
  - intros e.
    change (fun dist line =>
              count_emotion
                match emotion line with Some e0 => type e0 | None => neutral end
                dist)
      with (fun dist line => count_emotion (line_emotion line) dist).
    rewrite count_of_fold. reflexivity.
  - apply words_at_least_lines.
  - apply filter_length_le.
  - apply Q.le_max_l.
Qed.

(** **** The tracks *)

Definition speaks (dialogue : list DialogueLine) (character_id : string) : bool :=
  existsb (fun line => String.eqb (characterId line) character_id) dialogue.

Definition lines_of (dialogue : list DialogueLine) (character_id : string)
  : list DialogueLine :=
  filter (fun line => String.eqb (characterId line) character_id) dialogue.

Lemma character_segments_lines
  (generateVoice : GenerationRequest -> Result Buffer) character format lines
  segments :
  character_segments generateVoice character format lines = Ok segments ->
  map (fun s => (as_lineId s, as_text s, as_startTime s, as_endTime s)) segments
  = map (fun line => (id line, text line, startTime (timing line),
                      line_endTime line)) lines /\
  Forall2 (fun s line =>
             generateVoice (line_request character format line)
             = Ok (as_audioBuffer s)) segments lines.
Proof.
  revert segments. induction lines as [| line lines IH]; intros segments; simpl.
  - intros H; inversion H. split; constructor.
  - destruct (generateVoice (line_request character format line))
      as [buffer |] eqn:Ev; [| discriminate]. simpl.
    destruct (character_segments generateVoice character format lines)
      as [rest |]; [| discriminate]. simpl.
    intros H; inversion H; subst; clear H.
    destruct (IH rest eq_refl) as [Hmap Hall]. simpl. rewrite Hmap.
    split; [reflexivity |]. constructor; [exact Ev | exact Hall].
Qed.

Lemma speaks_lines_of dialogue character_id :
  speaks dialogue character_id = true <-> lines_of dialogue character_id <> [].
Proof.
  unfold speaks, lines_of. induction dialogue as [| line lines IH]; simpl.
  - split; [discriminate | congruence].
  - destruct (String.eqb (characterId line) character_id); simpl;
      [split; [discriminate | reflexivity] | exact IH].
Qed.

(** X29.  When the tracks are generated, there is one track for every
    character that has a line, in the order of the characters, and none
    for a character without lines.  The segments of a track are the lines
    of its character in the order of the dialogue, with their ids, texts
    and times, each holding the audio the voice engine returned for it;
    the audio of the track is the audio of its segments end to end. *)
Theorem tracks_follow_the_cast
  (generateVoice : GenerationRequest -> Result Buffer)
  (dialogue : list DialogueLine) (characters : list ConversationCharacter)
  (format : OutputFormat) (tracks : list AudioTrackResult) :
  generateCharacterAudioTracks generateVoice dialogue characters format
    = Ok tracks ->
  map tr_characterId tracks
    = filter (speaks dialogue) (map ch_id characters) /\
  Forall (fun track =>
            map (fun s => (as_lineId s, as_text s, as_startTime s, as_endTime s))
              (tr_segments track)
            = map (fun line => (id line, text line, startTime (timing line),
                                line_endTime line))
                (lines_of dialogue (tr_characterId track)) /\
            tr_segments track <> [] /\
            tr_audioBuffer track
            = List.concat (map as_audioBuffer (tr_segments track)))
         tracks.
Proof.
  revert tracks. induction characters as [| character characters IH];
    intros tracks; cbn [generateCharacterAudioTracks map filter].
  - intros H; inversion H. split; constructor.
  - fold (lines_of dialogue (ch_id character)).
    pose proof (speaks_lines_of dialogue (ch_id character)) as Hs.
    destruct (lines_of dialogue (ch_id character)) as [| line lines] eqn:El.
    + assert (E : speaks dialogue (ch_id character) = false).
      { destruct (speaks dialogue (ch_id character)); [| reflexivity].
        exfalso. apply (proj1 Hs); reflexivity. }
      rewrite E. apply IH.
    + rewrite (proj2 Hs) by discriminate.
      destruct (character_segments generateVoice character format
                  (line :: lines)) as [segments |] eqn:Es; [| discriminate].
      cbn [bind].
      destruct (generateCharacterAudioTracks generateVoice dialogue characters
                  format) as [rest |]; [| discriminate].
      cbn [bind]. intros H; inversion H; subst; clear H.
      destruct (IH rest eq_refl) as [Hids Hall].
      cbn [map tr_characterId]. rewrite Hids. split; [reflexivity |].
      constructor; [| exact Hall].
      cbn [tr_segments tr_characterId tr_audioBuffer]. rewrite El.
      destruct (character_segments_lines _ _ _ _ Es) as [Hmap _].
      split; [exact Hmap |]. split; [| reflexivity].
      intros ->. discriminate.
Qed.

(** A voice engine that answers every request with four bytes of
    silence. *)
Definition four_bytes (r : GenerationRequest) : Result Buffer :=
  Ok [x00; x00; x00; x00]%byte.

Lemma tracks_follow_three_lines :
  exists tracks,
    generateCharacterAudioTracks four_bytes three_lines [alice; bob] wav
      = Ok tracks /\
    map tr_characterId tracks = ["alice"; "bob"].
Proof.
  eexists. split; [reflexivity |].
  exact (proj1 (@tracks_follow_the_cast four_bytes three_lines [alice; bob]
                  wav _ eq_refl)).
Defined.

Lemma tracks_throw (generateVoice : GenerationRequest -> Result Buffer)
  (e : Exception) dialogue characters format :
  (forall r, generateVoice r = Throw e) ->
  (exists c, In c (map ch_id characters) /\ speaks dialogue c = true) ->
  generateCharacterAudioTracks generateVoice dialogue characters format
    = Throw e.
Proof.
  intros Hfail. induction characters as [| character characters IH];
    intros [c [Hc Hsp]]; [destruct Hc |].
  cbn [generateCharacterAudioTracks].
  fold (lines_of dialogue (ch_id character)).
  pose proof (speaks_lines_of dialogue (ch_id character)) as Hs.
  destruct (lines_of dialogue (ch_id character)) as [| line lines].
  - apply IH. exists c. split; [| exact Hsp].
    destruct Hc as [<- | Hc]; [| exact Hc].
    exfalso. apply (proj1 Hs Hsp). reflexivity.
  - cbn [character_segments]. rewrite Hfail. reflexivity.
Qed.

(** X30.  A failing voice engine fails the whole conversation: when the
    configuration passes validation and the characters initialize, but
    the voice engine throws on every request, generating the conversation
    throws the exception of the engine and returns no partial result. *)
Theorem synthesis_failure_is_fatal
  (initializeCharacters : list ConversationCharacter -> Result unit)
  (generateVoice : GenerationRequest -> Result Buffer)
  (request : ConversationGenerationRequest) (e : Exception) :
  validateConversationConfig (config request) = Ok tt ->
  initializeCharacters (characters (config request)) = Ok tt ->
  (forall r, generateVoice r = Throw e) ->
  generateConversation initializeCharacters generateVoice request = Throw e.
Proof.
  intros Hvalid Hinit Hfail. unfold generateConversation.
  rewrite Hvalid, Hinit. cbn [bind].
  rewrite (@tracks_throw generateVoice e); [reflexivity | exact Hfail |].
  apply validated_lines_are_cast in Hvalid.
  destruct Hvalid as [Hne Hchars].
  destruct (dialogue (config request)) as [| line lines] eqn:Ed;
    [congruence |].
  exists (characterId line). split; [apply Hchars; left; reflexivity |].
  destruct (@timing_loop_spec (globalSettings (config request))
              (List.length (line :: lines)) 0 (line :: lines) 0 eq_refl)
    as [Hmap _]; [intros j l Hj; lia |].
  unfold processDialogueTiming.
  destruct (timing_loop _ _ _ _ _) as [| line' lines'];
    [discriminate |].
  simpl in Hmap. inversion Hmap as [[Hid Hcid Htext]].
  unfold speaks. simpl. rewrite Hcid, String.eqb_refl. reflexivity.
Qed.

Definition out_of_order (r : GenerationRequest) : Result Buffer :=
  Throw (Error "voice engine unavailable").

Lemma synthesis_failure_fails_three_lines :
  generateConversation init_ok out_of_order (plan three_lines 500)
  = Throw (Error "voice engine unavailable").
Proof.
  apply (@synthesis_failure_is_fatal init_ok out_of_order
           (plan three_lines 500) (Error "voice engine unavailable"));
    reflexivity.
Defined.

End ManagerFacts.

End ConversationManager.


(* ===================================================================== *)
(** * [SubtitleReader] *)
(* ===================================================================== *)

Module SubtitleReader.
Import JS.
Local Open Scope Q_scope.
Local Open Scope string_scope.

(** The object [parseTextAnnotations] builds for a bracketed annotation. *)
Record SubtitleEmotion : Type := {
  primary : string;
  intensity : Q;
  confidence : Q
}.

Record SubtitleEntry : Type := {
  index : Z;
  startTime : Q;
  endTime : Q;
  startTimecode : string;
  endTimecode : string;
  text : string;
  speaker : option string;
  emotion : option SubtitleEmotion
}.

Record SubtitleMetadata : Type := {
  md_language : string;
  encoding : string;
  frameRate : Z;
  totalEntries : nat
}.

Record SubtitleTrack : Type := {
  track_id : string;
  language : string;
  format : string;
  entries : list SubtitleEntry;
  track_metadata : SubtitleMetadata
}.

Record TextAnnotations : Type := {
  cleanText : string;
  ann_speaker : option string;
  ann_emotion : option SubtitleEmotion
}.

Definition LF : string := String nl EmptyString.

(** [/\n\s*\n/] *)
Definition re_blank_line : regex :=
  Seq (Lit nl) (Seq (Star true (Chr is_space)) (Lit nl)).

Definition d2 : regex := Rep2 (Chr is_digit).
Definition d3 : regex := Rep3 (Chr is_digit).
Definition spaces0 : regex := Star true (Chr is_space).

(** [HH:MM:SS,mmm] with the groups numbered from [n]. *)
Definition re_timestamp (n : nat) (sep : ascii) : regex :=
  Seq (Group n d2) (Seq (Lit ":") (Seq (Group (n + 1) d2) (Seq (Lit ":")
    (Seq (Group (n + 2) d2) (Seq (Lit sep) (Group (n + 3) d3)))))).

(** [/(\d{2}):(\d{2}):(\d{2}),(\d{3})\s*-->\s*(\d{2}):(\d{2}):(\d{2}),(\d{3})/] *)
Definition re_srt_time : regex :=
  Seq (re_timestamp 1 ",")
    (Seq spaces0 (Seq (Lits "-->") (Seq spaces0 (re_timestamp 5 ",")))).

(** [/^([A-Z][^:]*?):\s*(.+)/s] *)
Definition re_speaker : regex :=
  Seq Bol
    (Seq (Group 1 (Seq (Chr is_upper) (Star false (Chr (not_char ":")))))
       (Seq (Lit ":") (Seq spaces0 (Group 2 (Plus (Chr any_char)))))).

(** [/\[([a-z]+)\]/i] and [/\[[a-z]+\]/gi] *)
Definition re_emotion : regex :=
  Seq (Lit "[") (Seq (Group 1 (Plus (Chr (icase is_lower)))) (Lit "]")).
Definition re_emotion_all : regex :=
  Seq (Lit "[") (Seq (Plus (Chr (icase is_lower))) (Lit "]")).

(** [/<[^>]*>/g] and [/\{[^}]*\}/g] *)
Definition re_html_tag : regex :=
  Seq (Lit "<") (Seq (Star true (Chr (not_char ">"))) (Lit ">")).
Definition re_style_tag : regex :=
  Seq (Lit "{") (Seq (Star true (Chr (not_char "}"))) (Lit "}")).

Definition group (m : match_result) (n : nat) : string :=
  match capture n (m_groups m) with Some g => g | None => EmptyString end.

(** [parseInt(timeMatch[n])]; the group holds digits only. *)
Definition group_int (m : match_result) (n : nat) : Z :=
  match parseInt (group m n) with Some z => z | None => 0%Z end.

Definition parseTimeToSeconds (hours minutes seconds milliseconds : Z) : Q :=
  inject_Z hours * 3600 + inject_Z minutes * 60 + inject_Z seconds
  + inject_Z milliseconds / 1000.

Definition secondsToTimecode (seconds : Q) : string :=
  let hours := Math_floor (seconds / 3600) in
  let minutes := Math_floor (rem seconds 3600 / 60) in
  let secs := Math_floor (rem seconds 60) in
  let frames := Math_floor (rem seconds 1 * 25) in
  padStart0 2 (toString hours) ++ ":" ++ padStart0 2 (toString minutes) ++ ":"
  ++ padStart0 2 (toString secs) ++ ":" ++ padStart0 2 (toString frames).

Definition parseTextAnnotations (text : string) : TextAnnotations :=
  let cleanText := text in
  let '(cleanText, speaker) :=
    match match_ text re_speaker with
    | Some speakerMatch =>
        (trim (group speakerMatch 2), Some (trim (group speakerMatch 1)))
    | None => (cleanText, None)
    end in
  let '(cleanText, emotion) :=
    match match_ cleanText re_emotion with
    | Some emotionMatch =>
        let emotionType := toLowerCase (group emotionMatch 1) in
        (trim (removeAll cleanText re_emotion_all),
         Some {| primary := emotionType; intensity := 7 # 10; confidence := 8 # 10 |})
    | None => (cleanText, None)
    end in
  let cleanText := trim (removeAll (removeAll cleanText re_html_tag) re_style_tag) in
  {| cleanText := cleanText; ann_speaker := speaker; ann_emotion := emotion |}.

(** The body of the loop of [parseSRT]: the entry of a block, or [None]
    where the loop [continue]s. *)
Definition parse_block (block : string) : option SubtitleEntry :=
  let lines := map trim (split_char nl block) in
  match lines with
  | line0 :: timeLine :: textLines =>
      match textLines with
      | [] => None
      | _ =>
          match parseInt line0 with
          | None => None
          | Some index =>
              match match_ timeLine re_srt_time with
              | None => None
              | Some timeMatch =>
                  let startTime :=
                    parseTimeToSeconds (group_int timeMatch 1) (group_int timeMatch 2)
                      (group_int timeMatch 3) (group_int timeMatch 4) in
                  let endTime :=
                    parseTimeToSeconds (group_int timeMatch 5) (group_int timeMatch 6)
                      (group_int timeMatch 7) (group_int timeMatch 8) in
                  let text := join LF textLines in
                  let ann := parseTextAnnotations text in
                  Some {| index := index;
                          startTime := startTime;
                          endTime := endTime;
                          startTimecode := secondsToTimecode startTime;
                          endTimecode := secondsToTimecode endTime;
                          text := cleanText ann;
                          speaker := ann_speaker ann;
                          emotion := ann_emotion ann |}
              end
          end
      end
  | _ => None
  end.

Definition parseSRT (content : string) : SubtitleTrack :=
  let blocks :=
    filter (fun block => negb (String.length (trim block) =? 0)%nat)
      (split content re_blank_line) in
  let entries :=
    flat_map (fun block =>
                match parse_block block with Some e => [e] | None => [] end)
      blocks in
  {| track_id := "subtitle_track";
     language := "en";
     format := "srt";
     entries := entries;
     track_metadata :=
       {| md_language := "en"; encoding := "utf-8"; frameRate := 25;
          totalEntries := List.length entries |} |}.

(** *** Facts *)

(** The block of the specification's scenario. *)
Definition alice_block : string :=
  "1" ++ LF ++ "00:00:01,000 --> 00:00:03,000" ++ LF
  ++ "ALICE: Hello [happy]!" ++ LF.

(** C9.  The block parses to exactly one entry: index 1, from 1.0 s to
    3.0 s, speaker ALICE, emotion happy, and the text without the bracketed
    annotation. *)
Theorem parseSRT_alice_block :
  exists entry,
    entries (parseSRT alice_block) = [entry] /\
    index entry = 1%Z /\
    startTime entry == 1 /\
    endTime entry == 3 /\
    speaker entry = Some "ALICE" /\
    option_map primary (emotion entry) = Some "happy" /\
    text entry = "Hello !".
Proof.
  eexists. split; [vm_compute; reflexivity |].
  repeat split.
Qed.

End SubtitleReader.

(* ===================================================================== *)
(** * Two of the examples in binary64 arithmetic *)
(* ===================================================================== *)

Module Binary64.
Local Open Scope float_scope.

(** [EmotionCurves.bezier] on doubles, with the operations in the order
    JavaScript evaluates them. *)
Definition bezier (progress cp1y cp2y : float) : float :=
  let t := progress in
  let t2 := t * t in
  let t3 := t2 * t in
  let mt := 1 - t in
  let mt2 := mt * mt in
  let mt3 := mt2 * mt in
  mt3 * 0 + 3 * mt2 * t * cp1y + 3 * mt * t2 * cp2y + t3 * 1.

(** At a quarter of the way, with control points [(0,0)] and [(1,1)], every
    operation is exact and the result is [5/32]. *)
Example bezier_quarter : bezier 0.25 0 1 = 0.15625.
Proof. reflexivity. Qed.

(** [sample * normalizationFactor] in [normalizeAudio];
    [0x1.e666666666666p-1] is the double nearest to 0.95. *)
Definition scaled (sample peak : float) : float :=
  let maxValue := 32767 * 0x1.e666666666666p-1 in
  let normalizationFactor := maxValue / peak in
  sample * normalizationFactor.

(** For the sample 100 of a buffer whose peak is 100 the product lies
    strictly between 31128.5 and 31129.5, so [Math.round] gives 31129. *)
Example scaled_quiet_sample :
  (31128.5 <? scaled 100 100) = true /\ (scaled 100 100 <? 31129.5) = true.
Proof. split; reflexivity. Qed.

End Binary64.
